(** * Externis: the event-timeline tracker of [tracking.cc]

    A shallow embedding of the trackers of [src/tracking.cc] (path
    normalizer, preprocessing stack, function and scope tracker, pass
    tracker) and of the emission routines that flush them into the trace
    buffer, followed by the properties of the specification they satisfy
    or fail.

    The process-wide variables of the anonymous namespace are the fields
    of one record, [Tracker]; every operation is a function from the
    tracker before the call to an [outcome] holding the tracker after it.
    [map_t] and [set_t] are finite maps and sets keyed by strings;
    timestamps are integers (nanoseconds since the start of the
    compilation, far below the limits of a 64-bit integer, so the 1 to 3
    nanosecond adjustments are exact additions). *)

From Stdlib Require Import ZArith String DecimalString.
From stdpp Require Import gmap strings list.

#[local] Set Warnings "-clear-no-such-hyp".

Open Scope Z_scope.
Open Scope string_scope.
Open Scope list_scope.

(** ** Outcomes

    Two things can go wrong in the code: a standard container throws
    ([substr] past the end of a string, [at] on an absent key), which is
    never caught and terminates the compiler, or a container is used
    outside its contract ([top] and [pop] on an empty stack, a null
    pointer dereferenced), which the language leaves undefined. *)

Inductive fault : Type :=
| out_of_range          (* uncaught std::out_of_range: std::terminate *)
| undefined_behaviour   (* no behaviour is guaranteed at all *)
| loop_budget.          (* the iteration bound of a modelled loop ran out *)

Inductive outcome (A : Type) : Type :=
| Ok (a : A)
| Fault (f : fault).
Arguments Ok {A} a.
Arguments Fault {A} f.

Definition bind {A B : Type} (o : outcome A) (k : A -> outcome B) : outcome B :=
  match o with
  | Ok a => k a
  | Fault f => Fault f
  end.

Notation "'let*' x ':=' o 'in' k" := (bind o (fun x => k))
  (at level 10, x name, o at level 100, k at level 200).

(** ** Data of [externis.h] *)

(** Modelled from the spec: the header [externis.h], which declares
    [EventCategory], is not among the sources; the enumeration is the
    closed one of the data model. *)
Inductive EventCategory : Type :=
| PREPROCESS | FUNCTION | NAMESPACE | STRUCT
| GIMPLE_PASS | RTL_PASS | SIMPLE_IPA_PASS | IPA_PASS | UNKNOWN.

(** Modelled from the spec: [TimeStamp] is declared in [externis.h];
    nanoseconds since the start of the compilation, which [tracking.cc]
    keeps in 64-bit integers. The sums and differences of the code are
    computed here in [Z]: they are those of the code as long as they stay
    within 64 bits, which the theorems that speak of them ask of the
    readings of the clock ([in_range]) and prove of every timestamp of
    the trackers ([no_overflow]). *)
Definition TimeStamp : Type := Z.

(** Modelled from the spec: [TimeSpan] is declared in [externis.h]; its
    two fields are the ones the code names [start] and [end]. *)
Record TimeSpan : Type := mkTimeSpan { start : TimeStamp; end_ : TimeStamp }.

(** Modelled from the spec: [TraceEvent] is declared in [externis.h]; the
    code builds it from a name, a category, a span and a pair of a flag
    and a string-to-string map. *)
Record TraceEvent : Type := mkTraceEvent {
  te_name : string;
  te_category : EventCategory;
  te_ts : TimeSpan;
  te_args : bool * gmap string string
}.

(** [opt_pass] and [opt_pass_type] belong to the host compiler
    ([tree-pass.h]); only the three members the tracker reads are kept.
    An enumeration of C++ can hold values outside its enumerators, which
    is what the last line of [pass_type] is for. *)
Inductive opt_pass_type : Type :=
| OPT_GIMPLE_PASS | OPT_RTL_PASS | OPT_SIMPLE_IPA_PASS | OPT_IPA_PASS
| OPT_OTHER (code : Z).

Record opt_pass : Type := mk_opt_pass {
  name : string;
  type : opt_pass_type;
  static_pass_number : Z
}.

(** [FinishedFunction], declared in [externis.h], as [externis.cc] fills
    it: the declaration handle is never read by the tracker and is left
    out; [scope_name] is the one pointer the tracker tests for null, the
    name and the file of a function that the parser finished being
    strings. *)
Record FinishedFunction : Type := mkFinishedFunction {
  ff_name : string;
  ff_file_name : string;
  ff_scope_name : option string;
  ff_scope_type : EventCategory
}.

(** What the preprocessor and the file system answer when
    [start_preprocess_file] asks where a file was included from: the name
    of the include directory of the current buffer, and the results of the
    two [realpath] calls ([None] for a null result). *)
Record cpp_reader : Type := mk_cpp_reader {
  dir_name : string;
  real_dir_name : option string;
  real_file_name : option string
}.

(** ** Data of [tracking.cc] *)

Record OptPassEvent : Type := mkOptPassEvent {
  pass : option opt_pass;
  ope_ts : TimeSpan
}.

Record ScopeEvent : Type := mkScopeEvent {
  se_name : string;
  se_type : EventCategory;
  se_ts : TimeSpan
}.

Record FunctionEvent : Type := mkFunctionEvent {
  fe_name : string;
  fe_file_name : string;
  fe_ts : TimeSpan
}.

(** The two diagnostics of [tracking.cc] on the standard error stream. *)
Inductive diagnostic : Type :=
| cant_normalize (file_name dir : string)
| realpath_failed (dir : string).

Definition CIRCULAR_POISON_VALUE : string := "CIRCULAR_POISON_VALUE_95d6021c".

(** The global variables, the static local of [end_parse_function], the
    trace buffer that [add_event] fills, the standard error stream, and
    the number of clock readings taken so far. *)
Record Tracker : Type := mkTracker {
  ticks : nat;
  preprocess_start : gmap string Z;
  preprocess_end : gmap string Z;
  preprocessing_stack : list string;          (* top of the stack first *)
  last_function_parsed_ts : TimeStamp;
  last_pass : OptPassEvent;
  pass_events : list OptPassEvent;
  file_to_include_directory : gmap string string;
  normalized_files_map : gmap string string;
  normalized_files : gset string;
  conflicted_files : gset string;
  scope_events : list ScopeEvent;
  function_events : list FunctionEvent;
  did_last_function_have_scope : bool;
  events : list TraceEvent;
  stderr : list diagnostic
}.

(** Zero-initialised globals and empty containers. *)
Definition initial : Tracker :=
  {| ticks := 0;
     preprocess_start := ∅;
     preprocess_end := ∅;
     preprocessing_stack := [];
     last_function_parsed_ts := 0;
     last_pass := mkOptPassEvent None (mkTimeSpan 0 0);
     pass_events := [];
     file_to_include_directory := ∅;
     normalized_files_map := ∅;
     normalized_files := ∅;
     conflicted_files := ∅;
     scope_events := [];
     function_events := [];
     did_last_function_have_scope := false;
     events := [];
     stderr := [] |}.

(** Assignments to one variable. *)
Definition set_ticks (v : nat) (s : Tracker) : Tracker :=
  mkTracker v (preprocess_start s) (preprocess_end s) (preprocessing_stack s)
    (last_function_parsed_ts s) (last_pass s) (pass_events s)
    (file_to_include_directory s) (normalized_files_map s) (normalized_files s)
    (conflicted_files s) (scope_events s) (function_events s)
    (did_last_function_have_scope s) (events s) (stderr s).

Definition set_preprocess_start (v : gmap string Z) (s : Tracker) : Tracker :=
  mkTracker (ticks s) v (preprocess_end s) (preprocessing_stack s)
    (last_function_parsed_ts s) (last_pass s) (pass_events s)
    (file_to_include_directory s) (normalized_files_map s) (normalized_files s)
    (conflicted_files s) (scope_events s) (function_events s)
    (did_last_function_have_scope s) (events s) (stderr s).

Definition set_preprocess_end (v : gmap string Z) (s : Tracker) : Tracker :=
  mkTracker (ticks s) (preprocess_start s) v (preprocessing_stack s)
    (last_function_parsed_ts s) (last_pass s) (pass_events s)
    (file_to_include_directory s) (normalized_files_map s) (normalized_files s)
    (conflicted_files s) (scope_events s) (function_events s)
    (did_last_function_have_scope s) (events s) (stderr s).

Definition set_preprocessing_stack (v : list string) (s : Tracker) : Tracker :=
  mkTracker (ticks s) (preprocess_start s) (preprocess_end s) v
    (last_function_parsed_ts s) (last_pass s) (pass_events s)
    (file_to_include_directory s) (normalized_files_map s) (normalized_files s)
    (conflicted_files s) (scope_events s) (function_events s)
    (did_last_function_have_scope s) (events s) (stderr s).

Definition set_last_function_parsed_ts (v : TimeStamp) (s : Tracker) : Tracker :=
  mkTracker (ticks s) (preprocess_start s) (preprocess_end s) (preprocessing_stack s)
    v (last_pass s) (pass_events s)
    (file_to_include_directory s) (normalized_files_map s) (normalized_files s)
    (conflicted_files s) (scope_events s) (function_events s)
    (did_last_function_have_scope s) (events s) (stderr s).

Definition set_last_pass (v : OptPassEvent) (s : Tracker) : Tracker :=
  mkTracker (ticks s) (preprocess_start s) (preprocess_end s) (preprocessing_stack s)
    (last_function_parsed_ts s) v (pass_events s)
    (file_to_include_directory s) (normalized_files_map s) (normalized_files s)
    (conflicted_files s) (scope_events s) (function_events s)
    (did_last_function_have_scope s) (events s) (stderr s).

Definition set_pass_events (v : list OptPassEvent) (s : Tracker) : Tracker :=
  mkTracker (ticks s) (preprocess_start s) (preprocess_end s) (preprocessing_stack s)
    (last_function_parsed_ts s) (last_pass s) v
    (file_to_include_directory s) (normalized_files_map s) (normalized_files s)
    (conflicted_files s) (scope_events s) (function_events s)
    (did_last_function_have_scope s) (events s) (stderr s).

Definition set_file_to_include_directory (v : gmap string string) (s : Tracker) : Tracker :=
  mkTracker (ticks s) (preprocess_start s) (preprocess_end s) (preprocessing_stack s)
    (last_function_parsed_ts s) (last_pass s) (pass_events s)
    v (normalized_files_map s) (normalized_files s)
    (conflicted_files s) (scope_events s) (function_events s)
    (did_last_function_have_scope s) (events s) (stderr s).

Definition set_normalized_files_map (v : gmap string string) (s : Tracker) : Tracker :=
  mkTracker (ticks s) (preprocess_start s) (preprocess_end s) (preprocessing_stack s)
    (last_function_parsed_ts s) (last_pass s) (pass_events s)
    (file_to_include_directory s) v (normalized_files s)
    (conflicted_files s) (scope_events s) (function_events s)
    (did_last_function_have_scope s) (events s) (stderr s).

Definition set_normalized_files (v : gset string) (s : Tracker) : Tracker :=
  mkTracker (ticks s) (preprocess_start s) (preprocess_end s) (preprocessing_stack s)
    (last_function_parsed_ts s) (last_pass s) (pass_events s)
    (file_to_include_directory s) (normalized_files_map s) v
    (conflicted_files s) (scope_events s) (function_events s)
    (did_last_function_have_scope s) (events s) (stderr s).

Definition set_conflicted_files (v : gset string) (s : Tracker) : Tracker :=
  mkTracker (ticks s) (preprocess_start s) (preprocess_end s) (preprocessing_stack s)
    (last_function_parsed_ts s) (last_pass s) (pass_events s)
    (file_to_include_directory s) (normalized_files_map s) (normalized_files s)
    v (scope_events s) (function_events s)
    (did_last_function_have_scope s) (events s) (stderr s).

Definition set_scope_events (v : list ScopeEvent) (s : Tracker) : Tracker :=
  mkTracker (ticks s) (preprocess_start s) (preprocess_end s) (preprocessing_stack s)
    (last_function_parsed_ts s) (last_pass s) (pass_events s)
    (file_to_include_directory s) (normalized_files_map s) (normalized_files s)
    (conflicted_files s) v (function_events s)
    (did_last_function_have_scope s) (events s) (stderr s).

Definition set_function_events (v : list FunctionEvent) (s : Tracker) : Tracker :=
  mkTracker (ticks s) (preprocess_start s) (preprocess_end s) (preprocessing_stack s)
    (last_function_parsed_ts s) (last_pass s) (pass_events s)
    (file_to_include_directory s) (normalized_files_map s) (normalized_files s)
    (conflicted_files s) (scope_events s) v
    (did_last_function_have_scope s) (events s) (stderr s).

Definition set_did_last_function_have_scope (v : bool) (s : Tracker) : Tracker :=
  mkTracker (ticks s) (preprocess_start s) (preprocess_end s) (preprocessing_stack s)
    (last_function_parsed_ts s) (last_pass s) (pass_events s)
    (file_to_include_directory s) (normalized_files_map s) (normalized_files s)
    (conflicted_files s) (scope_events s) (function_events s)
    v (events s) (stderr s).

Definition set_events (v : list TraceEvent) (s : Tracker) : Tracker :=
  mkTracker (ticks s) (preprocess_start s) (preprocess_end s) (preprocessing_stack s)
    (last_function_parsed_ts s) (last_pass s) (pass_events s)
    (file_to_include_directory s) (normalized_files_map s) (normalized_files s)
    (conflicted_files s) (scope_events s) (function_events s)
    (did_last_function_have_scope s) v (stderr s).

Definition set_stderr (v : list diagnostic) (s : Tracker) : Tracker :=
  mkTracker (ticks s) (preprocess_start s) (preprocess_end s) (preprocessing_stack s)
    (last_function_parsed_ts s) (last_pass s) (pass_events s)
    (file_to_include_directory s) (normalized_files_map s) (normalized_files s)
    (conflicted_files s) (scope_events s) (function_events s)
    (did_last_function_have_scope s) (events s) v.

(** [fprintf(stderr, ...)]. *)
Definition warn (d : diagnostic) (s : Tracker) : Tracker :=
  set_stderr (stderr s ++ [d]) s.

(** ** Strings and containers of the standard library *)

(** [std::string::substr(pos)]: the rest of the string from [pos] on;
    throws when [pos] is past the end. *)
Definition substr (str : string) (pos : nat) : outcome string :=
  if (pos <=? String.length str)%nat
  then Ok (String.substring pos (String.length str - pos) str)
  else Fault out_of_range.

(** [m.count(k)] on a map and on a set. *)
Definition count {V : Type} (m : gmap string V) (k : string) : bool :=
  match m !! k with Some _ => true | None => false end.

Definition count_set (X : gset string) (k : string) : bool :=
  bool_decide (k ∈ X).

(** [m.at(k)]: throws on an absent key. *)
Definition at_ {V : Type} (m : gmap string V) (k : string) : outcome V :=
  match m !! k with Some v => Ok v | None => Fault out_of_range end.

(** A range-based [for] whose body can fail. *)
Fixpoint for_each {A : Type} (body : A -> Tracker -> outcome Tracker)
    (l : list A) (s : Tracker) : outcome Tracker :=
  match l with
  | [] => Ok s
  | x :: l' => let* s' := body x s in for_each body l' s'
  end.

(** ** Path normalizer *)

Definition starts_with (check match_ : string) : bool :=
  (String.length match_ <=? String.length check)%nat && String.prefix match_ check.

Definition register_include_location (file_name dir_name : string)
    (s : Tracker) : outcome Tracker :=
  if count (file_to_include_directory s) file_name then Ok s
  else
    let file_std := file_name in
    let s := set_file_to_include_directory
               (<[file_name := dir_name]> (file_to_include_directory s)) s in
    let folder_std := file_to_include_directory s !!! file_std in
    if starts_with file_std folder_std then
      (* +1 for path separator. *)
      let* normalized_file := substr file_std (String.length folder_std + 1) in
      let s := set_normalized_files_map
                 (<[file_std := normalized_file]> (normalized_files_map s)) s in
      if count_set (normalized_files s) normalized_file
      then Ok (set_conflicted_files ({[normalized_file]} ∪ conflicted_files s) s)
      else Ok (set_normalized_files ({[normalized_file]} ∪ normalized_files s) s)
    else Ok (warn (cant_normalize file_name dir_name) s).

Definition normalized_file_name (file_name : string) (s : Tracker) : string :=
  if count (normalized_files_map s) file_name &&
     negb (count_set (conflicted_files s) (normalized_files_map s !!! file_name))
  then normalized_files_map s !!! file_name
  else file_name.

Definition pass_type (type : opt_pass_type) : EventCategory :=
  match type with
  | OPT_GIMPLE_PASS => GIMPLE_PASS
  | OPT_RTL_PASS => RTL_PASS
  | OPT_SIMPLE_IPA_PASS => SIMPLE_IPA_PASS
  | OPT_IPA_PASS => IPA_PASS
  | OPT_OTHER _ => UNKNOWN
  end.

(** Modelled from the spec: [add_event] is defined in a file that is not
    among the sources; the trace buffer is an append-only sequence in the
    order of the emission calls. *)
Definition add_event (e : TraceEvent) (s : Tracker) : Tracker :=
  set_events (events s ++ [e]) s.

(** [std::to_string] on an [int]. *)
Definition to_string (n : Z) : string := NilZero.string_of_int (Z.to_int n).

(** [v.back() = f(v.back())] on a non-empty vector. *)
Definition update_back {A : Type} (f : A -> A) (v : list A) : list A :=
  alter f (pred (length v)) v.

Section Trackers.

(** Modelled from the spec: [ns_from_start] is defined in a file that is
    not among the sources; it is the injected clock, and [clock n] is its
    answer to the [n]-th reading of the run. *)
Variable clock : nat -> TimeStamp.

Definition ns_from_start (s : Tracker) : TimeStamp * Tracker :=
  (clock (ticks s), set_ticks (S (ticks s)) s).

(** ** Preprocessing stack tracker *)

Definition end_preprocess_file (s : Tracker) : outcome Tracker :=
  let '(now, s) := ns_from_start s in
  match preprocessing_stack s with
  | [] => Fault undefined_behaviour           (* top() of an empty stack *)
  | top :: below =>
      let s := if count (preprocess_end s) top then s
               else set_preprocess_end (<[top := now]> (preprocess_end s)) s in
      let s := set_preprocessing_stack below s in
      Ok (set_last_function_parsed_ts (now + 3) s)
  end.

(** The [while] loop of [finish_preprocessing_stage]; [fuel] bounds the
    number of iterations of the model, and the depth of the stack is
    always enough ([finish_preprocessing_stage_spec]). *)
Fixpoint finish_preprocessing_loop (fuel : nat) (s : Tracker) : outcome Tracker :=
  match preprocessing_stack s with
  | [] => Ok s
  | _ :: _ =>
      match fuel with
      | O => Fault loop_budget
      | S fuel =>
          let* s := end_preprocess_file s in
          let '(now, s) := ns_from_start s in
          finish_preprocessing_loop fuel (set_last_function_parsed_ts now s)
      end
  end.

Definition finish_preprocessing_stage (s : Tracker) : outcome Tracker :=
  finish_preprocessing_loop (length (preprocessing_stack s)) s.

Definition start_preprocess_file (file_name : option string)
    (pfile : option cpp_reader) (s : Tracker) : outcome Tracker :=
  let '(now, s) := ns_from_start s in
  match file_name with
  | None => Ok s
  | Some file_name =>
      if String.eqb file_name "<command-line>" then Ok s
      else
        let circular := count (preprocess_start s) file_name &&
                        negb (count (preprocess_end s) file_name) in
        (* This is an edge case - this means that file_name is somewhere
           down the stack and we have a circular include. *)
        let pfile := if circular then None else pfile in
        let file_name := if circular then CIRCULAR_POISON_VALUE else file_name in
        let s := if count (preprocess_start s) file_name then s
                 else set_preprocess_start
                        (<[file_name := now]> (preprocess_start s)) s in
        let s := set_preprocessing_stack (file_name :: preprocessing_stack s) s in
        (* This finds out which folder the file was included from. *)
        match pfile with
        | Some r =>
            match real_dir_name r, real_file_name r with
            | Some real_dir, Some real_file =>
                register_include_location real_file real_dir s
            | _, _ =>
                if String.eqb (dir_name r) "" then Ok s
                else Ok (warn (realpath_failed (dir_name r)) s)
            end
        | None => Ok s
        end
  end.

Definition preprocess_event (s : Tracker) (file : string)
    (start_ end_ts : TimeStamp) : TraceEvent :=
  mkTraceEvent (normalized_file_name file s) PREPROCESS
    (mkTimeSpan start_ end_ts) (false, ∅).

(** The body of the loop of [write_preprocessing_events]. *)
Definition write_preprocessing_item (preprocess_item : string * Z)
    (s : Tracker) : outcome Tracker :=
  let file := preprocess_item.1 in
  let start_ := preprocess_item.2 in
  if String.eqb file CIRCULAR_POISON_VALUE then Ok s
  else
    let* end_ts := at_ (preprocess_end s) file in
    Ok (add_event (preprocess_event s file start_ end_ts) s).

(** The order in which a [map_t] is traversed is not specified;
    [map_to_list] is one such order, and nothing below depends on it. *)
Definition write_preprocessing_events (s : Tracker) : outcome Tracker :=
  (* Should've already happened, but in any case. *)
  let* s := finish_preprocessing_stage s in
  for_each write_preprocessing_item (map_to_list (preprocess_start s)) s.

(** ** Pass tracker *)

Definition start_opt_pass (p : option opt_pass) (s : Tracker) : Tracker :=
  let '(now, s) := ns_from_start s in
  let s := set_last_pass
             (mkOptPassEvent (pass (last_pass s))
                (mkTimeSpan (start (ope_ts (last_pass s))) now)) s in
  let s := match pass (last_pass s) with
           | Some _ => set_pass_events (pass_events s ++ [last_pass s]) s
           | None => s
           end in
  let s := set_last_pass (mkOptPassEvent p (ope_ts (last_pass s))) s in
  set_last_pass
    (mkOptPassEvent (pass (last_pass s))
       (mkTimeSpan (now + 1) (end_ (ope_ts (last_pass s))))) s.

Definition pass_event (p : opt_pass) (ts : TimeSpan) : TraceEvent :=
  mkTraceEvent (name p) (pass_type (type p)) ts
    (true, <["static_pass_number" := to_string (static_pass_number p)]> ∅).

Definition write_opt_pass_item (event : OptPassEvent) (s : Tracker)
    : outcome Tracker :=
  match pass event with
  | None => Fault undefined_behaviour         (* event.pass->... on null *)
  | Some p => Ok (add_event (pass_event p (ope_ts event)) s)
  end.

Definition write_opt_pass_events (s : Tracker) : outcome Tracker :=
  for_each write_opt_pass_item (pass_events s) s.

(** ** Function and scope tracker *)

Definition extend_scope (new_end : TimeStamp) (e : ScopeEvent) : ScopeEvent :=
  mkScopeEvent (se_name e) (se_type e) (mkTimeSpan (start (se_ts e)) new_end).

(** [!scope_events.empty() && did_last_function_have_scope &&
    scope_events.back().name == info.scope_name]. *)
Definition same_scope_as_back (scope_name : string) (s : Tracker) : bool :=
  match last (scope_events s) with
  | None => false
  | Some back =>
      did_last_function_have_scope s && String.eqb (se_name back) scope_name
  end.

Definition end_parse_function (info : FinishedFunction) (s : Tracker) : Tracker :=
  let '(now, s) := ns_from_start s in
  (* Because of UI bugs we can't have different events starting and ending
     at the same time - so we adjust some of the events by a few
     nanoseconds. *)
  let ts := mkTimeSpan (last_function_parsed_ts s + 3) now in
  let s := set_last_function_parsed_ts now s in
  let s := set_function_events
             (function_events s ++
                [mkFunctionEvent (ff_name info) (ff_file_name info) ts]) s in
  match ff_scope_name info with
  | Some scope_name =>
      let s := if same_scope_as_back scope_name s
               then set_scope_events
                      (update_back (extend_scope (end_ ts + 1)) (scope_events s)) s
               else set_scope_events
                      (scope_events s ++
                         [mkScopeEvent scope_name (ff_scope_type info)
                            (mkTimeSpan (start ts - 1) (end_ ts + 1))]) s in
      set_did_last_function_have_scope true s
  | None => set_did_last_function_have_scope false s
  end.

Definition scope_trace_event (item : ScopeEvent) : TraceEvent :=
  mkTraceEvent (se_name item) (se_type item) (se_ts item) (false, ∅).

Definition write_all_scopes (s : Tracker) : Tracker :=
  fold_left (fun s item => add_event (scope_trace_event item) s) (scope_events s) s.

Definition function_trace_event (s : Tracker) (item : FunctionEvent) : TraceEvent :=
  mkTraceEvent (fe_name item) FUNCTION (fe_ts item)
    (true, <["file" := normalized_file_name (fe_file_name item) s]> ∅).

Definition write_all_functions (s : Tracker) : Tracker :=
  fold_left (fun s item => add_event (function_trace_event s item) s)
    (function_events s) s.

(** Modelled from the spec: [write_all_events], which [externis.cc] calls
    when the compiler finishes, is defined in a file that is not among
    the sources. Finalization drains the preprocessing stack and then
    runs the emission routines in the order preprocessing, passes,
    scopes, functions. *)
Definition write_all_events (s : Tracker) : outcome Tracker :=
  let* s := finish_preprocessing_stage s in
  let* s := write_preprocessing_events s in
  let* s := write_opt_pass_events s in
  Ok (write_all_functions (write_all_scopes s)).

(** ** The calls of the instrumentation callbacks ([externis.cc]) *)

Inductive call : Type :=
| enter_file (file_name : option string) (pfile : option cpp_reader)
| leave_file
| drain_open_files
| enter_pass (p : option opt_pass)
| finish_function (info : FinishedFunction).

Definition step (c : call) (s : Tracker) : outcome Tracker :=
  match c with
  | enter_file file_name pfile => start_preprocess_file file_name pfile s
  | leave_file => end_preprocess_file s
  | drain_open_files => finish_preprocessing_stage s
  | enter_pass p => Ok (start_opt_pass p s)
  | finish_function info => Ok (end_parse_function info s)
  end.

Definition run (cs : list call) (s : Tracker) : outcome Tracker :=
  for_each step cs s.

End Trackers.

(** * The callbacks of the plugin ([externis.cc]) *)

(** ** What GCC hands to the callbacks *)

(** [TREE_CODE] of the context of a declaration: the codes that
    [cb_finish_parse_function] tells apart, and the others with their
    number. *)
Inductive tree_code : Type :=
| TRANSLATION_UNIT_DECL
| NAMESPACE_DECL
| RECORD_TYPE
| UNION_TYPE
| OTHER_TREE_CODE (code : Z).

(** [DECL_CONTEXT(decl)], when it is not null: its code and what
    [decl_as_string] prints for it. *)
Record context_decl : Type := mk_context_decl {
  context_code : tree_code;
  context_as_string : string
}.

(** The declaration of a function whose parsing is finished: what
    [decl_as_string] prints for it, the file of its location and its
    context. *)
Record function_decl : Type := mk_function_decl {
  decl_as_string : string;
  decl_file : string;
  DECL_CONTEXT : option context_decl
}.

(** [new_map->reason]: entering a file, leaving one, and the other
    reasons of a line map with their number. *)
Inductive lc_reason : Type :=
| LC_ENTER
| LC_LEAVE
| LC_OTHER (code : Z).

Record line_map_ordinary : Type := mk_line_map_ordinary {
  reason : lc_reason;
  ORDINARY_MAP_FILE_NAME : option string
}.

(** The state of the plugin: the trackers of [tracking.cc], the tree
    codes that [cb_finish_parse_function] reported as unknown on the
    error stream, and the file changes handed on to the callback that
    was installed before ([old_file_change_cb]). The two error streams
    are kept apart: nothing below depends on how their lines
    interleave. *)
Record Plugin : Type := mkPlugin {
  tracker : Tracker;
  unknown_tree_codes : list Z;
  old_file_change_cb : list (option cpp_reader * option line_map_ordinary)
}.

Definition initial_plugin : Plugin := mkPlugin initial [] [].

Definition set_tracker (v : Tracker) (p : Plugin) : Plugin :=
  mkPlugin v (unknown_tree_codes p) (old_file_change_cb p).

(** A function of [tracking.cc] called from a callback. *)
Definition tracking (f : Tracker -> outcome Tracker) (p : Plugin) : outcome Plugin :=
  let* t := f (tracker p) in Ok (set_tracker t p).

(** ** The callbacks *)

Definition cb_finish_parse_function (clock : nat -> TimeStamp)
    (decl : function_decl) (p : Plugin) : outcome Plugin :=
  let decl_name := decl_as_string decl in
  let parent_decl := DECL_CONTEXT decl in
  let '(scope_name, scope_type, p) :=
    match parent_decl with
    | Some parent =>
        match context_code parent with
        | TRANSLATION_UNIT_DECL => (None, UNKNOWN, p)
        | NAMESPACE_DECL => (Some (context_as_string parent), NAMESPACE, p)
        | RECORD_TYPE | UNION_TYPE => (Some (context_as_string parent), STRUCT, p)
        | OTHER_TREE_CODE code =>
            (Some (context_as_string parent), UNKNOWN,
             mkPlugin (tracker p) (unknown_tree_codes p ++ [code])
               (old_file_change_cb p))
        end
    | None => (None, UNKNOWN, p)
    end in
  tracking
    (fun t => Ok (end_parse_function clock
                    (mkFinishedFunction decl_name (decl_file decl)
                       scope_name scope_type) t)) p.

(** [write_all_events] is not among the sources; the callback runs its
    model. *)
Definition cb_plugin_finish (clock : nat -> TimeStamp) (p : Plugin) : outcome Plugin :=
  tracking (write_all_events clock) p.

Definition cb_file_change (clock : nat -> TimeStamp) (pfile : option cpp_reader)
    (new_map : option line_map_ordinary) (p : Plugin) : outcome Plugin :=
  let* p :=
    match new_map with
    | Some map =>
        match ORDINARY_MAP_FILE_NAME map with
        | Some file_name =>
            match reason map with
            | LC_ENTER => tracking (start_preprocess_file clock (Some file_name) pfile) p
            | LC_LEAVE => tracking (end_preprocess_file clock) p
            | LC_OTHER _ => Ok p
            end
        | None => Ok p
        end
    | None => Ok p
    end in
  Ok (mkPlugin (tracker p) (unknown_tree_codes p)
        (old_file_change_cb p ++ [(pfile, new_map)])).

(** The part of [cb_start_compilation] that touches the trackers; the
    rest installs [cb_file_change]. *)
Definition cb_start_compilation (clock : nat -> TimeStamp)
    (main_input_filename : option string) (p : Plugin) : outcome Plugin :=
  tracking (start_preprocess_file clock main_input_filename None) p.

Definition cb_pass_execution (clock : nat -> TimeStamp) (pass : option opt_pass)
    (p : Plugin) : outcome Plugin :=
  tracking (fun t => Ok (start_opt_pass clock pass t)) p.

Definition cb_finish_decl (clock : nat -> TimeStamp) (p : Plugin) : outcome Plugin :=
  tracking (finish_preprocessing_stage clock) p.

(** The events that GCC raises, with the data it hands to the callback
    registered for each in [plugin_init]; [CPP_FILE_CHANGE] is the
    callback of the preprocessor that [cb_start_compilation] installs. *)
Inductive plugin_event : Type :=
| PLUGIN_FINISH_PARSE_FUNCTION (decl : function_decl)
| PLUGIN_FINISH
| PLUGIN_PASS_EXECUTION (pass : option opt_pass)
| PLUGIN_START_UNIT (main_input_filename : option string)
| PLUGIN_FINISH_DECL
| CPP_FILE_CHANGE (pfile : option cpp_reader) (new_map : option line_map_ordinary).

Definition callback (clock : nat -> TimeStamp) (e : plugin_event) (p : Plugin)
    : outcome Plugin :=
  match e with
  | PLUGIN_FINISH_PARSE_FUNCTION decl => cb_finish_parse_function clock decl p
  | PLUGIN_FINISH => cb_plugin_finish clock p
  | PLUGIN_PASS_EXECUTION pass => cb_pass_execution clock pass p
  | PLUGIN_START_UNIT main_input_filename =>
      cb_start_compilation clock main_input_filename p
  | PLUGIN_FINISH_DECL => cb_finish_decl clock p
  | CPP_FILE_CHANGE pfile new_map => cb_file_change clock pfile new_map p
  end.

(** The callbacks of a sequence of events, one after the other. *)
Fixpoint callbacks (clock : nat -> TimeStamp) (es : list plugin_event) (p : Plugin)
    : outcome Plugin :=
  match es with
  | [] => Ok p
  | e :: es => let* p := callback clock e p in callbacks clock es p
  end.

(** * Output of the plugin ([setup_output] in [externis.cc]) *)

(** ** Paths and strings of the standard library *)

(** [std::string::rfind]: the position of the last occurrence. *)
Fixpoint rfind (needle str : string) : option nat :=
  match str with
  | EmptyString => if String.prefix needle str then Some 0%nat else None
  | String _ rest =>
      match rfind needle rest with
      | Some idx => Some (S idx)
      | None => if String.prefix needle str then Some 0%nat else None
      end
  end.

(** [std::filesystem::path] in its native format on a POSIX system: a
    path is absolute when it starts with the separator. *)
Definition preferred_separator : string := "/".

Definition is_absolute (p : string) : bool := String.prefix preferred_separator p.

Fixpoint ends_with_separator (p : string) : bool :=
  match p with
  | EmptyString => false
  | String _ EmptyString => String.eqb p preferred_separator
  | String _ rest => ends_with_separator rest
  end.

(** [has_filename]: the path is not empty and does not end with the
    separator. *)
Definition has_filename (p : string) : bool :=
  negb (String.eqb p EmptyString) && negb (ends_with_separator p).

(** [operator/]: an absolute right operand replaces the path; otherwise
    it is appended, after a separator when the path has a file name. *)
Definition path_append (p q : string) : string :=
  if is_absolute q then q
  else (if has_filename p then p +:+ preferred_separator else p) +:+ q.

(** ** What the function is given and what it gives back *)

(** An argument of the plugin; the value is null when the command line
    gives none. *)
Record plugin_argument : Type := mk_plugin_argument {
  key : string;
  value : option string
}.

(** The calls of the C library: [mkstemps] answers the descriptor of
    the file that it created, or -1, and the buffer of the template as it
    leaves it, the placeholder overwritten; [fdopen] and [fopen] answer
    whether they opened a stream. *)
Record filesystem : Type := mk_filesystem {
  mkstemps : string -> nat -> Z * string;
  fdopen : Z -> bool;
  fopen : string -> bool
}.

(** The messages on the error stream. *)
Inductive setup_message : Type :=
| unknown_argument (arg_key : string)
| dir_not_absolute
| dir_with_file
| mkstemps_failed (filename : string).

(** How [setup_output] ends: it returns, with the messages it wrote and
    the file of the stream given to [set_output_file], if any; or its
    assertion fails; or it builds a path from a null pointer. *)
Inductive setup_outcome : Type :=
| returns (result : bool) (cerr : list setup_message) (output_file : option string)
| assertion_fails (cerr : list setup_message)
| null_path.

(** ** The function *)

Definition file_flag_name : string := "trace".
Definition dir_flag_name : string := "trace-dir".
Definition default_filename : string := "trace_XXXXXX.json".

(** How the loop over the arguments ends. *)
Inductive parsed_arguments : Type :=
| parsed (target_file target_dir : option string)
| unknown (arg_key : string)
| null_value.

(** The loop over the arguments. *)
Fixpoint parse_arguments (argv : list plugin_argument)
    (target_file target_dir : option string) : parsed_arguments :=
  match argv with
  | [] => parsed target_file target_dir
  | arg :: argv =>
      let arg_key := key arg in
      if String.eqb arg_key file_flag_name then
        match value arg with
        | Some v => parse_arguments argv (Some v) target_dir
        | None => null_value
        end
      else if String.eqb arg_key dir_flag_name then
        match value arg with
        | Some v => parse_arguments argv target_file (Some v)
        | None => null_value
        end
      else unknown arg_key
  end.

(** The end of the function, from the declaration of [trace_file] on. *)
Definition open_trace_file (fs : filesystem) (target_file : string)
    (cerr : list setup_message) : setup_outcome :=
  let filename := target_file in
  match rfind "XXXXXX" filename with
  | Some replace_idx =>
      let created :=
        mkstemps fs filename (String.length filename - (replace_idx + 6)) in
      let fd := created.1 in
      let filename := created.2 in
      if Z.eqb fd (-1) then returns false (cerr ++ [mkstemps_failed filename]) None
      else if fdopen fs fd then returns true cerr (Some filename)
      else returns false cerr None
  | None =>
      if fopen fs target_file then returns true cerr (Some target_file)
      else returns false cerr None
  end.

Definition setup_output (fs : filesystem) (argv : list plugin_argument)
    : setup_outcome :=
  match parse_arguments argv None None with
  | unknown arg_key => returns false [unknown_argument arg_key] None
  | null_value => null_path
  | parsed target_file target_dir =>
      let cerr :=
        match target_dir with
        | Some dir => if is_absolute dir then [] else [dir_not_absolute]
        | None => []
        end in
      match target_file, target_dir with
      | Some _, Some _ => returns false (cerr ++ [dir_with_file]) None
      | _, _ =>
          let target_file :=
            match target_dir with
            | Some dir => Some (path_append dir default_filename)
            | None => target_file
            end in
          match target_file with
          | None => assertion_fails cerr
          | Some target_file => open_trace_file fs target_file cerr
          end
      end
  end.

(** * Vocabulary of the properties

    Invariants, measures on sequences of calls and readings of the
    claims, then the concrete inputs at which the theorems are applied. *)

(** ** Path normalizer *)

(** Everything registered in [s] is registered the same way in [s'], and
    the sets of display names and of conflicted names have only grown. *)
Definition normalizer_extends (s s' : Tracker) : Prop :=
  (forall f, is_Some (file_to_include_directory s !! f) ->
             is_Some (file_to_include_directory s' !! f) /\
             normalized_files_map s' !! f = normalized_files_map s !! f) /\
  normalized_files s ⊆ normalized_files s' /\
  conflicted_files s ⊆ conflicted_files s'.

(** A registration that goes through the prefix check: [file] is new,
    starts with [dir], and what follows the separator is [n]. *)
Definition computes_display_name (file dir n : string) (s : Tracker) : Prop :=
  file_to_include_directory s !! file = None /\
  starts_with file dir = true /\
  substr file (String.length dir + 1) = Ok n.

(** The four variables of the normalizer. *)
Definition normalizer (s : Tracker) :=
  (file_to_include_directory s, normalized_files_map s,
   normalized_files s, conflicted_files s).

(** ** Preprocessing stack *)

(** Every frame of the stack has a start; every end has a start; a file
    that has a start and no end yet is on the stack. *)
Record stack_inv (s : Tracker) : Prop := mk_stack_inv {
  stack_started : forall f, f ∈ preprocessing_stack s ->
                            is_Some (preprocess_start s !! f);
  ended_started : forall f, is_Some (preprocess_end s !! f) ->
                            is_Some (preprocess_start s !! f);
  open_on_stack : forall f, is_Some (preprocess_start s !! f) ->
                            preprocess_end s !! f = None ->
                            f ∈ preprocessing_stack s
}.

(** The variables of the preprocessing stack tracker. *)
Definition preprocessing (s : Tracker) :=
  (preprocess_start s, preprocess_end s, preprocessing_stack s).

(** Timestamps once recorded stay as they are. *)
Definition records_kept (s s' : Tracker) : Prop :=
  (forall f t, preprocess_start s !! f = Some t -> preprocess_start s' !! f = Some t) /\
  (forall f t, preprocess_end s !! f = Some t -> preprocess_end s' !! f = Some t).

(** What [start_preprocess_file] pushes for [file] in [s]. *)
Definition pushed_identity (file : string) (s : Tracker) : string :=
  if count (preprocess_start s) file && negb (count (preprocess_end s) file)
  then CIRCULAR_POISON_VALUE else file.

(** ** Well-nested sequences of calls *)

(** Whether [start_preprocess_file] pushes a frame for this name. *)
Definition pushes (file_name : option string) : bool :=
  match file_name with
  | Some file => negb (String.eqb file "<command-line>")
  | None => false
  end.

(** Every [leave_file] finds a frame that an earlier entry pushed and
    that was neither left nor drained since; [depth] is the depth of the
    stack before the calls. *)
Fixpoint well_nested_from (depth : nat) (cs : list call) : bool :=
  match cs with
  | [] => true
  | enter_file file_name _ :: cs =>
      well_nested_from (if pushes file_name then S depth else depth) cs
  | leave_file :: cs =>
      match depth with
      | O => false
      | S depth => well_nested_from depth cs
      end
  | drain_open_files :: cs => well_nested_from 0 cs
  | enter_pass _ :: cs | finish_function _ :: cs => well_nested_from depth cs
  end.

(** Well-nested from the empty stack of the initial tracker. *)
Definition well_nested (cs : list call) : bool := well_nested_from 0 cs.

(** The file system never resolves a file and the directory it was
    included from to the same path. *)
Definition sane_reader (pfile : option cpp_reader) : bool :=
  match pfile with
  | Some r =>
      match real_dir_name r, real_file_name r with
      | Some real_dir, Some real_file => negb (String.eqb real_file real_dir)
      | _, _ => true
      end
  | None => true
  end.

(** The same, for the reader of a call. *)
Definition sane_call (c : call) : bool :=
  match c with
  | enter_file _ pfile => sane_reader pfile
  | _ => true
  end.

(** ** Frames *)

(** Assignments to the variables of the normalizer and to the error
    stream, all at once. *)
Definition with_normalizer (a b : gmap string string) (c d : gset string)
    (e : list diagnostic) (s : Tracker) : Tracker :=
  set_stderr e (set_conflicted_files d (set_normalized_files c
    (set_normalized_files_map b (set_file_to_include_directory a s)))).

(** The tracker after the first half of [start_preprocess_file], up to
    the push. *)
Definition entered (clock : nat -> TimeStamp) (file : string) (s : Tracker)
    : Tracker :=
  let pushed := pushed_identity file s in
  let s1 := set_ticks (S (ticks s)) s in
  let s2 := if count (preprocess_start s) pushed then s1
            else set_preprocess_start
                   (<[pushed := clock (ticks s)]> (preprocess_start s)) s1 in
  set_preprocessing_stack (pushed :: preprocessing_stack s) s2.

(** Equalities of trackers up to the variables that [with_normalizer]
    sets: unfold the assignments and compare field by field. *)
Ltac frame_by_fields :=
  cbv beta iota delta
    [with_normalizer warn set_stderr set_conflicted_files set_normalized_files
     set_normalized_files_map set_file_to_include_directory
     ticks preprocess_start preprocess_end preprocessing_stack
     last_function_parsed_ts last_pass pass_events file_to_include_directory
     normalized_files_map normalized_files conflicted_files scope_events
     function_events did_last_function_have_scope events stderr];
  reflexivity.

(** ** Preprocessing events *)

Global Instance EventCategory_eq_dec : EqDecision EventCategory.
Proof. solve_decision. Defined.

(** The records behind the PREPROCESS events: every file with a start
    and an end, the sentinel left out. *)
Definition preprocess_record (s : Tracker) (item : string * Z)
    : option (string * (Z * Z)) :=
  if String.eqb item.1 CIRCULAR_POISON_VALUE then None
  else (fun end_ts => (item.1, (item.2, end_ts))) <$> preprocess_end s !! item.1.

(** A file, its start and its end. *)
Definition preprocess_records (s : Tracker) : list (string * (Z * Z)) :=
  omap (preprocess_record s) (map_to_list (preprocess_start s)).

(** The event that [write_preprocessing_events] builds from a record. *)
Definition record_event (s : Tracker) (r : string * (Z * Z)) : TraceEvent :=
  preprocess_event s r.1 r.2.1 r.2.2.

(** The invariant of [TimeSpan], on an event of the trace. *)
Definition span_ordered (e : TraceEvent) : Prop :=
  start (te_ts e) <= end_ (te_ts e).

(** The clock never goes back. *)
Definition monotone (clock : nat -> TimeStamp) : Prop :=
  forall n, clock n <= clock (S n).

(** [t] is not later than any reading still to come. *)
Definition past (clock : nat -> TimeStamp) (s : Tracker) (t : TimeStamp) : Prop :=
  forall n, (ticks s <= n)%nat -> t <= clock n.

(** Every recorded start is past, and no later than the end recorded for
    the same file. *)
Record preprocess_timing (clock : nat -> TimeStamp) (s : Tracker) : Prop :=
  mk_preprocess_timing {
    start_past : forall f t0, preprocess_start s !! f = Some t0 -> past clock s t0;
    start_le_end : forall f t0 t1,
      preprocess_start s !! f = Some t0 -> preprocess_end s !! f = Some t1 -> t0 <= t1
  }.

(** The file name of an [enter_file] call, when there is one. *)
Definition entered_name (c : call) : option string :=
  match c with
  | enter_file (Some file) _ => Some file
  | _ => None
  end.

(** The file names given to [enter_file] in a sequence of calls. *)
Definition files_entered (cs : list call) : gset string :=
  list_to_set (omap entered_name cs).

(** The PREPROCESS events of the trace buffer. *)
Definition preprocess_events (s : Tracker) : list TraceEvent :=
  filter (fun e => te_category e = PREPROCESS) (events s).

(** C4 as it is stated, for one clock and one sequence of calls: the
    PREPROCESS events are as many as the file names entered, the sentinel
    value apart. *)
Definition counts_every_entered_file (clock : nat -> TimeStamp)
    (cs : list call) : Prop :=
  well_nested cs = true ->
  forall s s',
    run clock cs initial = Ok s ->
    write_preprocessing_events clock s = Ok s' ->
    length (preprocess_events s') = size (files_entered cs ∖ {[CIRCULAR_POISON_VALUE]}) /\
    Forall span_ordered (preprocess_events s').

(** C5 as it is stated, for one tracker and one file: entering a file
    that is on the stack pushes the sentinel. *)
Definition substitutes_sentinel (clock : nat -> TimeStamp) (s : Tracker)
    (file : string) (pfile : option cpp_reader) : Prop :=
  file ∈ preprocessing_stack s ->
  exists s', start_preprocess_file clock (Some file) pfile s = Ok s' /\
             preprocessing_stack s' = CIRCULAR_POISON_VALUE :: preprocessing_stack s.

(** C9 as it is stated, for one outcome: the process is stopped at once,
    which in this code only an exception that nothing catches does. *)
Definition fails_fast {A : Type} (o : outcome A) : Prop :=
  o = Fault out_of_range.

(** ** Passes, functions and scopes *)

(** Every pass on the pending list is a real pass. *)
Definition closed_passes_named (s : Tracker) : Prop :=
  Forall (fun e => is_Some (pass e)) (pass_events s).

(** The event of a pending pass, as [write_opt_pass_events] builds it. *)
Definition emitted_for (e : OptPassEvent) (t : TraceEvent) : Prop :=
  exists p, pass e = Some p /\ t = pass_event p (ope_ts e).

(** The span that [end_parse_function] gives the function finished in
    [s]: from three nanoseconds after the cursor to the current reading. *)
Definition parsed_span (clock : nat -> TimeStamp) (s : Tracker) : TimeSpan :=
  mkTimeSpan (last_function_parsed_ts s + 3) (clock (ticks s)).

(** The scope event that a function opens when it does not join the
    accumulator. *)
Definition opened_scope (scope_name : string) (scope_type : EventCategory)
    (ts : TimeSpan) : ScopeEvent :=
  mkScopeEvent scope_name scope_type (mkTimeSpan (start ts - 1) (end_ ts + 1)).

(** Whether a call is a [finish_function]. *)
Definition is_finish_function (c : call) : bool :=
  match c with finish_function _ => true | _ => false end.

(** The variables of the function and scope tracker, the cursor apart. *)
Definition scopes (s : Tracker) :=
  (scope_events s, function_events s, did_last_function_have_scope s).




(** The clock moves by at least [gap] between two readings. *)
Definition advances (gap : Z) (clock : nat -> TimeStamp) : Prop :=
  forall n, clock n + gap <= clock (S n).


(** What the function, scope and pass trackers need from the clock: the
    cursor is at least three nanoseconds old at the next reading, every
    recorded span is ordered, and the starts of the open scope and of the
    open pass are past. *)
Record epsilon_timing (clock : nat -> TimeStamp) (s : Tracker) : Prop :=
  mk_epsilon_timing {
    cursor_past : past clock s (last_function_parsed_ts s + 3);
    functions_ordered :
      Forall (fun e => start (fe_ts e) <= end_ (fe_ts e)) (function_events s);
    scopes_ordered :
      Forall (fun e => start (se_ts e) <= end_ (se_ts e) /\
                       past clock s (start (se_ts e))) (scope_events s);
    last_pass_past : past clock s (start (ope_ts (last_pass s)));
    passes_ordered :
      Forall (fun e => start (ope_ts e) <= end_ (ope_ts e)) (pass_events s)
  }.

(** The variables [epsilon_timing] speaks of, the cursor apart. *)
Definition epsilons (s : Tracker) :=
  (function_events s, scope_events s, last_pass s, pass_events s).

(** C3 as it is stated, for one clock and one sequence of calls: every
    event of the trace is ordered. *)
Definition every_span_ordered (clock : nat -> TimeStamp) (cs : list call) : Prop :=
  forall s s', run clock cs initial = Ok s -> write_all_events clock s = Ok s' ->
    Forall span_ordered (events s').

(** ** Concrete inputs *)

(** A clock that starts at 3 and moves by 6 at each reading. *)
Definition demo_clock (n : nat) : TimeStamp := 3 + 6 * Z.of_nat n.

(** The tracker of a successful outcome. *)
Definition result (o : outcome Tracker) : Tracker :=
  match o with Ok s => s | Fault _ => initial end.

Definition demo_reader : cpp_reader :=
  mk_cpp_reader "/usr/include" (Some "/usr/include") (Some "/usr/include/b.h").

Definition demo_f : FinishedFunction :=
  mkFinishedFunction "Foo::f()" "a.c" (Some "Foo") STRUCT.
Definition demo_g : FinishedFunction :=
  mkFinishedFunction "Foo::g()" "a.c" (Some "Foo") STRUCT.
Definition demo_h : FinishedFunction :=
  mkFinishedFunction "Bar::h()" "a.c" (Some "Bar") NAMESPACE.

Definition demo_P0 : opt_pass := mk_opt_pass "cfg" OPT_GIMPLE_PASS 12.
Definition demo_P1 : opt_pass := mk_opt_pass "ssa" OPT_GIMPLE_PASS 20.
Definition demo_P2 : opt_pass := mk_opt_pass "expand" OPT_RTL_PASS 250.

(** The two files of the specification, [/a/sub/x.h] under [/a] and
    [/b/sub/x.h] under [/b], with calls between and after. *)
Definition x_s1 : Tracker :=
  result (register_include_location "/a/sub/x.h" "/a" initial).
Definition x_s2 : Tracker := result (run demo_clock [enter_pass None] x_s1).
Definition x_s3 : Tracker :=
  result (register_include_location "/b/sub/x.h" "/b" x_s2).
Definition x_s4 : Tracker :=
  result (run demo_clock [finish_function demo_f; enter_file (Some "c.h") None] x_s3).

(** A well-nested sequence with an ignored entry and a circular include. *)
Definition nested_calls : list call :=
  [enter_file (Some "a.c") None; enter_file (Some "b.h") (Some demo_reader);
   enter_file (Some "<command-line>") None; leave_file;
   enter_file (Some "a.c") None; leave_file; finish_function demo_f;
   enter_pass (Some demo_P0); leave_file; enter_pass (Some demo_P1)].

(** [a.c] is open. *)
Definition circular_s : Tracker :=
  result (run demo_clock [enter_file (Some "a.c") None] initial).

(** [a.h] included at the readings 0 and 1, then again at 2 and 3. *)
Definition included_once : Tracker :=
  result (run demo_clock [enter_file (Some "a.h") None; leave_file] initial).
Definition included_twice : Tracker :=
  result (run demo_clock [enter_file (Some "a.h") None; leave_file] included_once).

(** The pass [cfg] is open. *)
Definition one_pass_open : Tracker :=
  result (run demo_clock [enter_pass (Some demo_P0)] initial).

(** Two functions of [Foo], a pass entered between them. *)
Definition after_f : Tracker :=
  result (run demo_clock [enter_pass None] (end_parse_function demo_clock demo_f initial)).
Definition after_g : Tracker :=
  result (run demo_clock [] (end_parse_function demo_clock demo_g after_f)).

(** * Vocabulary of the further properties *)

(** ** Callbacks of the plugin *)

(** The [FinishedFunction] that [cb_finish_parse_function] builds. *)
Definition finished_function (decl : function_decl) : FinishedFunction :=
  match DECL_CONTEXT decl with
  | Some (mk_context_decl NAMESPACE_DECL n) =>
      mkFinishedFunction (decl_as_string decl) (decl_file decl) (Some n) NAMESPACE
  | Some (mk_context_decl (RECORD_TYPE | UNION_TYPE) n) =>
      mkFinishedFunction (decl_as_string decl) (decl_file decl) (Some n) STRUCT
  | Some (mk_context_decl (OTHER_TREE_CODE _) n) =>
      mkFinishedFunction (decl_as_string decl) (decl_file decl) (Some n) UNKNOWN
  | Some (mk_context_decl TRANSLATION_UNIT_DECL _) | None =>
      mkFinishedFunction (decl_as_string decl) (decl_file decl) None UNKNOWN
  end.

(** The calls of the trackers that an event stands for; [PLUGIN_FINISH]
    is the finalization, which is none of the calls. *)
Definition calls_of (e : plugin_event) : list call :=
  match e with
  | PLUGIN_FINISH_PARSE_FUNCTION decl => [finish_function (finished_function decl)]
  | PLUGIN_FINISH => []
  | PLUGIN_PASS_EXECUTION pass => [enter_pass pass]
  | PLUGIN_START_UNIT main_input_filename => [enter_file main_input_filename None]
  | PLUGIN_FINISH_DECL => [drain_open_files]
  | CPP_FILE_CHANGE pfile (Some (mk_line_map_ordinary LC_ENTER (Some file_name))) =>
      [enter_file (Some file_name) pfile]
  | CPP_FILE_CHANGE pfile (Some (mk_line_map_ordinary LC_LEAVE (Some _))) =>
      [leave_file]
  | CPP_FILE_CHANGE _ _ => []
  end.

(** Whether an event is the finalization. *)
Definition is_finish (e : plugin_event) : bool :=
  match e with PLUGIN_FINISH => true | _ => false end.

(** The tree code that [cb_finish_parse_function] reports for an event,
    if it reports one. *)
Definition reported_tree_code (e : plugin_event) : option Z :=
  match e with
  | PLUGIN_FINISH_PARSE_FUNCTION decl =>
      match DECL_CONTEXT decl with
      | Some (mk_context_decl (OTHER_TREE_CODE code) _) => Some code
      | _ => None
      end
  | _ => None
  end.

(** The file change that an event hands on to the callback installed
    before, if it is a file change. *)
Definition file_change (e : plugin_event)
    : option (option cpp_reader * option line_map_ordinary) :=
  match e with
  | CPP_FILE_CHANGE pfile new_map => Some (pfile, new_map)
  | _ => None
  end.

(** The categories that a scope event can have. *)
Definition scope_category (c : EventCategory) : bool :=
  match c with NAMESPACE | STRUCT | UNKNOWN => true | _ => false end.

(** The tracker of an outcome of the plugin. *)
Definition tracker_of (o : outcome Plugin) : outcome Tracker :=
  let* p := o in Ok (tracker p).

(** What an event does to the trackers: the finalization, or the calls
    that it stands for. *)
Definition tracker_step (clock : nat -> TimeStamp) (e : plugin_event) (t : Tracker)
    : outcome Tracker :=
  if is_finish e then write_all_events clock t else run clock (calls_of e) t.

(** A file change that [cb_file_change] only hands on. *)
Definition ignored (e : plugin_event) : bool :=
  match e with
  | CPP_FILE_CHANGE _ (Some (mk_line_map_ordinary (LC_ENTER | LC_LEAVE) (Some _))) =>
      false
  | CPP_FILE_CHANGE _ _ => true
  | _ => false
  end.

(** ** Output of the plugin *)

(** An argument that the loop accepts: one of the two flags, with a
    value. *)
Definition accepted (arg : plugin_argument) : bool :=
  (String.eqb (key arg) file_flag_name || String.eqb (key arg) dir_flag_name) &&
  match value arg with Some _ => true | None => false end.

(** The value of a flag in an argument, if the argument is that flag. *)
Definition value_of (flag : string) (arg : plugin_argument) : option string :=
  if String.eqb (key arg) flag then value arg else None.

(** The value that the command line gives last for a flag. *)
Definition last_value (flag : string) (argv : list plugin_argument) : option string :=
  last (omap (value_of flag) argv).

(** ** Path normalizer *)

(** What the normalizer keeps true: every display name in the map is in
    the set of display names, a display name shared by two files is
    conflicted, only registered files have a display name, and only
    display names are conflicted. *)
Record normalizer_inv (s : Tracker) : Prop := mk_normalizer_inv {
  named_in_set : forall f n, normalized_files_map s !! f = Some n ->
                             n ∈ normalized_files s;
  shared_conflicted : forall f1 f2 n, f1 <> f2 ->
                        normalized_files_map s !! f1 = Some n ->
                        normalized_files_map s !! f2 = Some n ->
                        n ∈ conflicted_files s;
  named_registered : forall f, is_Some (normalized_files_map s !! f) ->
                               is_Some (file_to_include_directory s !! f);
  conflicted_named : conflicted_files s ⊆ normalized_files s
}.

(** The real paths that the readers of a sequence of calls resolve files
    to, with their directory resolved as well. *)
Definition resolved_file (c : call) : option string :=
  match c with
  | enter_file _ (Some r) =>
      match real_dir_name r with
      | Some _ => real_file_name r
      | None => None
      end
  | _ => None
  end.

Definition resolved_files (cs : list call) : gset string :=
  list_to_set (omap resolved_file cs).

(** ** Pass tracker *)

(** The pass given to an [enter_pass] call. *)
Definition entered_pass (c : call) : option (option opt_pass) :=
  match c with
  | enter_pass p => Some p
  | _ => None
  end.

(** The passes given to [enter_pass] in a sequence of calls, null ones
    included. *)
Definition passes_entered (cs : list call) : list (option opt_pass) :=
  omap entered_pass cs.

(** The passes that the tracker holds: the pending ones, then the open
    one, null ones left out. *)
Definition passes_held (s : Tracker) : list opt_pass :=
  omap pass (pass_events s ++ [last_pass s]).

(** The spans of the pending passes follow each other, and the span of
    the open pass follows the last of them; [gap a b] relates the end of
    a span with the start of the next. *)
Record pass_chain (gap : TimeStamp -> TimeStamp -> Prop) (s : Tracker) : Prop :=
  mk_pass_chain {
    pending_chain : forall i a b,
      pass_events s !! i = Some a -> pass_events s !! S i = Some b ->
      gap (end_ (ope_ts a)) (start (ope_ts b));
    open_chain : forall a,
      last (pass_events s) = Some a ->
      gap (end_ (ope_ts a)) (start (ope_ts (last_pass s)))
  }.

(** The next span starts exactly one nanosecond after the end. *)
Definition one_later (end_ts start_ts : TimeStamp) : Prop := start_ts = end_ts + 1.

(** The next span starts at least one nanosecond after the end. *)
Definition later (end_ts start_ts : TimeStamp) : Prop := end_ts + 1 <= start_ts.

(** What [pass_chain later] needs besides: the end of the last pending
    span is past. *)
Definition last_pending_past (clock : nat -> TimeStamp) (s : Tracker) : Prop :=
  forall a, last (pass_events s) = Some a -> past clock s (end_ (ope_ts a)).

(** ** Function and scope tracker *)

(** The function given to a [finish_function] call. *)
Definition finished (c : call) : option FinishedFunction :=
  match c with
  | finish_function info => Some info
  | _ => None
  end.

(** The functions given to [finish_function] in a sequence of calls. *)
Definition functions_finished (cs : list call) : list FinishedFunction :=
  omap finished cs.

(** On a clock that never goes back: function spans are at least three
    nanoseconds apart and scope spans at least one; the last function
    ended at or before the cursor, the last scope at most one nanosecond
    after it, and both ends are past. *)
Record spans_apart (clock : nat -> TimeStamp) (s : Tracker) : Prop :=
  mk_spans_apart {
    functions_apart : forall i a b,
      function_events s !! i = Some a -> function_events s !! S i = Some b ->
      end_ (fe_ts a) + 3 <= start (fe_ts b);
    last_function_behind : forall a,
      last (function_events s) = Some a ->
      end_ (fe_ts a) <= last_function_parsed_ts s /\ past clock s (end_ (fe_ts a));
    scopes_apart : forall i a b,
      scope_events s !! i = Some a -> scope_events s !! S i = Some b ->
      end_ (se_ts a) + 1 <= start (se_ts b);
    last_scope_behind : forall a,
      last (scope_events s) = Some a ->
      end_ (se_ts a) <= last_function_parsed_ts s + 1 /\
      past clock s (end_ (se_ts a) - 1)
  }.

(** ** Nesting of the preprocessing records *)

(** Two intervals that do not cross: one is over before the other
    starts, or one lies within the other. *)
Definition nested_or_apart (a b : Z * Z) : Prop :=
  a.2 <= b.1 \/ b.2 <= a.1 \/ (a.1 <= b.1 /\ b.2 <= a.2) \/ (b.1 <= a.1 /\ a.2 <= b.2).

(** What keeps the records from crossing, on the variables of the
    preprocessing stack tracker and the number of the next reading; the
    sentinel is left out throughout. Recorded ends are past; two closed
    files do not cross; a closed file is over before an open one started,
    or started after it; of two open files, the one deeper on the stack
    started first. *)
Record nesting_of (clock : nat -> TimeStamp) (tick : nat)
    (starts ends : gmap string Z) (stack : list string) : Prop := mk_nesting_of {
  ends_past : forall f t, ends !! f = Some t -> forall n, (tick <= n)%nat -> t <= clock n;
  closed_nested : forall f g a0 a1 b0 b1,
    f <> g -> f <> CIRCULAR_POISON_VALUE -> g <> CIRCULAR_POISON_VALUE ->
    starts !! f = Some a0 -> ends !! f = Some a1 ->
    starts !! g = Some b0 -> ends !! g = Some b1 ->
    nested_or_apart (a0, a1) (b0, b1);
  open_around : forall f g a0 b0 b1,
    f <> CIRCULAR_POISON_VALUE -> g <> CIRCULAR_POISON_VALUE ->
    starts !! f = Some a0 -> ends !! f = None ->
    starts !! g = Some b0 -> ends !! g = Some b1 ->
    b1 <= a0 \/ a0 <= b0;
  open_ordered : forall i j f g a0 b0,
    (i < j)%nat -> stack !! i = Some f -> stack !! j = Some g ->
    f <> CIRCULAR_POISON_VALUE -> g <> CIRCULAR_POISON_VALUE ->
    starts !! f = Some a0 -> ends !! f = None ->
    starts !! g = Some b0 -> ends !! g = None ->
    b0 <= a0
}.

(** The same, on a tracker. *)
Definition nesting (clock : nat -> TimeStamp) (s : Tracker) : Prop :=
  nesting_of clock (ticks s) (preprocess_start s) (preprocess_end s)
    (preprocessing_stack s).

(** ** The trace *)

(** The name of the function of a [PLUGIN_FINISH_PARSE_FUNCTION] event. *)
Definition parsed_name (e : plugin_event) : option string :=
  match e with
  | PLUGIN_FINISH_PARSE_FUNCTION decl => Some (decl_as_string decl)
  | _ => None
  end.

(** The FUNCTION events of a trace. *)
Definition function_trace_events (t : Tracker) : list TraceEvent :=
  filter (fun e => te_category e = FUNCTION) (events t).

(** ** More concrete inputs *)

(** Two files called [x.h], one below [/a] and one below [/b]. *)
Definition reader_a : cpp_reader := mk_cpp_reader "/a" (Some "/a") (Some "/a/x.h").
Definition reader_b : cpp_reader := mk_cpp_reader "/b" (Some "/b") (Some "/b/x.h").

Definition same_name_calls : list call :=
  [enter_file (Some "x.h") (Some reader_a); leave_file;
   enter_file (Some "sub/x.h") (Some reader_b)].

Definition same_name_s : Tracker := result (run demo_clock same_name_calls initial).

(** The tracker after [nested_calls]. *)
Definition nested_s : Tracker := result (run demo_clock nested_calls initial).

(** A function without a scope, finished after [demo_f]. *)
Definition demo_u : FinishedFunction := mkFinishedFunction "main()" "a.c" None UNKNOWN.
Definition after_u : Tracker :=
  result (run demo_clock [] (end_parse_function demo_clock demo_u after_f)).

(** A member function of a struct and a function local to another
    function, as GCC hands them to [cb_finish_parse_function]; 32 stands
    for the tree code of the enclosing function. *)
Definition demo_member : function_decl :=
  mk_function_decl "Foo::f()" "a.c" (Some (mk_context_decl RECORD_TYPE "Foo")).
Definition demo_local : function_decl :=
  mk_function_decl "main()::<lambda()>" "a.c"
    (Some (mk_context_decl (OTHER_TREE_CODE 32) "main()")).

(** A translation unit: the main file, an include, two file changes
    that are only handed on, the end of the include, the end of
    preprocessing, two functions and a pass. *)
Definition demo_events : list plugin_event :=
  [PLUGIN_START_UNIT (Some "a.c");
   CPP_FILE_CHANGE (Some demo_reader) (Some (mk_line_map_ordinary LC_ENTER (Some "b.h")));
   CPP_FILE_CHANGE None None;
   CPP_FILE_CHANGE (Some demo_reader)
     (Some (mk_line_map_ordinary (LC_OTHER 2) (Some "b.h")));
   CPP_FILE_CHANGE None (Some (mk_line_map_ordinary LC_LEAVE (Some "a.c")));
   PLUGIN_FINISH_DECL;
   PLUGIN_FINISH_PARSE_FUNCTION demo_member;
   PLUGIN_FINISH_PARSE_FUNCTION demo_local;
   PLUGIN_PASS_EXECUTION (Some demo_P0)].

(** The plugin of a successful outcome. *)
Definition plugin_result (o : outcome Plugin) : Plugin :=
  match o with Ok p => p | Fault _ => initial_plugin end.

Definition demo_plugin : Plugin :=
  plugin_result (callbacks demo_clock demo_events initial_plugin).

(** A file system on which every call succeeds, and one on which
    [mkstemps] fails; both leave a name of six characters in the buffer. *)
Definition demo_fs : filesystem :=
  mk_filesystem (fun _ _ => (3, "build/trace_b3PIrl.json")) (fun _ => true)
    (fun _ => true).
Definition failing_fs : filesystem :=
  mk_filesystem (fun _ _ => (-1, "build/trace_b3PIrl.json")) (fun _ => true)
    (fun _ => true).

Definition trace_argument : plugin_argument :=
  mk_plugin_argument "trace" (Some "out.json").
Definition absolute_dir_argument : plugin_argument :=
  mk_plugin_argument "trace-dir" (Some "/tmp").
Definition relative_dir_argument : plugin_argument :=
  mk_plugin_argument "trace-dir" (Some "build").
Definition verbose_argument : plugin_argument := mk_plugin_argument "verbose" None.

(** ** The 64-bit range *)

Definition INT64_MIN : Z := -9223372036854775808.
Definition INT64_MAX : Z := 9223372036854775807.

(** A timestamp that a 64-bit integer holds. *)
Definition fits (t : TimeStamp) : Prop := INT64_MIN <= t <= INT64_MAX.

Definition span_fits (ts : TimeSpan) : Prop := fits (start ts) /\ fits (end_ ts).

(** Goals about the range, once the readings in play are named. *)
Ltac range :=
  unfold span_fits, fits, INT64_MIN, INT64_MAX in *; simpl in *; lia.

(** The first [n] readings of the clock are 64-bit integers that leave
    room for the epsilons: the code adds at most six nanoseconds to a
    reading (three when a file is left, three more when the next function
    is finished), so that no sum or difference that it computes wraps
    around. *)
Definition in_range (clock : nat -> TimeStamp) (n : nat) : Prop :=
  forall k, (k < n)%nat -> INT64_MIN <= clock k /\ clock k + 6 <= INT64_MAX.

(** Every timestamp of the trackers is a 64-bit integer, and the cursor
    leaves room for the three nanoseconds of the next function. *)
Record no_overflow (s : Tracker) : Prop := mk_no_overflow {
  cursor_fits : INT64_MIN <= last_function_parsed_ts s /\
                last_function_parsed_ts s + 3 <= INT64_MAX;
  functions_fit : Forall (fun e => span_fits (fe_ts e)) (function_events s);
  scopes_fit : Forall (fun e => span_fits (se_ts e)) (scope_events s);
  last_pass_fits : span_fits (ope_ts (last_pass s));
  passes_fit : Forall (fun e => span_fits (ope_ts e)) (pass_events s);
  starts_fit : forall f t, preprocess_start s !! f = Some t -> fits t;
  ends_fit : forall f t, preprocess_end s !! f = Some t -> fits t
}.

(** The clock moves by at least [gap] from each of its first [n]
    readings to the next of them. *)
Definition advances_within (gap : Z) (clock : nat -> TimeStamp) (n : nat) : Prop :=
  forall k, (S k < n)%nat -> clock k + gap <= clock (S k).

(** The clock that answers as [clock] does at its first [n] readings and
    moves by [gap] at each reading after them. *)
Definition continued (gap : Z) (clock : nat -> TimeStamp) (n : nat)
    : nat -> TimeStamp :=
  fun k => if (k <? n)%nat then clock k
           else clock (pred n) + gap * Z.of_nat (S k - n).

(** Three functions in two scopes, with calls of the other trackers
    between them, and three passes. *)
Definition three_functions : list call :=
  [finish_function demo_f; enter_pass (Some demo_P0); finish_function demo_g;
   enter_file (Some "a.h") None; leave_file; finish_function demo_h;
   enter_pass (Some demo_P1); enter_pass (Some demo_P2)].

Definition three_functions_s : Tracker :=
  result (run demo_clock three_functions initial).

(** * Properties *)

(** ** Generic facts about outcomes and sequences of calls *)

Lemma bind_ok {A B : Type} (o : outcome A) (k : A -> outcome B) (b : B) :
  bind o k = Ok b -> exists a, o = Ok a /\ k a = Ok b.
Proof. destruct o as [a|f]; simpl; [eauto | discriminate]. Qed.

(** An invariant kept by the body of a loop is kept by the loop. *)
Lemma for_each_invariant {A : Type} (P : Tracker -> Prop)
    (body : A -> Tracker -> outcome Tracker) (l : list A) :
  (forall x s s', P s -> body x s = Ok s' -> P s') ->
  forall s s', P s -> for_each body l s = Ok s' -> P s'.
Proof.
  intros Hbody; induction l as [|x l IH]; intros s s' HP Hrun; simpl in Hrun.
  - by inversion Hrun; subst.
  - apply bind_ok in Hrun as (s1 & H1 & H2). eauto.
Qed.

Lemma run_invariant (clock : nat -> TimeStamp) (P : Tracker -> Prop) :
  (forall c s s', P s -> step clock c s = Ok s' -> P s') ->
  forall cs s s', P s -> run clock cs s = Ok s' -> P s'.
Proof. intros H cs. by apply for_each_invariant. Qed.

(** ** The path normalizer only grows *)

Lemma normalizer_extends_refl (s s' : Tracker) :
  file_to_include_directory s' = file_to_include_directory s ->
  normalized_files_map s' = normalized_files_map s ->
  normalized_files s' = normalized_files s ->
  conflicted_files s' = conflicted_files s ->
  normalizer_extends s s'.
Proof.
  intros H1 H2 H3 H4; unfold normalizer_extends.
  rewrite H1, H2, H3, H4. by repeat split.
Qed.

Lemma normalizer_extends_trans (s1 s2 s3 : Tracker) :
  normalizer_extends s1 s2 -> normalizer_extends s2 s3 -> normalizer_extends s1 s3.
Proof.
  intros (Ha & Hb & Hc) (Ha' & Hb' & Hc'); repeat split.
  - apply Ha', Ha, H.
  - destruct (Ha f H) as [Hs Heq]. destruct (Ha' f Hs) as [_ Heq'].
    by rewrite Heq', Heq.
  - by transitivity (normalized_files s2).
  - by transitivity (conflicted_files s2).
Qed.

Lemma register_include_location_extends (file dir : string) (s s' : Tracker) :
  register_include_location file dir s = Ok s' -> normalizer_extends s s'.
Proof.
  unfold register_include_location, count.
  destruct (file_to_include_directory s !! file) as [d|] eqn:Hreg.
  { intros [= <-]. by apply normalizer_extends_refl. }
  cbn [set_file_to_include_directory file_to_include_directory].
  rewrite lookup_total_insert_eq.
  assert (Hother : forall f, is_Some (file_to_include_directory s !! f) -> f <> file).
  { intros f [x Hx] ->. congruence. }
  destruct (starts_with file dir).
  - destruct (substr file (String.length dir + 1)) as [n|]; simpl; [|discriminate].
    unfold count_set; case_bool_decide; intros [= <-]; simpl;
      (split; [|set_solver]); intros f Hf; pose proof (Hother f Hf); simpl;
      rewrite !lookup_insert_ne by done; done.
  - intros [= <-]. split; [|done].
    intros f Hf; pose proof (Hother f Hf); simpl.
    rewrite !lookup_insert_ne by done; done.
Qed.

(** What a registration that computes [n] leaves behind. *)
Lemma register_include_location_computes (file dir n : string) (s s' : Tracker) :
  computes_display_name file dir n s ->
  register_include_location file dir s = Ok s' ->
  is_Some (file_to_include_directory s' !! file) /\
  normalized_files_map s' !! file = Some n /\
  n ∈ normalized_files s' /\
  (n ∈ normalized_files s -> n ∈ conflicted_files s').
Proof.
  intros (Hnew & Hpre & Hsub).
  unfold register_include_location, count. rewrite Hnew.
  cbn [set_file_to_include_directory file_to_include_directory].
  rewrite lookup_total_insert_eq, Hpre, Hsub; simpl.
  unfold count_set; case_bool_decide; intros [= <-]; simpl;
    rewrite !lookup_insert_eq; (split; [eauto|]); split; try done; set_solver.
Qed.

Lemma normalizer_extends_same (s s' : Tracker) :
  normalizer s' = normalizer s -> normalizer_extends s s'.
Proof. intros [= H1 H2 H3 H4]. by apply normalizer_extends_refl. Qed.

Lemma normalized_file_name_same (file : string) (s s' : Tracker) :
  normalizer s' = normalizer s ->
  normalized_file_name file s' = normalized_file_name file s.
Proof. intros [= H1 H2 H3 H4]. unfold normalized_file_name. by rewrite H2, H4. Qed.

Section Frames.
Variable clock : nat -> TimeStamp.

Lemma end_preprocess_file_normalizer (s s' : Tracker) :
  end_preprocess_file clock s = Ok s' -> normalizer s' = normalizer s.
Proof.
  unfold end_preprocess_file; simpl.
  destruct (preprocessing_stack s) as [|top below]; [discriminate|].
  destruct (count (preprocess_end s) top); by intros [= <-].
Qed.

Lemma finish_preprocessing_loop_normalizer (fuel : nat) (s s' : Tracker) :
  finish_preprocessing_loop clock fuel s = Ok s' -> normalizer s' = normalizer s.
Proof.
  revert s; induction fuel as [|fuel IH]; intros s; simpl;
    destruct (preprocessing_stack s) eqn:Hstack; try (by intros [= <-]);
    try discriminate.
  intros H. apply bind_ok in H as (s1 & H1 & H2).
  apply end_preprocess_file_normalizer in H1.
  apply IH in H2. by rewrite H2.
Qed.

Lemma start_opt_pass_normalizer (p : option opt_pass) (s : Tracker) :
  normalizer (start_opt_pass clock p s) = normalizer s.
Proof. unfold start_opt_pass; simpl. by destruct (pass (last_pass s)). Qed.

Lemma end_parse_function_normalizer (info : FinishedFunction) (s : Tracker) :
  normalizer (end_parse_function clock info s) = normalizer s.
Proof.
  unfold end_parse_function; simpl.
  destruct (ff_scope_name info); [|done].
  by destruct (same_scope_as_back _ _).
Qed.

Lemma start_preprocess_file_extends (file_name : option string)
    (pfile : option cpp_reader) (s s' : Tracker) :
  start_preprocess_file clock file_name pfile s = Ok s' -> normalizer_extends s s'.
Proof.
  unfold start_preprocess_file; simpl.
  destruct file_name as [file|]; [|by intros [= <-]; apply normalizer_extends_same].
  destruct (String.eqb file "<command-line>");
    [by intros [= <-]; apply normalizer_extends_same|].
  set (circular := count (preprocess_start s) file && negb (count (preprocess_end s) file)).
  set (pushed := if circular then CIRCULAR_POISON_VALUE else file).
  set (s1 := set_preprocessing_stack _ _).
  assert (Hs1 : normalizer s1 = normalizer s).
  { subst s1. by destruct (count (preprocess_start s) pushed). }
  destruct (if circular then None else pfile) as [r|];
    [|by intros [= <-]; apply normalizer_extends_same].
  destruct (real_dir_name r) as [d|], (real_file_name r) as [f|];
    try (destruct (String.eqb (dir_name r) "");
         by intros [= <-]; apply normalizer_extends_same).
  intros H%register_include_location_extends.
  eapply normalizer_extends_trans; [|exact H].
  by apply normalizer_extends_same.
Qed.

Lemma step_normalizer_extends (c : call) (s s' : Tracker) :
  step clock c s = Ok s' -> normalizer_extends s s'.
Proof.
  destruct c as [file_name pfile| | |p|info]; simpl.
  - apply start_preprocess_file_extends.
  - intros H. by apply normalizer_extends_same, end_preprocess_file_normalizer.
  - intros H. by eapply normalizer_extends_same, finish_preprocessing_loop_normalizer.
  - intros [= <-]. apply normalizer_extends_same, start_opt_pass_normalizer.
  - intros [= <-]. apply normalizer_extends_same, end_parse_function_normalizer.
Qed.

Lemma run_normalizer_extends (cs : list call) (s s' : Tracker) :
  run clock cs s = Ok s' -> normalizer_extends s s'.
Proof.
  intros H.
  apply (run_invariant clock (normalizer_extends s)) with (cs := cs) (s := s); auto.
  - intros c s1 s2 H1 H2. eapply normalizer_extends_trans; [exact H1|].
    by eapply step_normalizer_extends.
  - by apply normalizer_extends_same.
Qed.

End Frames.

(** ** Path normalizer: conflicts are permanent *)

(** C1. Two registrations of different files that compute the same
    display name [n] leave [n] conflicted for good: whatever calls come
    between them ([mid]) and after them ([post]), [normalized_file_name]
    answers each of the two paths itself, the first-registered one
    included. That the two paths differ follows from both registrations
    taking effect. *)
Theorem conflicting_display_names_fall_back (clock : nat -> TimeStamp)
    (s0 s1 s2 s3 s4 : Tracker) (f1 d1 f2 d2 n : string) (mid post : list call) :
  computes_display_name f1 d1 n s0 ->
  register_include_location f1 d1 s0 = Ok s1 ->
  run clock mid s1 = Ok s2 ->
  computes_display_name f2 d2 n s2 ->
  register_include_location f2 d2 s2 = Ok s3 ->
  run clock post s3 = Ok s4 ->
  f1 <> f2 /\
  n ∈ conflicted_files s4 /\
  normalized_file_name f1 s4 = f1 /\
  normalized_file_name f2 s4 = f2.
Proof.
  intros Hc1 Hr1 Hmid Hc2 Hr2 Hpost.
  destruct (register_include_location_computes _ _ _ _ _ Hc1 Hr1)
    as (Hreg1 & Hmap1 & Hin1 & _).
  apply run_normalizer_extends in Hmid as (Hmid & Hmid_nf & _).
  destruct (Hmid f1 Hreg1) as [Hreg1' Hmap1'].
  destruct (register_include_location_computes _ _ _ _ _ Hc2 Hr2)
    as (Hreg2 & Hmap2 & _ & Hconf).
  apply register_include_location_extends in Hr2 as (Hr2 & _).
  destruct (Hr2 f1 Hreg1') as [Hreg1'' Hmap1''].
  apply run_normalizer_extends in Hpost as (Hpost & _ & Hpost_cf).
  destruct (Hpost f1 Hreg1'') as [_ Hmap1'''].
  destruct (Hpost f2 Hreg2) as [_ Hmap2'].
  assert (Hn : n ∈ conflicted_files s4) by (apply Hpost_cf, Hconf, Hmid_nf, Hin1).
  assert (Hf1 : normalized_files_map s4 !! f1 = Some n) by congruence.
  assert (Hf2 : normalized_files_map s4 !! f2 = Some n) by congruence.
  split; [|split; [exact Hn|]].
  - intros ->. destruct Hc2 as [Hnew _]. rewrite Hnew in Hreg1'. by destruct Hreg1'.
  - unfold normalized_file_name, count, count_set.
    rewrite !(lookup_total_correct _ _ _ Hf1), !(lookup_total_correct _ _ _ Hf2), Hf1, Hf2.
    by rewrite !bool_decide_eq_true_2.
Qed.

(** ** Preprocessing stack: structural invariants *)

Lemma stack_inv_initial : stack_inv initial.
Proof.
  split; simpl.
  - intros f Hf. by apply elem_of_nil in Hf.
  - intros f [t Ht]. by rewrite lookup_empty in Ht.
  - intros f [t Ht]. by rewrite lookup_empty in Ht.
Qed.

Lemma stack_inv_same (s s' : Tracker) :
  preprocessing s' = preprocessing s -> stack_inv s -> stack_inv s'.
Proof.
  intros [= H1 H2 H3] [Ha Hb Hc]. split; rewrite ?H1, ?H2, ?H3; auto.
Qed.

Lemma records_kept_same (s s' : Tracker) :
  preprocessing s' = preprocessing s -> records_kept s s'.
Proof. intros [= H1 H2 H3]. split; intros f t; by rewrite ?H1, ?H2. Qed.

Lemma records_kept_trans (s1 s2 s3 : Tracker) :
  records_kept s1 s2 -> records_kept s2 s3 -> records_kept s1 s3.
Proof. intros [Ha Hb] [Ha' Hb']. split; eauto. Qed.

Lemma register_include_location_preprocessing (file dir : string) (s s' : Tracker) :
  register_include_location file dir s = Ok s' ->
  preprocessing s' = preprocessing s /\ ticks s' = ticks s.
Proof.
  unfold register_include_location.
  destruct (count _ _); [by intros [= <-]|].
  destruct (starts_with _ _); [|by intros [= <-]].
  destruct (substr _ _); simpl; [|discriminate].
  destruct (count_set _ _); by intros [= <-].
Qed.

Section Stack.
Variable clock : nat -> TimeStamp.

(** The effect of an entry that is not ignored on the variables of the
    preprocessing tracker. *)
Lemma start_preprocess_file_preprocessing (file : string)
    (pfile : option cpp_reader) (s s' : Tracker) :
  String.eqb file "<command-line>" = false ->
  start_preprocess_file clock (Some file) pfile s = Ok s' ->
  let pushed := pushed_identity file s in
  ticks s' = S (ticks s) /\
  preprocess_start s' =
    (if count (preprocess_start s) pushed then preprocess_start s
     else <[pushed := clock (ticks s)]> (preprocess_start s)) /\
  preprocess_end s' = preprocess_end s /\
  preprocessing_stack s' = pushed :: preprocessing_stack s.
Proof.
  intros Hcmd. unfold start_preprocess_file, pushed_identity; simpl. rewrite Hcmd.
  set (circular := count (preprocess_start s) file && negb (count (preprocess_end s) file)).
  set (pushed := if circular then CIRCULAR_POISON_VALUE else file).
  set (s1 := set_preprocessing_stack _ _).
  assert (Hs1 : ticks s1 = S (ticks s) /\
                preprocess_start s1 =
                  (if count (preprocess_start s) pushed then preprocess_start s
                   else <[pushed := clock (ticks s)]> (preprocess_start s)) /\
                preprocess_end s1 = preprocess_end s /\
                preprocessing_stack s1 = pushed :: preprocessing_stack s).
  { subst s1. by destruct (count (preprocess_start s) pushed). }
  clearbody s1.
  destruct (if circular then None else pfile) as [r|]; [|by intros [= <-]].
  destruct (real_dir_name r) as [d|], (real_file_name r) as [f|];
    try (destruct (String.eqb (dir_name r) ""); by intros [= <-]).
  intros ([= H1 H2 H3] & H4)%register_include_location_preprocessing.
  by rewrite H1, H2, H3, H4.
Qed.

Lemma end_preprocess_file_preprocessing (s s' : Tracker) :
  end_preprocess_file clock s = Ok s' ->
  exists top below,
    preprocessing_stack s = top :: below /\
    ticks s' = S (ticks s) /\
    preprocess_start s' = preprocess_start s /\
    preprocess_end s' =
      (if count (preprocess_end s) top then preprocess_end s
       else <[top := clock (ticks s)]> (preprocess_end s)) /\
    preprocessing_stack s' = below /\
    last_function_parsed_ts s' = clock (ticks s) + 3.
Proof.
  unfold end_preprocess_file; simpl.
  destruct (preprocessing_stack s) as [|top below]; [discriminate|].
  intros [= <-]. exists top, below.
  by destruct (count (preprocess_end s) top).
Qed.

Lemma count_true {V : Type} (m : gmap string V) (k : string) :
  count m k = true <-> is_Some (m !! k).
Proof.
  unfold count. by destruct (m !! k) as [v|].
Qed.

Lemma count_false {V : Type} (m : gmap string V) (k : string) :
  count m k = false <-> m !! k = None.
Proof. unfold count. by destruct (m !! k). Qed.

Lemma start_preprocess_file_stack_inv (file_name : option string)
    (pfile : option cpp_reader) (s s' : Tracker) :
  start_preprocess_file clock file_name pfile s = Ok s' ->
  stack_inv s -> stack_inv s' /\ records_kept s s'.
Proof.
  intros Hrun Hinv.
  destruct file_name as [file|];
    [|injection Hrun as <-; split; [by apply (stack_inv_same s) | by apply records_kept_same]].
  destruct (String.eqb file "<command-line>") eqn:Hcmd.
  { unfold start_preprocess_file in Hrun; simpl in Hrun; rewrite Hcmd in Hrun.
    injection Hrun as <-; split; [by apply (stack_inv_same s) | by apply records_kept_same]. }
  destruct (start_preprocess_file_preprocessing _ _ _ _ Hcmd Hrun)
    as (_ & Hstart & Hend & Hstack).
  set (pushed := pushed_identity file s) in *.
  destruct Hinv as [Ha Hb Hc].
  assert (Hsub : forall f t, preprocess_start s !! f = Some t ->
                             preprocess_start s' !! f = Some t).
  { intros f t Hf. rewrite Hstart.
    destruct (count (preprocess_start s) pushed) eqn:Hcount; [done|].
    apply count_false in Hcount.
    rewrite lookup_insert_ne; [done | congruence]. }
  assert (Hpushed : is_Some (preprocess_start s' !! pushed)).
  { rewrite Hstart.
    destruct (count (preprocess_start s) pushed) eqn:Hcount.
    - by apply count_true.
    - rewrite lookup_insert_eq; eauto. }
  split; [split|split].
  - intros f. rewrite Hstack. intros [->|Hf]%elem_of_cons; [done|].
    destruct (Ha f Hf) as [t Ht]. eauto.
  - intros f. rewrite Hend. intros Hf.
    destruct (Hb f Hf) as [t Ht]. eauto.
  - intros f Hf. rewrite Hend, Hstack. intros Hopen.
    destruct (decide (f = pushed)) as [->|Hne]; [by left|].
    right. apply Hc; [|done].
    revert Hf. rewrite Hstart.
    destruct (count (preprocess_start s) pushed); [done|].
    by rewrite lookup_insert_ne.
  - exact Hsub.
  - intros f t. by rewrite Hend.
Qed.

Lemma end_preprocess_file_stack_inv (s s' : Tracker) :
  end_preprocess_file clock s = Ok s' ->
  stack_inv s -> stack_inv s' /\ records_kept s s'.
Proof.
  intros (top & below & Hs & _ & Hstart & Hend & Hstack & _)%end_preprocess_file_preprocessing
         [Ha Hb Hc].
  assert (Hsub : forall f t, preprocess_end s !! f = Some t ->
                             preprocess_end s' !! f = Some t).
  { intros f t Hf. rewrite Hend.
    destruct (count (preprocess_end s) top) eqn:Hcount; [done|].
    apply count_false in Hcount.
    rewrite lookup_insert_ne; [done | congruence]. }
  assert (Htop : is_Some (preprocess_end s' !! top)).
  { rewrite Hend.
    destruct (count (preprocess_end s) top) eqn:Hcount.
    - by apply count_true.
    - rewrite lookup_insert_eq; eauto. }
  split; [split|split].
  - intros f. rewrite Hstack, Hstart. intros Hf. apply Ha. rewrite Hs. by right.
  - intros f. rewrite Hstart, Hend.
    destruct (count (preprocess_end s) top); [apply Hb|].
    destruct (decide (f = top)) as [->|Hne].
    + intros _. apply Ha. rewrite Hs. by left.
    + rewrite lookup_insert_ne by done. apply Hb.
  - intros f. rewrite Hstart, Hstack. intros Hf Hopen.
    assert (Hopen' : preprocess_end s !! f = None).
    { destruct (preprocess_end s !! f) as [t|] eqn:Ht; [|done].
      apply Hsub in Ht. congruence. }
    specialize (Hc f Hf Hopen'). rewrite Hs in Hc.
    apply elem_of_cons in Hc as [->|Hc]; [|done].
    rewrite Hopen in Htop. by destruct Htop.
  - intros f t. by rewrite Hstart.
  - exact Hsub.
Qed.

End Stack.

(** ** Well-nested sequences of calls never fail *)

Lemma prefix_same_length (p s : string) :
  String.prefix p s = true -> (String.length s <= String.length p)%nat -> p = s.
Proof.
  revert s; induction p as [|a p IH]; intros [|b s]; simpl; try done.
  - intros _ H. lia.
  - destruct (Ascii.ascii_dec a b) as [->|]; [|done].
    intros Hp Hlen. f_equal. apply IH; [done | lia].
Qed.

Lemma substr_after_prefix (file dir : string) :
  starts_with file dir = true -> file <> dir ->
  exists n, substr file (String.length dir + 1) = Ok n.
Proof.
  unfold starts_with, substr.
  intros [Hlen Hpre]%andb_prop Hne. apply Nat.leb_le in Hlen.
  destruct (String.length dir + 1 <=? String.length file)%nat eqn:Hle; [eauto|].
  apply Nat.leb_gt in Hle. exfalso. apply Hne. symmetry.
  apply prefix_same_length; [done | lia].
Qed.

Lemma register_include_location_total (file dir : string) (s : Tracker) :
  file <> dir -> exists s', register_include_location file dir s = Ok s'.
Proof.
  intros Hne. unfold register_include_location.
  destruct (count _ _); [eauto|].
  cbn [set_file_to_include_directory file_to_include_directory].
  rewrite lookup_total_insert_eq.
  destruct (starts_with file dir) eqn:Hpre; [|eauto].
  destruct (substr_after_prefix _ _ Hpre Hne) as [n ->]; simpl.
  destruct (count_set _ _); eauto.
Qed.

Section Totality.
Variable clock : nat -> TimeStamp.

Lemma start_preprocess_file_total (file_name : option string)
    (pfile : option cpp_reader) (s : Tracker) :
  sane_reader pfile = true ->
  exists s', start_preprocess_file clock file_name pfile s = Ok s' /\
             length (preprocessing_stack s') =
               if pushes file_name then S (length (preprocessing_stack s))
               else length (preprocessing_stack s).
Proof.
  intros Hsane.
  destruct file_name as [file|]; [|by eexists].
  destruct (String.eqb file "<command-line>") eqn:Hcmd.
  { unfold start_preprocess_file; simpl. rewrite Hcmd. by eexists. }
  assert (Hok : exists s', start_preprocess_file clock (Some file) pfile s = Ok s').
  { unfold start_preprocess_file; simpl. rewrite Hcmd.
    destruct (if _ && _ then None else pfile) as [r|] eqn:Hr; [|eauto].
    assert (pfile = Some r) as -> by (by destruct (_ && _)).
    simpl in Hsane.
    destruct (real_dir_name r) as [d|], (real_file_name r) as [f|];
      try (destruct (String.eqb (dir_name r) ""); by eauto).
    apply register_include_location_total.
    intros ->. by rewrite String.eqb_refl in Hsane. }
  destruct Hok as [s' Hs']. exists s'. split; [done|].
  destruct (start_preprocess_file_preprocessing _ _ _ _ _ Hcmd Hs') as (_ & _ & _ & ->).
  simpl. by rewrite Hcmd.
Qed.

(** The loop of [finish_preprocessing_stage] ends within its bound, with
    an empty stack, whatever the stack holds. *)
Lemma finish_preprocessing_loop_total (fuel : nat) (s : Tracker) :
  (length (preprocessing_stack s) <= fuel)%nat ->
  exists s', finish_preprocessing_loop clock fuel s = Ok s' /\
             preprocessing_stack s' = [].
Proof.
  revert s; induction fuel as [|fuel IH]; intros s Hlen; simpl;
    destruct (preprocessing_stack s) as [|top below] eqn:Hstack; eauto.
  { simpl in Hlen. lia. }
  unfold end_preprocess_file; simpl. rewrite Hstack; simpl.
  apply IH. destruct (count (preprocess_end s) top); simpl in *; lia.
Qed.

Lemma finish_preprocessing_stage_spec (s : Tracker) :
  exists s', finish_preprocessing_stage clock s = Ok s' /\
             preprocessing_stack s' = [].
Proof. by apply finish_preprocessing_loop_total. Qed.

Lemma finish_preprocessing_loop_stack_inv (fuel : nat) (s s' : Tracker) :
  finish_preprocessing_loop clock fuel s = Ok s' ->
  stack_inv s -> stack_inv s' /\ records_kept s s'.
Proof.
  revert s; induction fuel as [|fuel IH]; intros s; simpl;
    destruct (preprocessing_stack s) eqn:Hstack;
    try (intros [= <-] Hinv; split; [done | by apply records_kept_same]);
    try discriminate.
  intros H Hinv. apply bind_ok in H as (s1 & H1 & H2).
  destruct (end_preprocess_file_stack_inv _ _ _ H1 Hinv) as [Hinv1 Hkept1].
  apply IH in H2 as [Hinv2 Hkept2].
  - split; [done|]. eapply records_kept_trans; [exact Hkept1|].
    eapply records_kept_trans; [|exact Hkept2]. by apply records_kept_same.
  - by apply (stack_inv_same s1).
Qed.

Lemma step_stack_inv (c : call) (s s' : Tracker) :
  step clock c s = Ok s' -> stack_inv s -> stack_inv s' /\ records_kept s s'.
Proof.
  destruct c as [file_name pfile| | |p|info]; simpl.
  - apply start_preprocess_file_stack_inv.
  - apply end_preprocess_file_stack_inv.
  - apply finish_preprocessing_loop_stack_inv.
  - intros [= <-] Hinv.
    assert (preprocessing (start_opt_pass clock p s) = preprocessing s)
      by (unfold start_opt_pass; simpl; by destruct (pass (last_pass s))).
    split; [by apply (stack_inv_same s) | by apply records_kept_same].
  - intros [= <-] Hinv.
    assert (preprocessing (end_parse_function clock info s) = preprocessing s).
    { unfold end_parse_function; simpl.
      destruct (ff_scope_name info); [|done]. by destruct (same_scope_as_back _ _). }
    split; [by apply (stack_inv_same s) | by apply records_kept_same].
Qed.

Lemma run_stack_inv (cs : list call) (s s' : Tracker) :
  run clock cs s = Ok s' -> stack_inv s -> stack_inv s' /\ records_kept s s'.
Proof.
  intros Hrun Hinv.
  apply (run_invariant clock (fun x => stack_inv x /\ records_kept s x))
    with (cs := cs) (s := s); auto.
  - intros c s1 s2 [H1 H2] Hstep.
    destruct (step_stack_inv _ _ _ Hstep H1) as [H3 H4].
    split; [done | by eapply records_kept_trans].
  - split; [done | by apply records_kept_same].
Qed.

Lemma step_total (c : call) (depth : nat) (cs : list call) (s : Tracker) :
  well_nested_from depth (c :: cs) = true ->
  sane_call c = true ->
  depth = length (preprocessing_stack s) ->
  exists s', step clock c s = Ok s' /\
             well_nested_from (length (preprocessing_stack s')) cs = true.
Proof.
  intros Hwn Hsane ->.
  destruct c as [file_name pfile| | |p|info]; simpl in *.
  - destruct (start_preprocess_file_total file_name pfile s Hsane) as (s' & Hs' & Hlen).
    exists s'. split; [done|]. by rewrite Hlen.
  - unfold end_preprocess_file; simpl.
    destruct (preprocessing_stack s) as [|top below]; [done|].
    eexists; split; [done|]. by destruct (count (preprocess_end s) top).
  - destruct (finish_preprocessing_stage_spec s) as (s' & Hs' & Hempty).
    exists s'. split; [done|]. by rewrite Hempty.
  - eexists; split; [done|].
    unfold start_opt_pass; simpl. by destruct (pass (last_pass s)).
  - eexists; split; [done|].
    unfold end_parse_function; simpl.
    destruct (ff_scope_name info); [|done]. by destruct (same_scope_as_back _ _).
Qed.

(** A well-nested sequence of calls runs to the end. *)
Lemma run_total (cs : list call) (s : Tracker) :
  well_nested_from (length (preprocessing_stack s)) cs = true ->
  forallb sane_call cs = true ->
  exists s', run clock cs s = Ok s'.
Proof.
  revert s; induction cs as [|c cs IH]; intros s Hwn Hsane; [by eexists|].
  simpl in Hsane. apply andb_prop in Hsane as [Hc Hcs].
  destruct (step_total c _ cs s Hwn Hc eq_refl) as (s1 & Hs1 & Hwn1).
  destruct (IH s1 Hwn1 Hcs) as [s' Hs'].
  exists s'. unfold run in *; simpl. by rewrite Hs1.
Qed.

End Totality.

(** ** What an entry changes outside the normalizer *)

Lemma with_normalizer_id (s : Tracker) :
  s = with_normalizer (file_to_include_directory s) (normalized_files_map s)
        (normalized_files s) (conflicted_files s) (stderr s) s.
Proof. destruct s. frame_by_fields. Qed.

Lemma register_include_location_frame (file dir : string) (s s' : Tracker) :
  register_include_location file dir s = Ok s' ->
  exists a b c d e, s' = with_normalizer a b c d e s.
Proof.
  unfold register_include_location.
  destruct (count _ _); [intros [= <-]; do 5 eexists; apply with_normalizer_id|].
  destruct (starts_with _ _);
    [|intros [= <-]; destruct s; do 5 eexists; frame_by_fields].
  destruct (substr _ _); simpl; [|discriminate].
  destruct (count_set _ _); intros [= <-]; destruct s; do 5 eexists; frame_by_fields.
Qed.

Lemma start_preprocess_file_frame (clock : nat -> TimeStamp) (file : string)
    (pfile : option cpp_reader) (s s' : Tracker) :
  String.eqb file "<command-line>" = false ->
  start_preprocess_file clock (Some file) pfile s = Ok s' ->
  exists a b c d e, s' = with_normalizer a b c d e (entered clock file s).
Proof.
  intros Hcmd. unfold start_preprocess_file, entered, pushed_identity; simpl.
  rewrite Hcmd.
  set (circular := count (preprocess_start s) file && negb (count (preprocess_end s) file)).
  set (pushed := if circular then CIRCULAR_POISON_VALUE else file).
  set (s1 := set_preprocessing_stack _ _).
  set (s2 := set_preprocessing_stack _ _).
  assert (Hs : s1 = s2) by (subst s1 s2; by destruct (count (preprocess_start s) pushed)).
  rewrite Hs. clearbody s2. clear s1 Hs.
  destruct (if circular then None else pfile) as [r|];
    [|intros [= <-]; do 5 eexists; apply with_normalizer_id].
  destruct (real_dir_name r) as [d|], (real_file_name r) as [f|];
    try (destruct (String.eqb (dir_name r) ""); intros [= <-];
         solve [do 5 eexists; apply with_normalizer_id
               | destruct s2; do 5 eexists; frame_by_fields]).
  apply register_include_location_frame.
Qed.

(** ** What [write_preprocessing_events] emits *)

Lemma elem_of_preprocess_records (s : Tracker) (f : string) (t0 t1 : Z) :
  (f, (t0, t1)) ∈ preprocess_records s <->
  preprocess_start s !! f = Some t0 /\ preprocess_end s !! f = Some t1 /\
  f <> CIRCULAR_POISON_VALUE.
Proof.
  unfold preprocess_records. rewrite list_elem_of_omap. split.
  - intros ([g t] & Hin & Hrec). apply elem_of_map_to_list in Hin.
    unfold preprocess_record in Hrec; simpl in Hrec.
    destruct (String.eqb_spec g CIRCULAR_POISON_VALUE) as [|Hne]; [done|].
    destruct (preprocess_end s !! g) as [t'|] eqn:Hend; [|done].
    simpl in Hrec. injection Hrec as -> -> ->. done.
  - intros (H0 & H1 & Hne). exists (f, t0). split; [by apply elem_of_map_to_list|].
    unfold preprocess_record; simpl.
    destruct (String.eqb_spec f CIRCULAR_POISON_VALUE) as [|_]; [done|].
    by rewrite H1.
Qed.

Lemma omap_keys_NoDup {A B : Type} (g : string * A -> option (string * B))
    (l : list (string * A)) :
  (forall x y, g x = Some y -> y.1 = x.1) ->
  NoDup l.*1 -> NoDup (omap g l).*1.
Proof.
  intros Hg. induction l as [|x l IH]; simpl; [done|].
  intros [Hx Hl]%NoDup_cons. specialize (IH Hl).
  destruct (g x) as [y|] eqn:Hy; simpl; [|done].
  apply NoDup_cons. split; [|done].
  rewrite (Hg _ _ Hy). intros Hin. apply Hx.
  apply list_elem_of_fmap in Hin as ([k b] & -> & Hin).
  apply list_elem_of_omap in Hin as (z & Hz & Hgz).
  apply Hg in Hgz. simpl in Hgz. subst k.
  apply list_elem_of_fmap. by exists z.
Qed.

(** At most one record per file. *)
Lemma preprocess_records_NoDup (s : Tracker) : NoDup (preprocess_records s).*1.
Proof.
  apply omap_keys_NoDup; [|apply NoDup_fst_map_to_list].
  intros [f t] y. unfold preprocess_record; simpl.
  destruct (String.eqb f CIRCULAR_POISON_VALUE); [done|].
  destruct (preprocess_end s !! f); simpl; [|done]. by intros [= <-].
Qed.

(** When every started file has ended, the records are the started files
    other than the sentinel. *)
Lemma preprocess_records_length (s : Tracker) :
  (forall f, is_Some (preprocess_start s !! f) -> is_Some (preprocess_end s !! f)) ->
  length (preprocess_records s) =
    size (dom (preprocess_start s) ∖ {[CIRCULAR_POISON_VALUE]}).
Proof.
  intros Hall.
  rewrite <- (length_fmap fst).
  rewrite <- (size_list_to_set (C := gset string)) by apply preprocess_records_NoDup.
  f_equal. apply set_eq. intros f.
  rewrite elem_of_list_to_set, elem_of_difference, elem_of_dom, not_elem_of_singleton.
  rewrite list_elem_of_fmap. split.
  - intros ([g [t0 t1]] & -> & Hin).
    apply elem_of_preprocess_records in Hin as (H0 & _ & Hne).
    simpl. split; [by exists t0 | done].
  - intros [[t0 H0] Hne]. destruct (Hall f) as [t1 H1]; [eauto|].
    exists (f, (t0, t1)). split; [done|]. by apply elem_of_preprocess_records.
Qed.

Lemma write_preprocessing_items_spec (l : list (string * Z)) (s : Tracker)
    (ev : list TraceEvent) :
  (forall item, item ∈ l -> is_Some (preprocess_end s !! item.1)) ->
  for_each write_preprocessing_item l (set_events ev s) =
    Ok (set_events (ev ++ map (record_event s) (omap (preprocess_record s) l)) s).
Proof.
  revert ev; induction l as [|[f t0] l IH]; intros ev Hall; simpl.
  { by rewrite app_nil_r. }
  unfold write_preprocessing_item at 1, preprocess_record at 1; simpl.
  destruct (String.eqb f CIRCULAR_POISON_VALUE).
  { simpl. apply IH. intros item Hin. apply Hall. by right. }
  destruct (Hall (f, t0)) as [t1 H1]; [by left|]. simpl in H1.
  unfold at_. rewrite H1. simpl.
  change (add_event _ _) with
    (set_events (ev ++ [preprocess_event s f t0 t1]) s).
  rewrite IH by (intros item Hin; apply Hall; by right).
  by rewrite <- app_assoc.
Qed.

Lemma set_events_id (s : Tracker) : set_events (events s) s = s.
Proof. by destruct s. Qed.

Section Emission.
Variable clock : nat -> TimeStamp.

Lemma end_preprocess_file_events (s s' : Tracker) :
  end_preprocess_file clock s = Ok s' -> events s' = events s.
Proof.
  unfold end_preprocess_file; simpl.
  destruct (preprocessing_stack s) as [|top below]; [discriminate|].
  destruct (count (preprocess_end s) top); by intros [= <-].
Qed.

Lemma finish_preprocessing_loop_events (fuel : nat) (s s' : Tracker) :
  finish_preprocessing_loop clock fuel s = Ok s' -> events s' = events s.
Proof.
  revert s; induction fuel as [|fuel IH]; intros s; simpl;
    destruct (preprocessing_stack s) eqn:Hstack; try (by intros [= <-]);
    try discriminate.
  intros H. apply bind_ok in H as (s1 & H1 & H2).
  apply end_preprocess_file_events in H1. apply IH in H2. by rewrite H2.
Qed.

Lemma step_events (c : call) (s s' : Tracker) :
  step clock c s = Ok s' -> events s' = events s.
Proof.
  destruct c as [file_name pfile| | |p|info]; simpl.
  - destruct file_name as [file|]; [|by intros [= <-]].
    destruct (String.eqb file "<command-line>") eqn:Hcmd.
    { unfold start_preprocess_file; simpl. rewrite Hcmd. by intros [= <-]. }
    intros (a & b & c & d & e & ->)%start_preprocess_file_frame; [|done].
    unfold entered; simpl. by destruct (count _ _).
  - apply end_preprocess_file_events.
  - apply finish_preprocessing_loop_events.
  - intros [= <-]. unfold start_opt_pass; simpl. by destruct (pass (last_pass s)).
  - intros [= <-]. unfold end_parse_function; simpl.
    destruct (ff_scope_name info); [|done]. by destruct (same_scope_as_back _ _).
Qed.

(** No call before finalization touches the trace buffer. *)
Lemma run_events (cs : list call) (s s' : Tracker) :
  run clock cs s = Ok s' -> events s' = events s.
Proof.
  intros H.
  apply (run_invariant clock (fun x => events x = events s)) with (cs := cs) (s := s); auto.
  intros c s1 s2 H1 H2. apply step_events in H2. congruence.
Qed.

(** [write_preprocessing_events] never fails on a tracker that satisfies
    the stack invariant: it drains the stack and appends one event per
    record. *)
Lemma write_preprocessing_events_spec (s : Tracker) :
  stack_inv s ->
  exists s1,
    finish_preprocessing_stage clock s = Ok s1 /\
    preprocessing_stack s1 = [] /\
    stack_inv s1 /\ records_kept s s1 /\
    write_preprocessing_events clock s =
      Ok (set_events (events s ++ map (record_event s1) (preprocess_records s1)) s1).
Proof.
  intros Hinv.
  destruct (finish_preprocessing_stage_spec clock s) as (s1 & Hs1 & Hempty).
  destruct (finish_preprocessing_loop_stack_inv _ _ _ _ Hs1 Hinv) as [Hinv1 Hkept].
  exists s1. split_and!; try done.
  unfold write_preprocessing_events. rewrite Hs1; simpl.
  rewrite <- (finish_preprocessing_loop_events _ _ _ Hs1).
  rewrite <- (set_events_id s1) at 2.
  apply write_preprocessing_items_spec.
  intros [f t0] Hin%elem_of_map_to_list; simpl.
  destruct (preprocess_end s1 !! f) as [t1|] eqn:Hend; [eauto|].
  pose proof (open_on_stack _ Hinv1 f (ltac:(eauto)) Hend) as Hf.
  rewrite Hempty in Hf. by apply elem_of_nil in Hf.
Qed.

End Emission.

(** ** Preprocessing intervals under a monotonic clock *)

Lemma monotone_le (clock : nat -> TimeStamp) (n m : nat) :
  monotone clock -> (n <= m)%nat -> clock n <= clock m.
Proof.
  intros Hmono Hle. induction Hle as [|m Hle IH]; [lia|].
  specialize (Hmono m). lia.
Qed.

Lemma past_later (clock : nat -> TimeStamp) (s s' : Tracker) (t : TimeStamp) :
  (ticks s <= ticks s')%nat -> past clock s t -> past clock s' t.
Proof. intros Hle Hp n Hn. apply Hp. lia. Qed.

Lemma past_reading (clock : nat -> TimeStamp) (s s' : Tracker) :
  monotone clock -> (ticks s <= ticks s')%nat -> past clock s' (clock (ticks s)).
Proof. intros Hmono Hle n Hn. apply monotone_le; [done | lia]. Qed.

Lemma preprocess_timing_initial (clock : nat -> TimeStamp) :
  preprocess_timing clock initial.
Proof. split; simpl; intros f t0; by rewrite lookup_empty. Qed.

Lemma preprocess_timing_same (clock : nat -> TimeStamp) (s s' : Tracker) :
  preprocessing s' = preprocessing s -> (ticks s <= ticks s')%nat ->
  preprocess_timing clock s -> preprocess_timing clock s'.
Proof.
  intros [= H1 H2 H3] Hle [Ha Hb]. split; rewrite ?H1, ?H2; [|done].
  intros f t0 Hf. eapply past_later; eauto.
Qed.

Section PreprocessTiming.
Variable clock : nat -> TimeStamp.
Hypothesis clock_monotone : monotone clock.

Lemma start_preprocess_file_timing (file_name : option string)
    (pfile : option cpp_reader) (s s' : Tracker) :
  start_preprocess_file clock file_name pfile s = Ok s' ->
  stack_inv s -> preprocess_timing clock s -> preprocess_timing clock s'.
Proof.
  intros Hrun Hinv Htime.
  destruct file_name as [file|];
    [|injection Hrun as <-; apply (preprocess_timing_same clock s); simpl; auto].
  destruct (String.eqb file "<command-line>") eqn:Hcmd.
  { unfold start_preprocess_file in Hrun; simpl in Hrun; rewrite Hcmd in Hrun.
    injection Hrun as <-. apply (preprocess_timing_same clock s); simpl; auto. }
  destruct (start_preprocess_file_preprocessing _ _ _ _ _ Hcmd Hrun)
    as (Hticks & Hstart & Hend & _).
  destruct Htime as [Ha Hb].
  destruct (count (preprocess_start s) (pushed_identity file s)) eqn:Hcount.
  { split; rewrite Hstart, ?Hend; [|done].
    intros f t0 Hf. apply (past_later clock s); [lia | eauto]. }
  apply count_false in Hcount. split; rewrite Hstart, ?Hend.
  - intros f t0. destruct (decide (f = pushed_identity file s)) as [->|Hne].
    + rewrite lookup_insert_eq. intros [= <-]. apply past_reading; [done | lia].
    + rewrite lookup_insert_ne by done. intros Hf.
      apply (past_later clock s); [lia | eauto].
  - intros f t0 t1. destruct (decide (f = pushed_identity file s)) as [->|Hne].
    + intros _ Ht1. destruct (ended_started _ Hinv _ (ltac:(eauto))) as [t Ht].
      congruence.
    + rewrite lookup_insert_ne by done. apply Hb.
Qed.

Lemma end_preprocess_file_timing (s s' : Tracker) :
  end_preprocess_file clock s = Ok s' ->
  preprocess_timing clock s -> preprocess_timing clock s'.
Proof.
  intros (top & below & Hs & Hticks & Hstart & Hend & _)%end_preprocess_file_preprocessing
         [Ha Hb].
  split; rewrite Hstart, ?Hend.
  - intros f t0 Hf. apply (past_later clock s); [lia | eauto].
  - intros f t0 t1 Hf.
    destruct (count (preprocess_end s) top); [by apply Hb|].
    destruct (decide (f = top)) as [->|Hne].
    + rewrite lookup_insert_eq. intros [= <-]. by apply (Ha _ _ Hf).
    + rewrite lookup_insert_ne by done. by apply Hb.
Qed.

Lemma finish_preprocessing_loop_timing (fuel : nat) (s s' : Tracker) :
  finish_preprocessing_loop clock fuel s = Ok s' ->
  preprocess_timing clock s -> preprocess_timing clock s'.
Proof.
  revert s; induction fuel as [|fuel IH]; intros s; simpl;
    destruct (preprocessing_stack s) eqn:Hstack; try (by intros [= <-]);
    try discriminate.
  intros H Htime. apply bind_ok in H as (s1 & H1 & H2).
  apply end_preprocess_file_timing in H1; [|done].
  apply IH in H2; [done|].
  apply (preprocess_timing_same clock s1); simpl; auto.
Qed.

Lemma step_preprocess_timing (c : call) (s s' : Tracker) :
  step clock c s = Ok s' ->
  stack_inv s -> preprocess_timing clock s -> preprocess_timing clock s'.
Proof.
  destruct c as [file_name pfile| | |p|info]; simpl.
  - apply start_preprocess_file_timing.
  - intros H _. by apply end_preprocess_file_timing.
  - intros H _. revert H. apply finish_preprocessing_loop_timing.
  - intros [= <-] _. apply preprocess_timing_same.
    + unfold start_opt_pass; simpl. by destruct (pass (last_pass s)).
    + unfold start_opt_pass; simpl. destruct (pass (last_pass s)); simpl; lia.
  - intros [= <-] _. apply preprocess_timing_same.
    + unfold end_parse_function; simpl.
      destruct (ff_scope_name info); [|done]. by destruct (same_scope_as_back _ _).
    + unfold end_parse_function; simpl.
      destruct (ff_scope_name info); [|simpl; lia].
      destruct (same_scope_as_back _ _); simpl; lia.
Qed.

Lemma run_preprocess_timing (cs : list call) (s s' : Tracker) :
  run clock cs s = Ok s' ->
  stack_inv s -> preprocess_timing clock s ->
  stack_inv s' /\ preprocess_timing clock s'.
Proof.
  intros Hrun Hinv Htime.
  apply (run_invariant clock (fun x => stack_inv x /\ preprocess_timing clock x))
    with (cs := cs) (s := s); auto.
  intros c s1 s2 [H1 H2] Hstep. split.
  - by destruct (step_stack_inv _ _ _ _ Hstep H1).
  - by eapply step_preprocess_timing.
Qed.

End PreprocessTiming.

(** ** Which files have a start *)

Section Started.
Variable clock : nat -> TimeStamp.

Lemma finish_preprocessing_loop_start (fuel : nat) (s s' : Tracker) :
  finish_preprocessing_loop clock fuel s = Ok s' ->
  preprocess_start s' = preprocess_start s.
Proof.
  revert s; induction fuel as [|fuel IH]; intros s; simpl;
    destruct (preprocessing_stack s) eqn:Hstack; try (by intros [= <-]);
    try discriminate.
  intros H. apply bind_ok in H as (s1 & H1 & H2).
  apply end_preprocess_file_preprocessing in H1 as (? & ? & _ & _ & H1 & _).
  apply IH in H2. by rewrite H2.
Qed.

Lemma step_started (c : call) (s s' : Tracker) :
  step clock c s = Ok s' ->
  dom (preprocess_start s') ∖ {[CIRCULAR_POISON_VALUE]} =
    (dom (preprocess_start s) ∪ (files_entered [c] ∖ {["<command-line>"]}))
      ∖ {[CIRCULAR_POISON_VALUE]}.
Proof.
  assert (Hsame : forall x : Tracker, preprocess_start x = preprocess_start s ->
            files_entered [c] ∖ {["<command-line>"]} = ∅ ->
            dom (preprocess_start x) ∖ {[CIRCULAR_POISON_VALUE]} =
            (dom (preprocess_start s) ∪ (files_entered [c] ∖ {["<command-line>"]}))
              ∖ {[CIRCULAR_POISON_VALUE]}).
  { intros x -> ->. f_equal. by rewrite union_empty_r_L. }
  destruct c as [file_name pfile| | |p|info]; simpl.
  - destruct file_name as [file|]; [|intros [= <-]; by apply Hsame].
    destruct (String.eqb_spec file "<command-line>") as [->|Hne].
    { intros [= <-]. apply Hsame; [done|].
      unfold files_entered; simpl. set_solver. }
    assert (Hcmd : String.eqb file "<command-line>" = false)
      by (by apply String.eqb_neq).
    intros H. destruct (start_preprocess_file_preprocessing _ _ _ _ _ Hcmd H)
      as (_ & -> & _ & _).
    assert (Hdom : dom (if count (preprocess_start s) (pushed_identity file s)
                        then preprocess_start s
                        else <[pushed_identity file s := clock (ticks s)]> (preprocess_start s))
                   = dom (preprocess_start s) ∪ {[pushed_identity file s]}).
    { destruct (count _ _) eqn:Hcount.
      - apply count_true, elem_of_dom in Hcount. set_solver.
      - rewrite dom_insert_L. set_solver. }
    rewrite Hdom. unfold files_entered; simpl. unfold pushed_identity.
    destruct (count (preprocess_start s) file) eqn:Hcount; simpl.
    + apply count_true, elem_of_dom in Hcount.
      destruct (count (preprocess_end s) file); simpl; set_solver.
    + set_solver.
  - intros (? & ? & _ & _ & H & _)%end_preprocess_file_preprocessing. by apply Hsame.
  - intros H%finish_preprocessing_loop_start. by apply Hsame.
  - intros [= <-]. apply Hsame; [|done].
    unfold start_opt_pass; simpl. by destruct (pass (last_pass s)).
  - intros [= <-]. apply Hsame; [|done].
    unfold end_parse_function; simpl.
    destruct (ff_scope_name info); [|done]. by destruct (same_scope_as_back _ _).
Qed.

Lemma files_entered_cons (c : call) (cs : list call) :
  files_entered (c :: cs) = files_entered [c] ∪ files_entered cs.
Proof. unfold files_entered; simpl. destruct (entered_name c); set_solver. Qed.

(** The started files, the sentinel apart, are the files entered, the
    ignored name apart. *)
Lemma run_started (cs : list call) (s s' : Tracker) :
  run clock cs s = Ok s' ->
  dom (preprocess_start s') ∖ {[CIRCULAR_POISON_VALUE]} =
    (dom (preprocess_start s) ∪ (files_entered cs ∖ {["<command-line>"]}))
      ∖ {[CIRCULAR_POISON_VALUE]}.
Proof.
  revert s; induction cs as [|c cs IH]; intros s; unfold run; simpl.
  - intros [= <-]. unfold files_entered; simpl. set_solver.
  - intros H. apply bind_ok in H as (s1 & H1 & H2).
    apply IH in H2. apply step_started in H1.
    rewrite H2, files_entered_cons. set_solver.
Qed.

End Started.

(** ** Ignored entries *)

(** C10. Entering a null file name or ["<command-line>"] reads the clock
    and returns: no start timestamp, no push, no registration, no
    diagnostic. Every variable of the tracker keeps its value; and since
    no call ever records a start for ["<command-line>"], no record, hence
    no PREPROCESS event, is ever made for it. *)
Theorem start_preprocess_file_ignores_null_and_command_line
    (clock : nat -> TimeStamp) (pfile : option cpp_reader) (s : Tracker) :
  start_preprocess_file clock None pfile s = Ok (set_ticks (S (ticks s)) s) /\
  start_preprocess_file clock (Some "<command-line>") pfile s
    = Ok (set_ticks (S (ticks s)) s) /\
  (forall cs s', run clock cs initial = Ok s' ->
     preprocess_start s' !! "<command-line>" = None /\
     "<command-line>" ∉ (preprocess_records s').*1).
Proof.
  split; [reflexivity|]. split; [reflexivity|].
  intros cs s' Hrun.
  assert (Hnone : preprocess_start s' !! "<command-line>" = None).
  { apply run_started in Hrun. simpl in Hrun. rewrite dom_empty_L in Hrun.
    apply not_elem_of_dom. intros Hin.
    assert (Hne : "<command-line>" <> CIRCULAR_POISON_VALUE) by discriminate.
    set_solver. }
  split; [done|].
  intros ([f [t0 t1]] & Hf & Hin)%list_elem_of_fmap. simpl in Hf. subst f.
  apply elem_of_preprocess_records in Hin as (H0 & _). congruence.
Qed.

(** ** Preprocessing events *)

Lemma record_events_are_preprocess (s : Tracker) (l : list (string * (Z * Z))) :
  filter (fun e => te_category e = PREPROCESS) (map (record_event s) l)
  = map (record_event s) l.
Proof.
  induction l as [|r l IH]; [done|]. simpl.
  rewrite filter_cons_True by done. by rewrite IH.
Qed.

Lemma record_event_same (s s' : Tracker) (r : string * (Z * Z)) :
  normalizer s' = normalizer s -> record_event s' r = record_event s r.
Proof.
  intros H. unfold record_event, preprocess_event.
  by rewrite (normalized_file_name_same _ _ _ H).
Qed.

(** C4, as amended. For a monotonic clock and a well-nested sequence of
    calls in which no file is resolved to the path of its own include
    directory, the calls and the emission of the preprocessing events
    succeed, the number of PREPROCESS events is the number of distinct
    file names entered other than the sentinel value and the ignored name
    ["<command-line>"], and every one of these events has its start no
    later than its end. *)
Theorem preprocess_events_of_well_nested_calls (clock : nat -> TimeStamp)
    (cs : list call) :
  monotone clock ->
  well_nested cs = true ->
  forallb sane_call cs = true ->
  exists s s',
    run clock cs initial = Ok s /\
    write_preprocessing_events clock s = Ok s' /\
    length (preprocess_events s') =
      size (files_entered cs ∖ {[CIRCULAR_POISON_VALUE; "<command-line>"]}) /\
    Forall span_ordered (preprocess_events s').
Proof.
  intros Hmono Hwn Hsane.
  destruct (run_total clock cs initial Hwn Hsane) as [s Hs].
  destruct (run_preprocess_timing clock Hmono cs initial s Hs stack_inv_initial
              (preprocess_timing_initial clock)) as [Hinv Htime].
  destruct (write_preprocessing_events_spec clock s Hinv)
    as (s1 & Hs1 & Hempty & Hinv1 & Hkept & Hwrite).
  pose proof (finish_preprocessing_loop_timing clock _ _ _ Hs1 Htime) as Htime1.
  exists s. eexists. split; [done|]. split; [exact Hwrite|].
  unfold preprocess_events; simpl.
  rewrite (run_events clock cs initial s Hs); simpl.
  rewrite record_events_are_preprocess. split.
  - rewrite length_map, preprocess_records_length.
    + rewrite (finish_preprocessing_loop_start _ _ _ _ Hs1).
      rewrite (run_started clock cs initial s Hs); simpl.
      rewrite dom_empty_L. f_equal. set_solver.
    + intros f Hf.
      destruct (preprocess_end s1 !! f) as [t1|] eqn:Hend; [eauto|].
      pose proof (open_on_stack _ Hinv1 f Hf Hend) as Hin.
      rewrite Hempty in Hin. by apply elem_of_nil in Hin.
  - apply Forall_forall. intros e Hin.
    apply list_elem_of_fmap in Hin as ([f [t0 t1]] & -> & Hin).
    apply elem_of_preprocess_records in Hin as (H0 & H1 & _).
    unfold span_ordered; simpl. by eapply start_le_end.
Qed.

(** C4, as stated, fails: entering ["<command-line>"] is a well-nested
    sequence with one file entered, and no PREPROCESS event comes out. *)
Lemma command_line_entry_is_not_counted :
  ~ counts_every_entered_file (fun _ => 0)
      [enter_file (Some "<command-line>") None].
Proof.
  intros H.
  destruct (H eq_refl _ _ eq_refl eq_refl) as [Hcount _].
  vm_compute in Hcount. discriminate.
Qed.

(** ** Circular includes *)

(** C5, as stated, fails: a file that was entered and left before is
    entered again, and includes itself; its end is already recorded, the
    test of [start_preprocess_file] does not fire, and the file itself is
    pushed a second time. *)
Lemma reentered_file_is_pushed_twice :
  exists s,
    run (fun _ => 0)
      [enter_file (Some "a.h") None; leave_file; enter_file (Some "a.h") None]
      initial = Ok s /\
    ~ substitutes_sentinel (fun _ => 0) s "a.h" None.
Proof.
  eexists. split; [vm_compute; reflexivity|].
  intros H. destruct H as (s' & Hs' & Hstack).
  - apply list_elem_of_here.
  - vm_compute in Hs'. injection Hs' as <-. vm_compute in Hstack. discriminate.
Qed.

Lemma start_preprocess_file_circular (clock : nat -> TimeStamp) (file : string)
    (pfile : option cpp_reader) (s : Tracker) :
  String.eqb file "<command-line>" = false ->
  count (preprocess_start s) file && negb (count (preprocess_end s) file) = true ->
  start_preprocess_file clock (Some file) pfile s = Ok (entered clock file s).
Proof.
  intros Hcmd Hcirc.
  unfold start_preprocess_file, entered, pushed_identity, ns_from_start.
  cbn [ticks preprocess_start preprocess_end set_ticks].
  rewrite Hcmd, Hcirc.
  by destruct (count (preprocess_start s) CIRCULAR_POISON_VALUE).
Qed.

Lemma entered_normalizer (clock : nat -> TimeStamp) (file : string) (s : Tracker) :
  normalizer (entered clock file s) = normalizer s.
Proof.
  unfold entered.
  by destruct (count (preprocess_start s) (pushed_identity file s)).
Qed.

(** C5, as amended. In every tracker reached by calls from the initial
    one, a file whose first inclusion is still open (a start and no end)
    is on the stack, and entering it again succeeds, pushes the sentinel,
    resolves no directory and leaves the record of the file alone.
    Whatever well-nested calls follow (no file being resolved to the path
    of its own include directory), they and the emission succeed, and the
    events emitted are those of records with pairwise different files,
    none of them the sentinel. *)
Theorem circular_include_is_poisoned (clock : nat -> TimeStamp)
    (cs more : list call) (s : Tracker) (file : string) (pfile : option cpp_reader) :
  run clock cs initial = Ok s ->
  is_Some (preprocess_start s !! file) ->
  preprocess_end s !! file = None ->
  file <> "<command-line>" ->
  well_nested_from (S (length (preprocessing_stack s))) more = true ->
  forallb sane_call more = true ->
  file ∈ preprocessing_stack s /\
  exists s1 s2 s3 records,
    start_preprocess_file clock (Some file) pfile s = Ok s1 /\
    preprocessing_stack s1 = CIRCULAR_POISON_VALUE :: preprocessing_stack s /\
    normalizer s1 = normalizer s /\
    preprocess_start s1 !! file = preprocess_start s !! file /\
    preprocess_end s1 !! file = None /\
    run clock more s1 = Ok s2 /\
    write_preprocessing_events clock s2 = Ok s3 /\
    events s3 = map (record_event s3) records /\
    NoDup records.*1 /\
    CIRCULAR_POISON_VALUE ∉ records.*1.
Proof.
  intros Hrun [t0 Hstart] Hend Hne Hwn Hsane.
  destruct (run_stack_inv clock cs initial s Hrun stack_inv_initial) as [Hinv _].
  split; [apply (open_on_stack _ Hinv); eauto|].
  assert (Hcmd : String.eqb file "<command-line>" = false) by (by apply String.eqb_neq).
  assert (Hcirc : count (preprocess_start s) file &&
                  negb (count (preprocess_end s) file) = true).
  { unfold count. by rewrite Hstart, Hend. }
  assert (Hpushed : pushed_identity file s = CIRCULAR_POISON_VALUE).
  { unfold pushed_identity. by rewrite Hcirc. }
  pose proof (start_preprocess_file_circular clock file pfile s Hcmd Hcirc) as Hs1.
  pose proof (entered_normalizer clock file s) as Hnorm.
  destruct (start_preprocess_file_preprocessing _ _ _ _ _ Hcmd Hs1)
    as (_ & Hstart1 & Hend1 & Hstack1).
  rewrite Hpushed in Hstart1, Hstack1.
  set (s1 := entered clock file s) in *. clearbody s1.
  destruct (run_total clock more s1) as [s2 Hs2]; [by rewrite Hstack1 | done |].
  destruct (step_stack_inv clock (enter_file (Some file) pfile) s s1 Hs1 Hinv) as [Hinv1 _].
  destruct (run_stack_inv clock more s1 s2 Hs2 Hinv1) as [Hinv2 _].
  destruct (write_preprocessing_events_spec clock s2 Hinv2)
    as (s3 & Hs3 & _ & _ & _ & Hwrite).
  exists s1, s2. eexists. exists (preprocess_records s3).
  split; [done|]. split; [done|]. split; [done|]. split.
  { rewrite Hstart1.
    destruct (count (preprocess_start s) CIRCULAR_POISON_VALUE) eqn:Hc; [done|].
    apply count_false in Hc. apply lookup_insert_ne. congruence. }
  split; [by rewrite Hend1|].
  split; [done|]. split; [exact Hwrite|].
  cbn [events set_events].
  rewrite (run_events clock more s1 s2 Hs2).
  rewrite (step_events clock (enter_file (Some file) pfile) s s1 Hs1).
  rewrite (run_events clock cs initial s Hrun).
  cbn [events initial app]. split; [|split].
  - apply map_ext. intros r. by apply record_event_same.
  - apply preprocess_records_NoDup.
  - intros ([f [x y]] & Hf & Hin)%list_elem_of_fmap. simpl in Hf. subst f.
    by apply elem_of_preprocess_records in Hin as (_ & _ & Hp).
Qed.

(** ** Repeated includes *)

(** C8. Once a file (a name other than the sentinel value) has its start
    and its end, whatever calls follow, re-entries of the file among
    them, leave both as they are, and the emission succeeds and emits
    one PREPROCESS event for each of the files that have a record, no
    file twice; the event of the file carries its display name and the
    span from the first start to the first end. *)
Theorem first_inclusion_interval_is_kept (clock : nat -> TimeStamp)
    (before after : list call) (s s' : Tracker) (file : string) (t0 t1 : TimeStamp) :
  run clock before initial = Ok s ->
  preprocess_start s !! file = Some t0 ->
  preprocess_end s !! file = Some t1 ->
  file <> CIRCULAR_POISON_VALUE ->
  run clock after s = Ok s' ->
  preprocess_start s' !! file = Some t0 /\
  preprocess_end s' !! file = Some t1 /\
  exists s'' records,
    write_preprocessing_events clock s' = Ok s'' /\
    events s'' =
      map (fun r => mkTraceEvent (normalized_file_name r.1 s'') PREPROCESS
                      (mkTimeSpan r.2.1 r.2.2) (false, ∅)) records /\
    NoDup records.*1 /\
    (file, (t0, t1)) ∈ records /\
    mkTraceEvent (normalized_file_name file s'') PREPROCESS (mkTimeSpan t0 t1) (false, ∅)
      ∈ events s''.
Proof.
  intros Hbefore Hstart Hend Hne Hafter.
  destruct (run_stack_inv clock before initial s Hbefore stack_inv_initial) as [Hinv _].
  destruct (run_stack_inv clock after s s' Hafter Hinv) as [Hinv' [Hk0 Hk1]].
  split; [by apply Hk0|]. split; [by apply Hk1|].
  destruct (write_preprocessing_events_spec clock s' Hinv')
    as (s1 & Hs1 & _ & _ & [Hd0 Hd1] & Hwrite).
  assert (Hin : (file, (t0, t1)) ∈ preprocess_records s1)
    by (apply elem_of_preprocess_records; auto).
  eexists. exists (preprocess_records s1). split; [exact Hwrite|].
  cbn [events set_events].
  rewrite (run_events clock after s s' Hafter), (run_events clock before initial s Hbefore).
  cbn [events initial app].
  assert (Hev : map (record_event s1) (preprocess_records s1) =
                map (fun r => mkTraceEvent
                                (normalized_file_name r.1
                                   (set_events (map (record_event s1) (preprocess_records s1)) s1))
                                PREPROCESS (mkTimeSpan r.2.1 r.2.2) (false, ∅))
                  (preprocess_records s1)).
  { apply map_ext. intros r. unfold record_event, preprocess_event. f_equal. }
  split; [exact Hev|]. split; [apply preprocess_records_NoDup|]. split; [done|].
  rewrite Hev. apply list_elem_of_fmap. by exists (file, (t0, t1)).
Qed.

(** ** Leaving with nothing open *)

(** C9, as stated, fails: on the empty stack of the initial tracker,
    [end_preprocess_file] does not stop the process. *)
Lemma leave_file_on_empty_stack_does_not_abort :
  ~ fails_fast (end_preprocess_file (fun _ => 0) initial).
Proof. unfold fails_fast. vm_compute. discriminate. Qed.

(** C9, as amended. [end_preprocess_file] does not test the stack:
    called with no file open, it reads the top of an empty stack and pops
    it, which is undefined behaviour, not an abort. *)
Theorem leave_file_on_empty_stack_is_undefined (clock : nat -> TimeStamp)
    (s : Tracker) :
  preprocessing_stack s = [] ->
  end_preprocess_file clock s = Fault undefined_behaviour.
Proof. intros H. unfold end_preprocess_file; simpl. by rewrite H. Qed.

(** ** Pass tracker *)

Lemma start_opt_pass_spec (clock : nat -> TimeStamp) (p : option opt_pass)
    (s : Tracker) :
  let now := clock (ticks s) in
  let s' := start_opt_pass clock p s in
  pass_events s' =
    match pass (last_pass s) with
    | Some q => pass_events s ++
                  [mkOptPassEvent (Some q) (mkTimeSpan (start (ope_ts (last_pass s))) now)]
    | None => pass_events s
    end /\
  last_pass s' = mkOptPassEvent p (mkTimeSpan (now + 1) now) /\
  ticks s' = S (ticks s).
Proof. unfold start_opt_pass; simpl. by destruct (pass (last_pass s)). Qed.

Lemma write_opt_pass_items_spec (l : list OptPassEvent) (s : Tracker)
    (ev : list TraceEvent) :
  Forall (fun e => is_Some (pass e)) l ->
  exists emitted,
    for_each write_opt_pass_item l (set_events ev s) = Ok (set_events (ev ++ emitted) s) /\
    Forall2 emitted_for l emitted.
Proof.
  revert ev; induction l as [|e l IH]; intros ev Hall; simpl.
  { exists []. by rewrite app_nil_r. }
  apply Forall_cons in Hall as [[p Hp] Hall].
  unfold write_opt_pass_item at 1. rewrite Hp; simpl.
  change (add_event _ _) with (set_events (ev ++ [pass_event p (ope_ts e)]) s).
  destruct (IH (ev ++ [pass_event p (ope_ts e)]) Hall) as (emitted & -> & Hem).
  exists (pass_event p (ope_ts e) :: emitted). split.
  - by rewrite <- app_assoc.
  - constructor; [by exists p | done].
Qed.

Lemma write_opt_pass_events_spec (s : Tracker) :
  closed_passes_named s ->
  exists emitted,
    write_opt_pass_events s = Ok (set_events (events s ++ emitted) s) /\
    Forall2 emitted_for (pass_events s) emitted.
Proof.
  intros H. unfold write_opt_pass_events.
  destruct (write_opt_pass_items_spec (pass_events s) s (events s) H)
    as (emitted & Heq & Hem).
  rewrite set_events_id in Heq. by exists emitted.
Qed.

Section Passes.
Variable clock : nat -> TimeStamp.

Lemma finish_preprocessing_loop_passes (fuel : nat) (s s' : Tracker) :
  finish_preprocessing_loop clock fuel s = Ok s' ->
  pass_events s' = pass_events s /\ last_pass s' = last_pass s.
Proof.
  revert s; induction fuel as [|fuel IH]; intros s; simpl;
    destruct (preprocessing_stack s) as [|top below] eqn:Hstack;
    try (by intros [= <-]); try discriminate.
  unfold end_preprocess_file; simpl. rewrite Hstack; simpl.
  intros [-> ->]%IH. by destruct (count (preprocess_end s) top).
Qed.

Lemma step_closed_passes_named (c : call) (s s' : Tracker) :
  step clock c s = Ok s' -> closed_passes_named s -> closed_passes_named s'.
Proof.
  unfold closed_passes_named.
  destruct c as [file_name pfile| | |p|info]; simpl.
  - destruct file_name as [file|]; [|by intros [= <-]].
    destruct (String.eqb file "<command-line>") eqn:Hcmd.
    { unfold start_preprocess_file; simpl. rewrite Hcmd. by intros [= <-]. }
    intros (a & b & c & d & e & ->)%start_preprocess_file_frame; [|done].
    unfold entered; simpl. by destruct (count _ _).
  - unfold end_preprocess_file; simpl.
    destruct (preprocessing_stack s) as [|top below]; [discriminate|].
    destruct (count (preprocess_end s) top); by intros [= <-].
  - by intros [-> _]%finish_preprocessing_loop_passes.
  - intros [= <-] H.
    destruct (start_opt_pass_spec clock p s) as (-> & _ & _).
    destruct (pass (last_pass s)) as [q|] eqn:Hq; [|done].
    apply Forall_app. split; [done|]. by repeat constructor.
  - intros [= <-]. unfold end_parse_function; simpl.
    destruct (ff_scope_name info); [|done]. by destruct (same_scope_as_back _ _).
Qed.

Lemma run_closed_passes_named (cs : list call) (s s' : Tracker) :
  run clock cs s = Ok s' -> closed_passes_named s -> closed_passes_named s'.
Proof.
  intros Hrun H.
  apply (run_invariant clock closed_passes_named) with (cs := cs) (s := s); auto.
  intros c s1 s2 H1 H2. by eapply step_closed_passes_named.
Qed.

End Passes.

(** ** Function and scope tracker *)

Lemma update_back_snoc {A : Type} (f : A -> A) (l : list A) (x : A) :
  update_back f (l ++ [x]) = l ++ [f x].
Proof.
  unfold update_back. rewrite length_app; simpl.
  replace (pred (length l + 1)) with (length l + 0)%nat by lia.
  by rewrite alter_app_r.
Qed.

Lemma last_update_back {A : Type} (f : A -> A) (l : list A) :
  last (update_back f l) = f <$> last l.
Proof.
  destruct l as [|x l] using rev_ind; [done|].
  by rewrite update_back_snoc, !last_snoc.
Qed.

Lemma end_parse_function_spec (clock : nat -> TimeStamp) (info : FinishedFunction)
    (s : Tracker) :
  let ts := parsed_span clock s in
  let s' := end_parse_function clock info s in
  ticks s' = S (ticks s) /\
  last_function_parsed_ts s' = end_ ts /\
  function_events s' =
    function_events s ++ [mkFunctionEvent (ff_name info) (ff_file_name info) ts] /\
  scope_events s' =
    match ff_scope_name info with
    | Some scope_name =>
        if same_scope_as_back scope_name s
        then update_back (extend_scope (end_ ts + 1)) (scope_events s)
        else scope_events s ++ [opened_scope scope_name (ff_scope_type info) ts]
    | None => scope_events s
    end /\
  did_last_function_have_scope s' =
    match ff_scope_name info with Some _ => true | None => false end.
Proof.
  unfold end_parse_function, parsed_span, opened_scope; simpl.
  destruct (ff_scope_name info) as [scope_name|]; [|done].
  unfold same_scope_as_back; simpl.
  by destruct (match last (scope_events s) with Some _ => _ | None => _ end).
Qed.

Lemma add_scope_events (l : list ScopeEvent) (s : Tracker) (ev : list TraceEvent) :
  fold_left (fun s item => add_event (scope_trace_event item) s) l (set_events ev s)
  = set_events (ev ++ map scope_trace_event l) s.
Proof.
  revert ev; induction l as [|e l IH]; intros ev; simpl.
  - by rewrite app_nil_r.
  - change (add_event (scope_trace_event e) (set_events ev s))
      with (set_events (ev ++ [scope_trace_event e]) s).
    by rewrite IH, <- app_assoc.
Qed.

(** One event per scope event, in order. *)
Lemma write_all_scopes_spec (s : Tracker) :
  write_all_scopes s = set_events (events s ++ map scope_trace_event (scope_events s)) s.
Proof.
  unfold write_all_scopes. rewrite <- (set_events_id s) at 2.
  apply add_scope_events.
Qed.

Lemma add_function_events (l : list FunctionEvent) (s : Tracker) (ev : list TraceEvent) :
  fold_left (fun s item => add_event (function_trace_event s item) s) l (set_events ev s)
  = set_events (ev ++ map (function_trace_event s) l) s.
Proof.
  revert ev; induction l as [|e l IH]; intros ev; simpl.
  - by rewrite app_nil_r.
  - change (add_event (function_trace_event (set_events ev s) e) (set_events ev s))
      with (set_events (ev ++ [function_trace_event s e]) s).
    by rewrite IH, <- app_assoc.
Qed.

(** One FUNCTION event per function event, in order. *)
Lemma write_all_functions_spec (s : Tracker) :
  write_all_functions s =
    set_events (events s ++ map (function_trace_event s) (function_events s)) s.
Proof.
  unfold write_all_functions. rewrite <- (set_events_id s) at 2.
  apply add_function_events.
Qed.

Section Scopes.
Variable clock : nat -> TimeStamp.

Lemma finish_preprocessing_loop_scopes (fuel : nat) (s s' : Tracker) :
  finish_preprocessing_loop clock fuel s = Ok s' -> scopes s' = scopes s.
Proof.
  revert s; induction fuel as [|fuel IH]; intros s; simpl;
    destruct (preprocessing_stack s) as [|top below] eqn:Hstack;
    try (by intros [= <-]); try discriminate.
  unfold end_preprocess_file; simpl. rewrite Hstack; simpl.
  intros ->%IH. by destruct (count (preprocess_end s) top).
Qed.

Lemma step_scopes (c : call) (s s' : Tracker) :
  is_finish_function c = false -> step clock c s = Ok s' -> scopes s' = scopes s.
Proof.
  destruct c as [file_name pfile| | |p|info]; simpl; intros Hc; [| | | |done].
  - destruct file_name as [file|]; [|by intros [= <-]].
    destruct (String.eqb file "<command-line>") eqn:Hcmd.
    { unfold start_preprocess_file; simpl. rewrite Hcmd. by intros [= <-]. }
    intros (a & b & c & d & e & ->)%start_preprocess_file_frame; [|done].
    unfold entered; simpl. by destruct (count _ _).
  - unfold end_preprocess_file; simpl.
    destruct (preprocessing_stack s) as [|top below]; [discriminate|].
    destruct (count (preprocess_end s) top); by intros [= <-].
  - apply finish_preprocessing_loop_scopes.
  - intros [= <-]. unfold start_opt_pass; simpl. by destruct (pass (last_pass s)).
Qed.

(** Calls other than [finish_function] leave the scope accumulator alone. *)
Lemma run_scopes (cs : list call) (s s' : Tracker) :
  forallb (fun c => negb (is_finish_function c)) cs = true ->
  run clock cs s = Ok s' -> scopes s' = scopes s.
Proof.
  revert s; induction cs as [|c cs IH]; intros s; unfold run; simpl.
  - by intros _ [= <-].
  - intros [Hc Hcs]%andb_prop H. apply bind_ok in H as (s1 & H1 & H2).
    apply negb_true_iff in Hc.
    rewrite (IH s1 Hcs H2). by eapply step_scopes.
Qed.

End Scopes.

(** ** Function spans *)

Lemma advances_monotone (gap : Z) (clock : nat -> TimeStamp) :
  0 <= gap -> advances gap clock -> monotone clock.
Proof. intros Hgap H n. specialize (H n). lia. Qed.






(** ** Spans after the epsilon adjustments *)

(** A call that only moves the cursor keeps the invariant when the new
    cursor is old enough. *)
Lemma epsilon_timing_cursor (clock : nat -> TimeStamp) (s s' : Tracker) :
  epsilons s' = epsilons s -> (ticks s <= ticks s')%nat ->
  past clock s' (last_function_parsed_ts s' + 3) ->
  epsilon_timing clock s -> epsilon_timing clock s'.
Proof.
  intros [= H2 H3 H4 H5] Hle Hcursor [Ha Hb Hc Hd He].
  split; rewrite ?H2, ?H3, ?H4, ?H5; try done.
  - eapply Forall_impl; [exact Hc|]. intros e [? ?]. split; [done|].
    by apply (past_later clock s).
  - by apply (past_later clock s).
Qed.

Lemma epsilon_timing_same (clock : nat -> TimeStamp) (s s' : Tracker) :
  epsilons s' = epsilons s ->
  last_function_parsed_ts s' = last_function_parsed_ts s ->
  (ticks s <= ticks s')%nat ->
  epsilon_timing clock s -> epsilon_timing clock s'.
Proof.
  intros H1 H2 Hle H. apply (epsilon_timing_cursor clock s); try done.
  rewrite H2. apply (past_later clock s); [done | apply H].
Qed.

Section EpsilonTiming.
Variable clock : nat -> TimeStamp.
Hypothesis first_reading : 3 <= clock 0%nat.
Hypothesis clock_advances : advances 6 clock.

Lemma clock_monotone : monotone clock.
Proof. apply (advances_monotone 6); [lia | done]. Qed.

(** A reading is at least six nanoseconds old at every later reading. *)
Lemma reading_past (k : nat) (s' : Tracker) :
  (S k <= ticks s')%nat -> past clock s' (clock k + 6).
Proof.
  intros Hle n Hn. pose proof (clock_advances k).
  pose proof (monotone_le clock (S k) n clock_monotone). lia.
Qed.

Lemma epsilon_timing_initial : epsilon_timing clock initial.
Proof.
  assert (H : forall n, 3 <= clock n).
  { intros n. pose proof (monotone_le clock 0 n clock_monotone). lia. }
  split; simpl; try by constructor.
  - intros n _. apply H.
  - intros n _. specialize (H n). lia.
Qed.

Lemma end_preprocess_file_epsilons (s s' : Tracker) :
  end_preprocess_file clock s = Ok s' -> epsilons s' = epsilons s.
Proof.
  unfold end_preprocess_file; simpl.
  destruct (preprocessing_stack s) as [|top below]; [discriminate|].
  destruct (count (preprocess_end s) top); by intros [= <-].
Qed.

Lemma end_preprocess_file_epsilon (s s' : Tracker) :
  end_preprocess_file clock s = Ok s' ->
  epsilon_timing clock s -> epsilon_timing clock s'.
Proof.
  intros H. pose proof (end_preprocess_file_epsilons s s' H) as Heps.
  apply end_preprocess_file_preprocessing in H
    as (top & below & _ & Hticks & _ & _ & _ & Hcursor).
  apply epsilon_timing_cursor; [done | lia |].
  rewrite Hcursor. intros n Hn.
  pose proof (reading_past (ticks s) s' ltac:(lia) n Hn). lia.
Qed.

Lemma finish_preprocessing_loop_epsilon (fuel : nat) (s s' : Tracker) :
  finish_preprocessing_loop clock fuel s = Ok s' ->
  epsilon_timing clock s -> epsilon_timing clock s'.
Proof.
  revert s; induction fuel as [|fuel IH]; intros s; simpl;
    destruct (preprocessing_stack s) eqn:Hstack; try (by intros [= <-]);
    try discriminate.
  intros H Htime. apply bind_ok in H as (s1 & H1 & H2).
  apply end_preprocess_file_epsilon in H1; [|done].
  apply IH in H2; [done|].
  apply (epsilon_timing_cursor clock s1); simpl; [done | lia | | done].
  intros n Hn.
  pose proof (reading_past (ticks s1) (set_ticks (S (ticks s1)) s1) ltac:(simpl; lia) n Hn).
  lia.
Qed.

Lemma start_opt_pass_epsilon (p : option opt_pass) (s : Tracker) :
  epsilon_timing clock s -> epsilon_timing clock (start_opt_pass clock p s).
Proof.
  intros [Ha Hb Hc Hd He].
  destruct (start_opt_pass_spec clock p s) as (Hpending & Hlast & Hticks).
  assert (Hrest : last_function_parsed_ts (start_opt_pass clock p s) = last_function_parsed_ts s /\
                  function_events (start_opt_pass clock p s) = function_events s /\
                  scope_events (start_opt_pass clock p s) = scope_events s).
  { unfold start_opt_pass; simpl. by destruct (pass (last_pass s)). }
  destruct Hrest as (H1 & H2 & H3).
  split; rewrite ?H1, ?H2, ?H3, ?Hpending, ?Hlast; try done.
  - apply (past_later clock s); [lia | done].
  - eapply Forall_impl; [exact Hc|]. intros e [? ?]. split; [done|].
    apply (past_later clock s); [lia | done].
  - simpl. intros n Hn.
    pose proof (reading_past (ticks s) (start_opt_pass clock p s) ltac:(lia) n Hn). lia.
  - destruct (pass (last_pass s)); [|done].
    apply Forall_app. split; [done|]. constructor; [|done]. simpl.
    apply Hd. lia.
Qed.

Lemma end_parse_function_epsilon (info : FinishedFunction) (s : Tracker) :
  epsilon_timing clock s -> epsilon_timing clock (end_parse_function clock info s).
Proof.
  intros [Ha Hb Hc Hd He].
  destruct (end_parse_function_spec clock info s) as (Hticks & Hcursor & Hfun & Hscope & _).
  assert (Hrest : last_pass (end_parse_function clock info s) = last_pass s /\
                  pass_events (end_parse_function clock info s) = pass_events s).
  { unfold end_parse_function; simpl.
    destruct (ff_scope_name info); [|done]. by destruct (same_scope_as_back _ _). }
  destruct Hrest as (H1 & H2).
  pose proof (Ha (ticks s) ltac:(lia)) as Hnow.
  assert (Hlater : forall t, past clock s t ->
                             past clock (end_parse_function clock info s) t).
  { intros t. apply past_later. lia. }
  assert (Hscopes : Forall (fun e => start (se_ts e) <= end_ (se_ts e) /\
                      past clock (end_parse_function clock info s) (start (se_ts e)))
                      (scope_events s)).
  { eapply Forall_impl; [exact Hc|]. intros e [? ?]. auto. }
  split; rewrite ?H1, ?H2, ?Hcursor, ?Hfun, ?Hscope; try done.
  - unfold parsed_span; simpl. intros n Hn.
    pose proof (reading_past (ticks s) (end_parse_function clock info s) ltac:(lia) n Hn).
    lia.
  - apply Forall_app. split; [done|]. constructor; [|done].
    unfold parsed_span; simpl. lia.
  - destruct (ff_scope_name info) as [scope_name|]; [|done].
    destruct (same_scope_as_back scope_name s).
    + unfold update_back.
      apply (Forall_impl (fun e => (start (se_ts e) <= end_ (se_ts e) /\
                                    past clock s (start (se_ts e))) /\
                                   past clock (end_parse_function clock info s)
                                     (start (se_ts e)))); [|tauto].
      apply Forall_alter.
      * eapply Forall_impl; [exact Hc|]. intros e [? ?]. auto.
      * intros e _ [[Hord Hpast] Hpast']. unfold extend_scope, parsed_span; simpl.
        pose proof (Hpast (ticks s) ltac:(lia)).
        split; [split; [lia | done] | done].
    + apply Forall_app. split; [done|]. constructor; [|done].
      unfold opened_scope, parsed_span; simpl. split; [lia|].
      intros n Hn.
      pose proof (reading_past (ticks s) (end_parse_function clock info s) ltac:(lia) n Hn).
      lia.
  - by apply Hlater.
Qed.

Lemma step_epsilon (c : call) (s s' : Tracker) :
  step clock c s = Ok s' -> epsilon_timing clock s -> epsilon_timing clock s'.
Proof.
  destruct c as [file_name pfile| | |p|info]; simpl.
  - destruct file_name as [file|];
      [|intros [= <-]; apply epsilon_timing_same; simpl; auto].
    destruct (String.eqb file "<command-line>") eqn:Hcmd.
    { unfold start_preprocess_file; simpl. rewrite Hcmd.
      intros [= <-]; apply epsilon_timing_same; simpl; auto. }
    intros (a & b & c & d & e & ->)%start_preprocess_file_frame; [|done].
    apply epsilon_timing_same; unfold entered; simpl;
      destruct (count _ _); simpl; auto.
  - apply end_preprocess_file_epsilon.
  - apply finish_preprocessing_loop_epsilon.
  - intros [= <-]. apply start_opt_pass_epsilon.
  - intros [= <-]. apply end_parse_function_epsilon.
Qed.

Lemma run_epsilon (cs : list call) (s s' : Tracker) :
  run clock cs s = Ok s' -> epsilon_timing clock s -> epsilon_timing clock s'.
Proof.
  intros Hrun H.
  apply (run_invariant clock (epsilon_timing clock)) with (cs := cs) (s := s); auto.
  intros c s1 s2 H1 H2. by eapply step_epsilon.
Qed.

End EpsilonTiming.

(** ** Finalization *)

Lemma finish_preprocessing_stage_drained (clock : nat -> TimeStamp) (s : Tracker) :
  preprocessing_stack s = [] -> finish_preprocessing_stage clock s = Ok s.
Proof.
  intros H. unfold finish_preprocessing_stage. rewrite H. simpl. by rewrite H.
Qed.

(** On a tracker reached by calls, finalization succeeds; it emits the
    records of the drained tracker, then the pending passes, the scopes
    and the functions. *)
Lemma write_all_events_spec (clock : nat -> TimeStamp) (s : Tracker) :
  stack_inv s -> closed_passes_named s ->
  exists s1 emitted,
    finish_preprocessing_stage clock s = Ok s1 /\
    Forall2 emitted_for (pass_events s1) emitted /\
    write_all_events clock s =
      Ok (set_events
            (events s ++ map (record_event s1) (preprocess_records s1) ++ emitted ++
             map scope_trace_event (scope_events s1) ++
             map (function_trace_event s1) (function_events s1)) s1).
Proof.
  intros Hinv Hpasses.
  destruct (finish_preprocessing_stage_spec clock s) as (s1 & Hs1 & Hempty).
  destruct (finish_preprocessing_loop_stack_inv _ _ _ _ Hs1 Hinv) as [Hinv1 _].
  pose proof (step_closed_passes_named clock drain_open_files s s1 Hs1 Hpasses) as Hpasses1.
  destruct (write_preprocessing_events_spec clock s1 Hinv1)
    as (s1' & Hs1' & _ & _ & _ & Hwrite).
  rewrite (finish_preprocessing_stage_drained clock s1 Hempty) in Hs1'.
  injection Hs1' as <-.
  rewrite (finish_preprocessing_loop_events _ _ _ _ Hs1) in Hwrite.
  set (recs := map (record_event s1) (preprocess_records s1)) in *.
  destruct (write_opt_pass_items_spec (pass_events s1) s1 (events s ++ recs) Hpasses1)
    as (emitted & Hpass & Hem).
  exists s1, emitted. split; [done|]. split; [done|].
  unfold write_all_events. rewrite Hs1; simpl. rewrite Hwrite; simpl.
  unfold write_opt_pass_events.
  change (pass_events (set_events (events s ++ recs) s1)) with (pass_events s1).
  rewrite Hpass; simpl. f_equal.
  unfold write_all_scopes.
  change (scope_events (set_events ((events s ++ recs) ++ emitted) s1))
    with (scope_events s1).
  rewrite add_scope_events.
  unfold write_all_functions.
  change (function_events (set_events
            (((events s ++ recs) ++ emitted) ++ map scope_trace_event (scope_events s1)) s1))
    with (function_events s1).
  rewrite add_function_events. by rewrite <- !app_assoc.
Qed.

(** C3, as stated, fails: with a clock that answers 100 twice, the second
    of two functions gets the span (103, 100). *)
Lemma second_function_on_a_stalled_clock_is_inverted :
  ~ every_span_ordered (fun _ => 100)
      [finish_function (mkFinishedFunction "f" "a.c" None UNKNOWN);
       finish_function (mkFinishedFunction "g" "a.c" None UNKNOWN)].
Proof.
  intros H.
  specialize (H _ _ ltac:(vm_compute; reflexivity) ltac:(vm_compute; reflexivity)).
  apply Forall_cons in H as [_ H]. apply Forall_cons in H as [H _].
  vm_compute in H. by apply H.
Qed.

(** * Further properties *)

(** * More of the path normalizer *)

Lemma normalizer_inv_initial : normalizer_inv initial.
Proof.
  split; simpl.
  - intros f n. by rewrite lookup_empty.
  - intros f1 f2 n _. by rewrite lookup_empty.
  - intros f [n Hn]. by rewrite lookup_empty in Hn.
  - done.
Qed.

Lemma normalizer_inv_same (s s' : Tracker) :
  normalizer s' = normalizer s -> normalizer_inv s -> normalizer_inv s'.
Proof.
  intros [= H1 H2 H3 H4] [Ha Hb Hc Hd]. split; rewrite ?H1, ?H2, ?H3, ?H4; auto.
Qed.

Lemma register_include_location_inv (file dir : string) (s s' : Tracker) :
  register_include_location file dir s = Ok s' ->
  normalizer_inv s -> normalizer_inv s'.
Proof.
  intros Hreg [Ha Hb Hc Hd].
  unfold register_include_location, count in Hreg.
  destruct (file_to_include_directory s !! file) as [d|] eqn:Hnew.
  { injection Hreg as <-. by split. }
  assert (Hfresh : normalized_files_map s !! file = None).
  { destruct (normalized_files_map s !! file) as [n|] eqn:Hn; [|done].
    destruct (Hc file) as [d Hd']; [by eexists | congruence]. }
  cbn [set_file_to_include_directory file_to_include_directory] in Hreg.
  rewrite lookup_total_insert_eq in Hreg.
  destruct (starts_with file dir).
  2:{ injection Hreg as <-. split; simpl; auto.
      intros f Hf. destruct (decide (f = file)) as [->|Hne].
      - rewrite lookup_insert_eq. by eexists.
      - rewrite lookup_insert_ne by done. by apply Hc. }
  destruct (substr file (String.length dir + 1)) as [n|]; simpl in Hreg; [|discriminate].
  unfold count_set in Hreg. case_bool_decide as Hin; injection Hreg as <-; split; simpl.
  - intros f m. destruct (decide (f = file)) as [->|Hne].
    + rewrite lookup_insert_eq. by intros [= <-].
    + rewrite lookup_insert_ne by done. apply Ha.
  - intros f1 f2 m Hne.
    destruct (decide (f1 = file)) as [->|H1], (decide (f2 = file)) as [->|H2];
      try done; rewrite ?lookup_insert_eq, ?lookup_insert_ne by done.
    + intros [= <-] _. set_solver.
    + intros _ [= <-]. set_solver.
    + intros H1' H2'. pose proof (Hb _ _ _ Hne H1' H2'). set_solver.
  - intros f Hf. destruct (decide (f = file)) as [->|Hne].
    + rewrite lookup_insert_eq. by eexists.
    + rewrite !lookup_insert_ne in * by done. by apply Hc.
  - set_solver.
  - intros f m. destruct (decide (f = file)) as [->|Hne].
    + rewrite lookup_insert_eq. intros [= <-]. set_solver.
    + rewrite lookup_insert_ne by done. intros Hf%Ha. set_solver.
  - intros f1 f2 m Hne.
    destruct (decide (f1 = file)) as [->|H1], (decide (f2 = file)) as [->|H2];
      try done; rewrite ?lookup_insert_eq, ?lookup_insert_ne by done.
    + intros [= <-] Hf%Ha. done.
    + intros Hf%Ha [= <-]. done.
    + apply Hb. done.
  - intros f Hf. destruct (decide (f = file)) as [->|Hne].
    + rewrite lookup_insert_eq. by eexists.
    + rewrite !lookup_insert_ne in * by done. by apply Hc.
  - set_solver.
Qed.

(** An entry either leaves the normalizer alone or ends with one
    registration, that of the real path the reader resolves the file to. *)
Lemma start_preprocess_file_registration (clock : nat -> TimeStamp)
    (file_name : option string) (pfile : option cpp_reader) (s s' : Tracker) :
  start_preprocess_file clock file_name pfile s = Ok s' ->
  normalizer s' = normalizer s \/
  exists f d s1, resolved_file (enter_file file_name pfile) = Some f /\
                 normalizer s1 = normalizer s /\
                 register_include_location f d s1 = Ok s'.
Proof.
  unfold start_preprocess_file; simpl.
  destruct file_name as [file|]; [|intros [= <-]; by left].
  destruct (String.eqb file "<command-line>"); [intros [= <-]; by left|].
  set (circular := count (preprocess_start s) file && negb (count (preprocess_end s) file)).
  set (pushed := if circular then CIRCULAR_POISON_VALUE else file).
  set (s1 := set_preprocessing_stack _ _).
  assert (Hs1 : normalizer s1 = normalizer s).
  { subst s1. by destruct (count (preprocess_start s) pushed). }
  clearbody s1.
  destruct circular; [intros [= <-]; by left|].
  destruct pfile as [r|]; [|intros [= <-]; by left].
  destruct (real_dir_name r) as [d|] eqn:Hd, (real_file_name r) as [f|] eqn:Hf;
    try (destruct (String.eqb (dir_name r) EmptyString); intros [= <-]; by left).
  intros Hreg. right. by exists f, d, s1.
Qed.

Section NormalizerInvariant.
Variable clock : nat -> TimeStamp.

Lemma step_normalizer_inv (c : call) (s s' : Tracker) :
  step clock c s = Ok s' -> normalizer_inv s -> normalizer_inv s'.
Proof.
  destruct c as [file_name pfile| | |p|info]; simpl.
  - intros [H|(f & d & s1 & _ & Hs1 & Hreg)]%start_preprocess_file_registration Hinv.
    + by apply (normalizer_inv_same s).
    + apply (register_include_location_inv _ _ _ _ Hreg).
      by apply (normalizer_inv_same s).
  - intros H%end_preprocess_file_normalizer. by apply normalizer_inv_same.
  - intros H%finish_preprocessing_loop_normalizer. by apply normalizer_inv_same.
  - intros [= <-]. apply normalizer_inv_same, start_opt_pass_normalizer.
  - intros [= <-]. apply normalizer_inv_same, end_parse_function_normalizer.
Qed.

Lemma run_normalizer_inv (cs : list call) (s s' : Tracker) :
  run clock cs s = Ok s' -> normalizer_inv s -> normalizer_inv s'.
Proof.
  intros Hrun H.
  apply (run_invariant clock normalizer_inv) with (cs := cs) (s := s); auto.
  intros c s1 s2 H1 H2. by eapply step_normalizer_inv.
Qed.

Lemma step_named_resolved (c : call) (s s' : Tracker) (f : string) :
  step clock c s = Ok s' ->
  is_Some (normalized_files_map s' !! f) ->
  is_Some (normalized_files_map s !! f) \/ resolved_file c = Some f.
Proof.
  assert (Hsame : forall x : Tracker, normalizer x = normalizer s ->
            is_Some (normalized_files_map x !! f) ->
            is_Some (normalized_files_map s !! f) \/ resolved_file c = Some f).
  { intros x [= _ -> _ _]. by left. }
  destruct c as [file_name pfile| | |p|info]; simpl.
  - intros [H|(g & d & s1 & Hres & [= _ Hs1 _ _] & Hreg)]%start_preprocess_file_registration;
      [by apply Hsame|].
    rewrite <- Hs1.
    unfold register_include_location in Hreg.
    destruct (count _ _); [injection Hreg as <-; by left|].
    destruct (starts_with _ _); [|injection Hreg as <-; by left].
    destruct (substr _ _); simpl in Hreg; [|discriminate].
    destruct (decide (f = g)) as [->|Hne]; [right; exact Hres|].
    destruct (count_set _ _); injection Hreg as <-; simpl;
      rewrite lookup_insert_ne by done; by left.
  - intros H%end_preprocess_file_normalizer. by apply Hsame.
  - intros H%finish_preprocessing_loop_normalizer. by apply Hsame.
  - intros [= <-]. apply Hsame, start_opt_pass_normalizer.
  - intros [= <-]. apply Hsame, end_parse_function_normalizer.
Qed.

Lemma run_named_resolved (cs : list call) (s s' : Tracker) (f : string) :
  run clock cs s = Ok s' ->
  is_Some (normalized_files_map s' !! f) ->
  is_Some (normalized_files_map s !! f) \/ f ∈ resolved_files cs.
Proof.
  revert s; induction cs as [|c cs IH]; intros s; unfold run; simpl.
  - intros [= <-]. by left.
  - intros H Hf. apply bind_ok in H as (s1 & H1 & H2).
    destruct (IH s1 H2 Hf) as [Hs1|Hin].
    + destruct (step_named_resolved c s s1 f H1 Hs1) as [?|Hc]; [by left|].
      right. unfold resolved_files; simpl. rewrite Hc. set_solver.
    + right. unfold resolved_files in *; simpl.
      destruct (resolved_file c); set_solver.
Qed.

End NormalizerInvariant.

(** X1. In every tracker reached by calls, two different files that were
    given the same display name are both answered by their own path. *)
Theorem files_sharing_a_display_name_fall_back (clock : nat -> TimeStamp)
    (cs : list call) (s : Tracker) (f1 f2 n : string) :
  run clock cs initial = Ok s ->
  normalized_files_map s !! f1 = Some n ->
  normalized_files_map s !! f2 = Some n ->
  f1 <> f2 ->
  normalized_file_name f1 s = f1 /\ normalized_file_name f2 s = f2.
Proof.
  intros Hrun H1 H2 Hne.
  pose proof (run_normalizer_inv clock cs initial s Hrun normalizer_inv_initial) as Hinv.
  pose proof (shared_conflicted _ Hinv _ _ _ Hne H1 H2) as Hn.
  unfold normalized_file_name, count, count_set.
  rewrite !(lookup_total_correct _ _ _ H1), !(lookup_total_correct _ _ _ H2), H1, H2.
  by rewrite !bool_decide_eq_true_2.
Qed.

(** X2. A file that no reader of the calls so far was resolved to is
    answered as it is given: [normalized_file_name] passes through. *)
Theorem unresolved_files_pass_through (clock : nat -> TimeStamp)
    (cs : list call) (s : Tracker) (f : string) :
  run clock cs initial = Ok s ->
  f ∉ resolved_files cs ->
  normalized_file_name f s = f.
Proof.
  intros Hrun Hf.
  unfold normalized_file_name, count.
  destruct (normalized_files_map s !! f) as [n|] eqn:Hn; [|done].
  destruct (run_named_resolved clock cs initial s f Hrun) as [[m Hm]|Hin];
    [by eexists | | done].
  simpl in Hm. by rewrite lookup_empty in Hm.
Qed.

(** ** Paths below a directory *)

Lemma substring_whole (str : string) :
  String.substring 0 (String.length str) str = str.
Proof. induction str as [|c str IH]; simpl; [done | by rewrite IH]. Qed.

Lemma prefix_append (dir rest : string) : String.prefix dir (dir +:+ rest) = true.
Proof.
  induction dir as [|c dir IH]; simpl; [by destruct rest|].
  by destruct (Ascii.ascii_dec c c).
Qed.

Lemma prefix_refl (str : string) : String.prefix str str = true.
Proof.
  induction str as [|c str IH]; simpl; [done|].
  by destruct (Ascii.ascii_dec c c).
Qed.

Lemma length_append (a b : string) :
  String.length (a +:+ b) = (String.length a + String.length b)%nat.
Proof. induction a as [|c a IH]; simpl; [done | by rewrite IH]. Qed.

Lemma starts_with_append (dir rest : string) : starts_with (dir +:+ rest) dir = true.
Proof.
  unfold starts_with. rewrite prefix_append, length_append.
  apply andb_true_intro; split; [apply Nat.leb_le; lia | done].
Qed.

Lemma substr_append (dir rel : string) (c : Ascii.ascii) :
  substr (dir +:+ String c rel) (String.length dir + 1) = Ok rel.
Proof.
  unfold substr. rewrite length_append; simpl.
  replace (String.length dir + 1 <=? String.length dir + S (String.length rel))%nat
    with true by (symmetry; apply Nat.leb_le; lia).
  f_equal.
  replace (String.length dir + S (String.length rel) - (String.length dir + 1))%nat
    with (String.length rel) by lia.
  induction dir as [|a dir IH]; simpl; [apply substring_whole | exact IH].
Qed.

Lemma substr_past_the_end (str : string) :
  substr str (String.length str + 1) = Fault out_of_range.
Proof.
  unfold substr.
  by replace (String.length str + 1 <=? String.length str)%nat
    with false by (symmetry; apply Nat.leb_gt; lia).
Qed.

(** An entry that is neither ignored nor circular, with a reader whose
    paths are both resolved, is the push followed by the registration. *)
Lemma start_preprocess_file_registers (clock : nat -> TimeStamp) (file f d : string)
    (r : cpp_reader) (s : Tracker) :
  String.eqb file "<command-line>" = false ->
  count (preprocess_start s) file && negb (count (preprocess_end s) file) = false ->
  real_dir_name r = Some d -> real_file_name r = Some f ->
  start_preprocess_file clock (Some file) (Some r) s =
    register_include_location f d (entered clock file s).
Proof.
  intros Hcmd Hcirc Hd Hf.
  unfold start_preprocess_file, entered, pushed_identity, ns_from_start.
  cbn [ticks preprocess_start preprocess_end set_ticks].
  rewrite Hcmd, Hcirc, Hd, Hf.
  by destruct (count (preprocess_start s) file).
Qed.

(** X3. Round trip of a registration: a new file whose real path is the
    directory it was included from, one more character, and a rest that
    is not in use as a display name, is answered by that rest by
    [normalized_file_name] once the call has returned. The character
    after the directory is not compared with a path separator. *)
Theorem new_file_below_its_directory_is_answered_by_the_rest
    (clock : nat -> TimeStamp) (cs : list call) (s : Tracker)
    (name dir rel : string) (c : Ascii.ascii) (r : cpp_reader) :
  run clock cs initial = Ok s ->
  String.eqb name "<command-line>" = false ->
  count (preprocess_start s) name && negb (count (preprocess_end s) name) = false ->
  real_dir_name r = Some dir ->
  real_file_name r = Some (dir +:+ String c rel) ->
  file_to_include_directory s !! (dir +:+ String c rel) = None ->
  rel ∉ normalized_files s ->
  exists s', step clock (enter_file (Some name) (Some r)) s = Ok s' /\
             normalized_files_map s' !! (dir +:+ String c rel) = Some rel /\
             normalized_file_name (dir +:+ String c rel) s' = rel.
Proof.
  intros Hrun Hcmd Hcirc Hd Hf Hnew Hrel.
  pose proof (run_normalizer_inv clock cs initial s Hrun normalizer_inv_initial) as Hinv.
  simpl. rewrite (start_preprocess_file_registers clock name _ _ r s Hcmd Hcirc Hd Hf).
  set (s1 := entered clock name s).
  assert (Hent : normalizer s1 = normalizer s) by apply entered_normalizer.
  clearbody s1. injection Hent as E1 E2 E3 E4.
  unfold register_include_location, count. rewrite E1, Hnew.
  cbn [set_file_to_include_directory file_to_include_directory].
  rewrite lookup_total_insert_eq, starts_with_append, substr_append; simpl.
  unfold count_set. rewrite E3, bool_decide_eq_false_2 by done.
  eexists; split; [reflexivity|]. simpl.
  unfold normalized_file_name, count, count_set; simpl.
  rewrite lookup_total_insert_eq, lookup_insert_eq, E4.
  rewrite bool_decide_eq_false_2; [done|].
  intros Hc. apply Hrel. by apply (conflicted_named s Hinv).
Qed.

Lemma register_include_location_registered (file dir : string) (s s' : Tracker) :
  register_include_location file dir s = Ok s' ->
  is_Some (file_to_include_directory s' !! file).
Proof.
  unfold register_include_location, count.
  destruct (file_to_include_directory s !! file) as [d|] eqn:Hreg.
  { intros [= <-]. by rewrite Hreg. }
  cbn [set_file_to_include_directory file_to_include_directory].
  rewrite lookup_total_insert_eq.
  destruct (starts_with file dir).
  - destruct (substr file (String.length dir + 1)) as [n|]; simpl; [|discriminate].
    destruct (count_set _ _); intros [= <-]; simpl; rewrite lookup_insert_eq; eauto.
  - intros [= <-]; simpl. rewrite lookup_insert_eq; eauto.
Qed.

(** X4. [register_include_location] throws in one case only: the file is
    new and the directory given for it is the file's own path, so that
    the position after the separator is past the end of the path; the
    error is then [std::out_of_range]. *)
Theorem registration_throws_only_for_a_file_that_is_its_directory
    (file dir : string) (s : Tracker) (e : fault) :
  register_include_location file dir s = Fault e <->
  file_to_include_directory s !! file = None /\ file = dir /\ e = out_of_range.
Proof.
  split.
  - intros Hthrow.
    destruct (decide (file = dir)) as [->|Hne].
    2:{ destruct (register_include_location_total file dir s Hne) as [s' Hs'].
        congruence. }
    revert Hthrow. unfold register_include_location, count.
    destruct (file_to_include_directory s !! dir); [discriminate|].
    cbn [set_file_to_include_directory file_to_include_directory].
    rewrite lookup_total_insert_eq.
    destruct (starts_with dir dir); [|discriminate].
    rewrite substr_past_the_end; simpl. by intros [= <-].
  - intros (Hnew & -> & ->).
    unfold register_include_location, count. rewrite Hnew.
    cbn [set_file_to_include_directory file_to_include_directory].
    rewrite lookup_total_insert_eq.
    replace (starts_with dir dir) with true.
    + by rewrite substr_past_the_end.
    + symmetry. unfold starts_with. by rewrite Nat.leb_refl, prefix_refl.
Qed.

(** X5. A new file that does not start with the directory given for it
    is reported on the error stream and gets no display name, neither
    then nor by any later call: [normalized_file_name] keeps answering
    its path. *)
Theorem file_outside_its_directory_is_never_renamed (clock : nat -> TimeStamp)
    (pre : list call) (s : Tracker) (file dir : string) :
  run clock pre initial = Ok s ->
  file_to_include_directory s !! file = None ->
  starts_with file dir = false ->
  exists s1,
    register_include_location file dir s = Ok s1 /\
    stderr s1 = stderr s ++ [cant_normalize file dir] /\
    forall post s2, run clock post s1 = Ok s2 -> normalized_file_name file s2 = file.
Proof.
  intros Hrun Hnew Hpre.
  pose proof (run_normalizer_inv clock pre initial s Hrun normalizer_inv_initial) as Hinv.
  assert (Hname : normalized_files_map s !! file = None).
  { destruct (normalized_files_map s !! file) as [n|] eqn:Hn; [|done].
    destruct (named_registered s Hinv file) as [d Hd]; [by eexists | congruence]. }
  unfold register_include_location, count. rewrite Hnew.
  cbn [set_file_to_include_directory file_to_include_directory].
  rewrite lookup_total_insert_eq, Hpre.
  eexists; split; [reflexivity|]. split; [done|].
  intros post s2 Hpost.
  apply run_normalizer_extends in Hpost as (Hext & _).
  assert (Hreg : is_Some (file_to_include_directory
    (warn (cant_normalize file dir)
       (set_file_to_include_directory (<[file:=dir]> (file_to_include_directory s)) s)) !! file))
    by (simpl; rewrite lookup_insert_eq; eauto).
  destruct (Hext file Hreg) as [_ Hsame].
  simpl in Hsame. unfold normalized_file_name, count. by rewrite Hsame, Hname.
Qed.

(** X6. The first registration of a file wins: whatever calls follow it,
    registering the same file again, from any directory, changes
    nothing. *)
Theorem first_registration_of_a_file_wins (clock : nat -> TimeStamp)
    (file dir dir' : string) (s s1 s2 : Tracker) (cs : list call) :
  register_include_location file dir s = Ok s1 ->
  run clock cs s1 = Ok s2 ->
  register_include_location file dir' s2 = Ok s2.
Proof.
  intros Hreg Hrun.
  apply register_include_location_registered in Hreg.
  apply run_normalizer_extends in Hrun as (Hext & _).
  destruct (Hext file Hreg) as [[d Hd] _].
  unfold register_include_location, count. by rewrite Hd.
Qed.

(** * More of the preprocessing stack *)

Section Drain.
Variable clock : nat -> TimeStamp.

(** What the loop of [finish_preprocessing_stage] does to a stack of any
    depth: two readings of the clock for each frame; starts untouched;
    recorded ends kept; a frame whose file has no end yet, and is not
    also higher on the stack, gets the first of its two readings. *)
Lemma finish_preprocessing_loop_drains (fuel : nat) (s : Tracker) :
  (length (preprocessing_stack s) <= fuel)%nat ->
  exists s',
    finish_preprocessing_loop clock fuel s = Ok s' /\
    preprocessing_stack s' = [] /\
    ticks s' = (ticks s + 2 * length (preprocessing_stack s))%nat /\
    preprocess_start s' = preprocess_start s /\
    (forall f t, preprocess_end s !! f = Some t -> preprocess_end s' !! f = Some t) /\
    (forall f, f ∉ preprocessing_stack s -> preprocess_end s' !! f = preprocess_end s !! f) /\
    (forall i f, preprocessing_stack s !! i = Some f ->
                 preprocess_end s !! f = None ->
                 f ∉ take i (preprocessing_stack s) ->
                 preprocess_end s' !! f = Some (clock (ticks s + 2 * i)%nat)) /\
    (preprocessing_stack s <> [] ->
     last_function_parsed_ts s' =
       clock (ticks s + 2 * length (preprocessing_stack s) - 1)%nat).
Proof.
  revert s; induction fuel as [|fuel IH]; intros s Hfuel.
  - destruct (preprocessing_stack s) as [|top below] eqn:Hstack; [|simpl in Hfuel; lia].
    exists s. simpl. rewrite Hstack. split_and!; try done; try lia;
      intros i f Hi; by rewrite lookup_nil in Hi.
  - destruct (preprocessing_stack s) as [|top below] eqn:Hstack.
    { exists s. simpl. rewrite Hstack. split_and!; try done; try lia;
        intros i f Hi; by rewrite lookup_nil in Hi. }
    simpl. rewrite Hstack.
    destruct (end_preprocess_file clock s) as [s1|e] eqn:Hend.
    2:{ unfold end_preprocess_file in Hend; simpl in Hend. by rewrite Hstack in Hend. }
    destruct (end_preprocess_file_preprocessing clock s s1 Hend)
      as (top' & below' & Hst & Hticks & Hstart & Hends & Hstack1 & _).
    rewrite Hstack in Hst. injection Hst as <- <-.
    simpl.
    set (s2 := set_last_function_parsed_ts (clock (ticks s1)) (set_ticks (S (ticks s1)) s1)).
    assert (Hs2a : preprocess_start s2 = preprocess_start s1) by done.
    assert (Hs2b : preprocess_end s2 = preprocess_end s1) by done.
    assert (Hs2c : preprocessing_stack s2 = preprocessing_stack s1) by done.
    assert (Hticks2 : ticks s2 = S (S (ticks s))) by (simpl; by rewrite Hticks).
    assert (Hcursor2 : last_function_parsed_ts s2 = clock (S (ticks s)))
      by (simpl; by rewrite Hticks).
    clearbody s2.
    destruct (IH s2) as (s' & Hrun & Hempty & Hticks' & Hstart' & Hkept & Hoff & Hon & Hcur).
    { rewrite Hs2c, Hstack1. simpl in Hfuel. lia. }
    rewrite Hs2c, Hstack1 in *. rewrite Hs2b, Hends in *. rewrite Hs2a, Hstart in *.
    exists s'. split_and!; try done.
    + rewrite Hticks', Hticks2. simpl. lia.
    + intros f t Hf. apply Hkept.
      unfold count. destruct (preprocess_end s !! top) eqn:Htop; [done|].
      destruct (decide (f = top)) as [->|Hne]; [congruence|].
      by rewrite lookup_insert_ne.
    + intros f Hf. apply not_elem_of_cons in Hf as [Hne Hf].
      rewrite (Hoff f Hf). unfold count.
      destruct (preprocess_end s !! top); [done|]. by rewrite lookup_insert_ne.
    + intros [|i] f Hi Hnone Hfirst; simpl in Hi.
      * injection Hi as ->. apply Hkept. unfold count. rewrite Hnone; simpl.
        rewrite lookup_insert_eq. do 2 f_equal. lia.
      * simpl in Hfirst. apply not_elem_of_cons in Hfirst as [Hne Hfirst].
        rewrite (Hon i f); [do 2 f_equal; lia | done | | done].
        unfold count.
        destruct (preprocess_end s !! top); [done|]. by rewrite lookup_insert_ne.
    + intros _. destruct below as [|next below].
      * destruct fuel; simpl in Hrun; rewrite Hs2c in Hrun;
          injection Hrun as <-; rewrite Hcursor2; f_equal; simpl; lia.
      * rewrite Hcur by done. f_equal. simpl. lia.
Qed.

End Drain.

(** X7. [finish_preprocessing_stage] always returns, with the stack
    empty, after two readings of the clock for each frame. The starts
    are untouched and every recorded end is kept; a file off the stack is
    left as it was; the frame at depth [i] whose file has no end yet, and
    is not also higher on the stack, gets the reading number [2 * i]
    from the one the stage starts at. When there was a frame, the cursor
    of the function tracker is left at the last reading, with no
    nanoseconds added. *)
Theorem finish_preprocessing_stage_closes_every_frame (clock : nat -> TimeStamp)
    (s : Tracker) :
  exists s',
    finish_preprocessing_stage clock s = Ok s' /\
    preprocessing_stack s' = [] /\
    ticks s' = (ticks s + 2 * length (preprocessing_stack s))%nat /\
    preprocess_start s' = preprocess_start s /\
    (forall f t, preprocess_end s !! f = Some t -> preprocess_end s' !! f = Some t) /\
    (forall f, f ∉ preprocessing_stack s -> preprocess_end s' !! f = preprocess_end s !! f) /\
    (forall i f, preprocessing_stack s !! i = Some f ->
                 preprocess_end s !! f = None ->
                 f ∉ take i (preprocessing_stack s) ->
                 preprocess_end s' !! f = Some (clock (ticks s + 2 * i)%nat)) /\
    (preprocessing_stack s <> [] ->
     last_function_parsed_ts s' =
       clock (ticks s + 2 * length (preprocessing_stack s) - 1)%nat).
Proof.
  by apply finish_preprocessing_loop_drains.
Qed.

(** X8. Draining twice is draining once: on the tracker that
    [finish_preprocessing_stage] returns, the stage changes nothing and
    reads no clock, which is why [write_preprocessing_events] can call it
    again. *)
Theorem finish_preprocessing_stage_twice (clock : nat -> TimeStamp) (s : Tracker) :
  (let* s1 := finish_preprocessing_stage clock s in
   finish_preprocessing_stage clock s1) = finish_preprocessing_stage clock s.
Proof.
  destruct (finish_preprocessing_stage_spec clock s) as (s1 & Hs1 & Hempty).
  rewrite Hs1; simpl. by apply finish_preprocessing_stage_drained.
Qed.

(** * More of the pass tracker *)

Lemma chain_snoc {A : Type} (R : A -> A -> Prop) (l : list A) (x : A) :
  (forall i a b, l !! i = Some a -> l !! S i = Some b -> R a b) ->
  (forall a, last l = Some a -> R a x) ->
  forall i a b, (l ++ [x]) !! i = Some a -> (l ++ [x]) !! S i = Some b -> R a b.
Proof.
  intros Hl Hx i a b Ha Hb.
  destruct (decide (S i < length l)%nat) as [Hlt|Hge].
  - rewrite lookup_app_l in Ha, Hb by lia. by eapply Hl.
  - assert (S i = length l) as Hi.
    { apply lookup_lt_Some in Hb. rewrite length_app in Hb; simpl in Hb. lia. }
    rewrite lookup_app_l in Ha by lia.
    rewrite Hi, lookup_app_r, Nat.sub_diag in Hb by lia. injection Hb as <-.
    apply Hx. rewrite last_lookup. rewrite <- Hi. exact Ha.
Qed.

Section PassChains.
Variable clock : nat -> TimeStamp.

(** Calls other than [enter_pass] leave the pass tracker alone. *)
Lemma step_passes (c : call) (s s' : Tracker) :
  entered_pass c = None -> step clock c s = Ok s' ->
  pass_events s' = pass_events s /\ last_pass s' = last_pass s.
Proof.
  destruct c as [file_name pfile| | |p|info]; simpl; intros Hc; [| | |done|].
  - destruct file_name as [file|]; [|by intros [= <-]].
    destruct (String.eqb file "<command-line>") eqn:Hcmd.
    { unfold start_preprocess_file; simpl. rewrite Hcmd. by intros [= <-]. }
    intros (a & b & c & d & e & ->)%start_preprocess_file_frame; [|done].
    unfold entered; simpl. by destruct (count _ _).
  - unfold end_preprocess_file; simpl.
    destruct (preprocessing_stack s) as [|top below]; [discriminate|].
    destruct (count (preprocess_end s) top); by intros [= <-].
  - apply finish_preprocessing_loop_passes.
  - intros [= <-]. unfold end_parse_function; simpl.
    destruct (ff_scope_name info); [|done]. by destruct (same_scope_as_back _ _).
Qed.

(** No call turns the clock back. *)
Lemma step_ticks (c : call) (s s' : Tracker) :
  step clock c s = Ok s' -> (ticks s <= ticks s')%nat.
Proof.
  destruct c as [file_name pfile| | |p|info]; simpl.
  - destruct file_name as [file|].
    2:{ intros [= <-]; simpl; lia. }
    destruct (String.eqb file "<command-line>") eqn:Hcmd.
    { unfold start_preprocess_file; simpl. rewrite Hcmd. intros [= <-]; simpl; lia. }
    intros (a & b & c & d & e & ->)%start_preprocess_file_frame; [|done].
    unfold entered; simpl. destruct (count _ _); simpl; lia.
  - intros (top & below & _ & -> & _)%end_preprocess_file_preprocessing. lia.
  - intros Hrun.
    destruct (finish_preprocessing_loop_drains clock _ s (Nat.le_refl _))
      as (s1 & Hs1 & _ & Hticks & _).
    unfold finish_preprocessing_stage in Hrun. rewrite Hrun in Hs1.
    injection Hs1 as <-. lia.
  - intros [= <-]. destruct (start_opt_pass_spec clock p s) as (_ & _ & ->). lia.
  - intros [= <-]. destruct (end_parse_function_spec clock info s) as (-> & _). lia.
Qed.

Lemma start_opt_pass_held (p : option opt_pass) (s : Tracker) :
  passes_held (start_opt_pass clock p s) =
    passes_held s ++ match p with Some q => [q] | None => [] end.
Proof.
  unfold passes_held.
  destruct (start_opt_pass_spec clock p s) as (-> & -> & _).
  rewrite !omap_app; simpl.
  destruct (pass (last_pass s)) as [q|] eqn:Hq; rewrite ?omap_app; simpl; rewrite ?Hq;
    destruct p; simpl; by rewrite <- ?app_assoc.
Qed.

Lemma step_passes_held (c : call) (s s' : Tracker) :
  step clock c s = Ok s' ->
  passes_held s' = passes_held s ++ omap id (passes_entered [c]) /\
  pass (last_pass s') = default (pass (last_pass s)) (entered_pass c).
Proof.
  intros Hstep. unfold passes_entered; simpl.
  destruct (entered_pass c) as [p|] eqn:Hc.
  - destruct c; try discriminate. injection Hc as ->. injection Hstep as <-.
    split; [rewrite start_opt_pass_held; by destruct p|].
    by destruct (start_opt_pass_spec clock p s) as (_ & -> & _).
  - destruct (step_passes c s s' Hc Hstep) as [Hp Hl].
    unfold passes_held. by rewrite Hp, Hl, app_nil_r.
Qed.

Lemma run_passes_held (cs : list call) (s s' : Tracker) :
  run clock cs s = Ok s' ->
  passes_held s' = passes_held s ++ omap id (passes_entered cs) /\
  pass (last_pass s') = default (pass (last_pass s)) (last (passes_entered cs)).
Proof.
  revert s; induction cs as [|c cs IH]; intros s H; unfold run in H; simpl in H.
  { injection H as <-. simpl. by rewrite app_nil_r. }
  apply bind_ok in H as (s1 & H1 & H2).
  destruct (IH s1 H2) as [Hheld Hopen].
  destruct (step_passes_held c s s1 H1) as [Hheld1 Hopen1].
  rewrite Hheld, Hopen, Hheld1, Hopen1.
  replace (passes_entered (c :: cs)) with (passes_entered [c] ++ passes_entered cs)
    by (unfold passes_entered; simpl; by destruct (entered_pass c)).
  rewrite omap_app, app_assoc. split; [done|].
  unfold passes_entered at 2; simpl.
  destruct (entered_pass c) as [p|]; simpl; [|done].
  by destruct (passes_entered cs) as [|q l] using rev_ind;
    [|rewrite app_comm_cons, !last_snoc].
Qed.

(** Entering a pass keeps the spans one nanosecond apart, as long as the
    pass that it finds open is a real one whenever passes are pending. *)
Lemma start_opt_pass_one_later (p : option opt_pass) (s : Tracker) :
  (pass (last_pass s) = None -> pass_events s = []) ->
  pass_chain one_later s -> pass_chain one_later (start_opt_pass clock p s).
Proof.
  intros Hopen [Hpend Hlast].
  destruct (start_opt_pass_spec clock p s) as (Hev & Hlp & _).
  split; rewrite Hev, ?Hlp; simpl.
  - destruct (pass (last_pass s)) as [q|]; [|done].
    apply chain_snoc; [done|]. intros a Ha. by apply Hlast.
  - destruct (pass (last_pass s)) as [q|].
    + intros a. rewrite last_snoc. by intros [= <-].
    + rewrite Hopen by done. by intros a.
Qed.

(** On a clock that never goes back, entering a pass keeps the spans at
    least one nanosecond apart. *)
Lemma start_opt_pass_later (p : option opt_pass) (s : Tracker) :
  monotone clock ->
  (forall a, last (pass_events s) = Some a -> past clock s (end_ (ope_ts a))) ->
  pass_chain later s ->
  pass_chain later (start_opt_pass clock p s) /\
  (forall a, last (pass_events (start_opt_pass clock p s)) = Some a ->
             past clock (start_opt_pass clock p s) (end_ (ope_ts a))).
Proof.
  intros Hmono Hpast [Hpend Hlast].
  destruct (start_opt_pass_spec clock p s) as (Hev & Hlp & Hticks).
  split; [split|]; rewrite Hev, ?Hlp; simpl.
  - destruct (pass (last_pass s)) as [q|]; [|done].
    apply chain_snoc; [done|]. intros a Ha. by apply Hlast.
  - destruct (pass (last_pass s)) as [q|].
    + intros a. rewrite last_snoc. intros [= <-]. unfold later; simpl. lia.
    + intros a Ha. unfold later. pose proof (Hpast a Ha (ticks s)). lia.
  - destruct (pass (last_pass s)) as [q|].
    + intros a. rewrite last_snoc. intros [= <-]; simpl.
      apply (past_reading clock s); [done | lia].
    + intros a Ha. apply (past_later clock s); [lia | by apply Hpast].
Qed.

Lemma pass_chain_same (gap : TimeStamp -> TimeStamp -> Prop) (s s' : Tracker) :
  pass_events s' = pass_events s -> last_pass s' = last_pass s ->
  pass_chain gap s -> pass_chain gap s'.
Proof. intros H1 H2 [Ha Hb]. split; rewrite ?H1, ?H2; auto. Qed.

Lemma run_one_later (cs : list call) (s s' : Tracker) :
  run clock cs s = Ok s' ->
  Forall is_Some (passes_entered cs) ->
  (pass (last_pass s) = None -> pass_events s = []) ->
  pass_chain one_later s ->
  pass_chain one_later s' /\ (pass (last_pass s') = None -> pass_events s' = []).
Proof.
  revert s; induction cs as [|c cs IH]; intros s H; unfold run in H; simpl in H.
  { by injection H as <-. }
  apply bind_ok in H as (s1 & H1 & H2).
  unfold passes_entered; simpl. intros Hall Hopen Hchain.
  destruct (entered_pass c) as [p|] eqn:Hc.
  - apply Forall_cons in Hall as [[q ->] Hall].
    destruct c; try discriminate. injection Hc as ->. injection H1 as <-.
    apply (IH _ H2 Hall).
    + by destruct (start_opt_pass_spec clock (Some q) s) as (_ & -> & _).
    + by apply start_opt_pass_one_later.
  - destruct (step_passes c s s1 Hc H1) as [Hp Hl].
    apply (IH _ H2 Hall).
    + by rewrite Hp, Hl.
    + by apply (pass_chain_same one_later s).
Qed.

Lemma step_later (c : call) (s s' : Tracker) :
  monotone clock ->
  step clock c s = Ok s' ->
  pass_chain later s /\ last_pending_past clock s ->
  pass_chain later s' /\ last_pending_past clock s'.
Proof.
  intros Hmono Hstep [Hchain Hpast].
  destruct (entered_pass c) as [p|] eqn:Hc.
  - destruct c; try discriminate. injection Hc as ->. injection Hstep as <-.
    by apply start_opt_pass_later.
  - destruct (step_passes c s s' Hc Hstep) as [Hp Hl].
    split; [by apply (pass_chain_same later s)|].
    intros a Ha. rewrite Hp in Ha.
    apply (past_later clock s); [by eapply step_ticks | by apply Hpast].
Qed.

End PassChains.

(** X9. No pass is lost or reordered: in every tracker reached by calls,
    the pending passes followed by the open one are the passes given to
    [enter_pass], in the order of the calls, the null ones left out; the
    open pass is the one given last, and every pending pass is a real
    one. *)
Theorem pending_and_open_passes_are_the_passes_entered (clock : nat -> TimeStamp)
    (cs : list call) (s : Tracker) :
  run clock cs initial = Ok s ->
  passes_held s = omap id (passes_entered cs) /\
  pass (last_pass s) = default None (last (passes_entered cs)) /\
  Forall (fun e => is_Some (pass e)) (pass_events s).
Proof.
  intros Hrun.
  destruct (run_passes_held clock cs initial s Hrun) as [Hheld Hopen].
  split; [done|]. split; [done|].
  apply (run_closed_passes_named clock cs initial s Hrun). constructor.
Qed.

(** * More of the function and scope tracker *)

Section FunctionsAndScopes.
Variable clock : nat -> TimeStamp.

(** Where the cursor is after a call that is not a [finish_function]:
    where it was, or at a reading of the call, or three nanoseconds
    after one. *)
Lemma step_cursor (c : call) (s s' : Tracker) :
  is_finish_function c = false -> step clock c s = Ok s' ->
  last_function_parsed_ts s' = last_function_parsed_ts s \/
  exists n, (ticks s <= n)%nat /\
            (last_function_parsed_ts s' = clock n \/
             last_function_parsed_ts s' = clock n + 3).
Proof.
  destruct c as [file_name pfile| | |p|info]; simpl; intros Hc; [| | | |done].
  - destruct file_name as [file|]; [|intros [= <-]; by left].
    destruct (String.eqb file "<command-line>") eqn:Hcmd.
    { unfold start_preprocess_file; simpl. rewrite Hcmd. intros [= <-]; by left. }
    intros (a & b & c & d & e & ->)%start_preprocess_file_frame; [|done].
    left. unfold entered; simpl. by destruct (count _ _).
  - intros (top & below & _ & _ & _ & _ & _ & ->)%end_preprocess_file_preprocessing.
    right. exists (ticks s). split; [lia | by right].
  - intros Hrun.
    destruct (finish_preprocessing_loop_drains clock _ s (Nat.le_refl _))
      as (s1 & Hs1 & _ & _ & _ & _ & _ & _ & Hcur).
    unfold finish_preprocessing_stage in Hrun. rewrite Hrun in Hs1.
    injection Hs1 as <-.
    destruct (preprocessing_stack s) as [|top below] eqn:Hstack.
    + left. simpl in Hrun. rewrite Hstack in Hrun. by injection Hrun as <-.
    + right. eexists. split; [|left; by apply Hcur]. simpl. lia.
  - intros [= <-]. left. unfold start_opt_pass; simpl. by destruct (pass (last_pass s)).
Qed.

Lemma step_spans_apart (c : call) (s s' : Tracker) :
  monotone clock ->
  step clock c s = Ok s' -> spans_apart clock s -> spans_apart clock s'.
Proof.
  intros Hmono Hstep [Hf Hfl Hs Hsl].
  destruct (is_finish_function c) eqn:Hc.
  - destruct c; try discriminate. injection Hstep as <-.
    destruct (end_parse_function_spec clock info s) as (Hticks & Hcur & Hfe & Hse & _).
    unfold parsed_span in *; simpl in *.
    assert (Hnow : past clock (end_parse_function clock info s) (clock (ticks s)))
      by (apply (past_reading clock s); [done | lia]).
    split; rewrite ?Hfe, ?Hse, ?Hcur.
    + apply (chain_snoc (fun a b => end_ (fe_ts a) + 3 <= start (fe_ts b))); [done|].
      intros a Ha. destruct (Hfl a Ha) as [Hle _]. simpl. lia.
    + intros a. rewrite last_snoc. by intros [= <-].
    + destruct (ff_scope_name info) as [scope_name|]; [|done].
      destruct (same_scope_as_back scope_name s) eqn:Hsame.
      * unfold same_scope_as_back in Hsame.
        destruct (scope_events s) as [|x l _] using rev_ind; [done|].
        rewrite update_back_snoc.
        intros i a b Ha Hb.
        destruct (decide (S i < length l)%nat) as [Hlt|Hge].
        { rewrite lookup_app_l in Ha, Hb by lia.
          apply (Hs i); by rewrite lookup_app_l by lia. }
        assert (S i = length l) as Hi.
        { apply lookup_lt_Some in Hb. rewrite length_app in Hb; simpl in Hb. lia. }
        rewrite lookup_app_l in Ha by lia.
        rewrite Hi, lookup_app_r, Nat.sub_diag in Hb by lia. injection Hb as <-.
        simpl. apply (Hs i a x); [by rewrite lookup_app_l by lia|].
        by rewrite Hi, lookup_app_r, Nat.sub_diag by lia.
      * apply (chain_snoc (fun a b => end_ (se_ts a) + 1 <= start (se_ts b))); [done|].
        intros a Ha. destruct (Hsl a Ha) as [Hle _]. unfold opened_scope; simpl. lia.
    + destruct (ff_scope_name info) as [scope_name|].
      * destruct (same_scope_as_back scope_name s).
        -- intros a. rewrite last_update_back.
           destruct (last (scope_events s)); [|done]. intros [= <-]; simpl.
           split; [lia|]. by replace (clock (ticks s) + 1 - 1) with (clock (ticks s)) by lia.
        -- intros a. rewrite last_snoc. intros [= <-]; unfold opened_scope; simpl.
           split; [lia|]. by replace (clock (ticks s) + 1 - 1) with (clock (ticks s)) by lia.
      * intros a Ha. destruct (Hsl a Ha) as [_ Hp]. split.
        -- pose proof (Hp (ticks s)). lia.
        -- apply (past_later clock s); [lia | done].
  - pose proof (step_scopes clock c s s' Hc Hstep) as [= Hse Hfe _].
    pose proof (step_ticks clock c s s' Hstep) as Hticks.
    split; rewrite ?Hse, ?Hfe; try done.
    + intros a Ha. destruct (Hfl a Ha) as [Hle Hp].
      split; [|by apply (past_later clock s)].
      destruct (step_cursor c s s' Hc Hstep) as [->|(n & Hn & [->| ->])]; [done| |];
        pose proof (Hp n Hn); lia.
    + intros a Ha. destruct (Hsl a Ha) as [Hle Hp].
      split; [|by apply (past_later clock s)].
      destruct (step_cursor c s s' Hc Hstep) as [->|(n & Hn & [->| ->])]; [done| |];
        pose proof (Hp n Hn); lia.
Qed.

Lemma step_functions (c : call) (s s' : Tracker) :
  step clock c s = Ok s' ->
  map (fun e => (fe_name e, fe_file_name e)) (function_events s') =
    map (fun e => (fe_name e, fe_file_name e)) (function_events s) ++
    map (fun info => (ff_name info, ff_file_name info)) (functions_finished [c]).
Proof.
  intros Hstep. destruct (is_finish_function c) eqn:Hc.
  - destruct c; try discriminate. injection Hstep as <-.
    destruct (end_parse_function_spec clock info s) as (_ & _ & -> & _).
    by rewrite map_app.
  - pose proof (step_scopes clock c s s' Hc Hstep) as [= _ -> _].
    destruct c; try discriminate; by rewrite app_nil_r.
Qed.

Lemma run_functions (cs : list call) (s0 s : Tracker) :
  run clock cs s0 = Ok s ->
  map (fun e => (fe_name e, fe_file_name e)) (function_events s) =
    map (fun e => (fe_name e, fe_file_name e)) (function_events s0) ++
    map (fun info => (ff_name info, ff_file_name info)) (functions_finished cs).
Proof.
  revert s0; induction cs as [|c cs IH]; intros s0 H; unfold run in H; simpl in H.
  { injection H as <-. by rewrite app_nil_r. }
  apply bind_ok in H as (s1 & H1 & H2).
  rewrite (IH s1 H2), (step_functions c s0 s1 H1), <- app_assoc, <- map_app.
  do 2 f_equal. unfold functions_finished; simpl. by destruct (finished c).
Qed.

End FunctionsAndScopes.

(** X12. No function is lost, invented or reordered: in every tracker
    reached by calls, the function events carry the names and the files
    of the functions given to [finish_function], in the order of the
    calls, and [write_all_functions] emits one FUNCTION event for each. *)
Theorem function_events_are_the_functions_finished (clock : nat -> TimeStamp)
    (cs : list call) (s : Tracker) :
  run clock cs initial = Ok s ->
  map (fun e => (fe_name e, fe_file_name e)) (function_events s) =
    map (fun info => (ff_name info, ff_file_name info)) (functions_finished cs) /\
  map te_name (drop (length (events s)) (events (write_all_functions s))) =
    map ff_name (functions_finished cs).
Proof.
  intros Hrun.
  pose proof (run_functions clock cs initial s Hrun) as Hnames.
  simpl in Hnames. split; [done|].
  rewrite write_all_functions_spec; simpl.
  rewrite drop_app_length, map_map; simpl.
  apply (f_equal (map fst)) in Hnames. by rewrite !map_map in Hnames.
Qed.

(** X14. A function without a scope closes the accumulator: a function of
    scope [n], then a function without a scope, then a function of the
    same scope [n] give two scope events named [n], the second one
    around the third function only. *)
Theorem unscoped_function_splits_the_scope (clock : nat -> TimeStamp)
    (s s1' s2' : Tracker) (info1 info2 info3 : FinishedFunction) (n : string)
    (mid1 mid2 : list call) :
  ff_scope_name info1 = Some n ->
  ff_scope_name info2 = None ->
  ff_scope_name info3 = Some n ->
  forallb (fun c => negb (is_finish_function c)) mid1 = true ->
  forallb (fun c => negb (is_finish_function c)) mid2 = true ->
  run clock mid1 (end_parse_function clock info1 s) = Ok s1' ->
  run clock mid2 (end_parse_function clock info2 s1') = Ok s2' ->
  scope_events (end_parse_function clock info3 s2') =
    scope_events (end_parse_function clock info1 s) ++
      [opened_scope n (ff_scope_type info3) (parsed_span clock s2')].
Proof.
  intros Hn1 Hn2 Hn3 Hmid1 Hmid2 Hrun1 Hrun2.
  pose proof (run_scopes clock mid1 _ _ Hmid1 Hrun1) as [= Hse1 _ _].
  pose proof (run_scopes clock mid2 _ _ Hmid2 Hrun2) as [= Hse2 _ Hdid2].
  destruct (end_parse_function_spec clock info2 s1') as (_ & _ & _ & Hsc2 & Hd2).
  destruct (end_parse_function_spec clock info3 s2') as (_ & _ & _ & Hsc3 & _).
  rewrite Hn2 in Hsc2, Hd2. rewrite Hn3 in Hsc3.
  rewrite Hsc3. unfold same_scope_as_back. rewrite Hdid2, Hd2.
  destruct (last (scope_events s2')); simpl; by rewrite Hse2, Hsc2, Hse1.
Qed.

(** * Nesting of the preprocessing records *)

Lemma nested_or_apart_sym (a b : Z * Z) : nested_or_apart a b -> nested_or_apart b a.
Proof. unfold nested_or_apart. tauto. Qed.

Section Nesting.
Variable clock : nat -> TimeStamp.
Hypothesis Hmono : monotone clock.

Lemma nesting_of_tick (tick tick' : nat) (starts ends : gmap string Z)
    (stack : list string) :
  (tick <= tick')%nat ->
  nesting_of clock tick starts ends stack -> nesting_of clock tick' starts ends stack.
Proof.
  intros Hle [Ha Hb Hc Hd]. split; try done.
  intros f t Hf n Hn. apply (Ha f t Hf). lia.
Qed.

(** Pushing a frame that opens nothing: the sentinel, or a file that
    has an end already. *)
Lemma nesting_of_push_closed (tick : nat) (starts ends : gmap string Z)
    (stack : list string) (f : string) :
  f = CIRCULAR_POISON_VALUE \/ is_Some (ends !! f) ->
  nesting_of clock tick starts ends stack ->
  nesting_of clock tick starts ends (f :: stack).
Proof.
  intros Hf [Ha Hb Hc Hd]. split; try done.
  intros [|i] [|j] g h a0 b0 Hlt Hi Hj; try lia; simpl in Hi, Hj.
  - injection Hi as <-. intros Hne _ _ Hnone.
    destruct Hf as [->|[t Ht]]; [done | congruence].
  - apply (Hd i j); [lia | done | done].
Qed.

(** A start or an end for the sentinel changes nothing. *)
Lemma nesting_of_poison_start (tick : nat) (starts ends : gmap string Z)
    (stack : list string) (t : Z) :
  nesting_of clock tick starts ends stack ->
  nesting_of clock tick (<[CIRCULAR_POISON_VALUE := t]> starts) ends stack.
Proof.
  intros [Ha Hb Hc Hd]. split; try done.
  - intros f g a0 a1 b0 b1 Hne Hf Hg. rewrite !lookup_insert_ne by done. by apply Hb.
  - intros f g a0 b0 b1 Hf Hg. rewrite !lookup_insert_ne by done. by apply Hc.
  - intros i j f g a0 b0 Hlt Hi Hj Hf Hg. rewrite !lookup_insert_ne by done.
    by apply (Hd i j).
Qed.

Lemma nesting_of_poison_end (tick : nat) (starts ends : gmap string Z)
    (stack : list string) :
  nesting_of clock tick starts ends stack ->
  nesting_of clock (S tick) starts (<[CIRCULAR_POISON_VALUE := clock tick]> ends) stack.
Proof.
  intros [Ha Hb Hc Hd]. split.
  - intros f t Hf n Hn. apply lookup_insert_Some in Hf as [[<- <-]|[_ Hf]].
    + apply monotone_le; [done | lia].
    + apply (Ha f t Hf). lia.
  - intros f g a0 a1 b0 b1 Hne Hf Hg. rewrite !lookup_insert_ne by done. by apply Hb.
  - intros f g a0 b0 b1 Hf Hg. rewrite !lookup_insert_ne by done. by apply Hc.
  - intros i j f g a0 b0 Hlt Hi Hj Hf Hg. rewrite !lookup_insert_ne by done.
    by apply (Hd i j).
Qed.

(** Pushing a file that has no start yet. *)
Lemma nesting_of_push_new (tick : nat) (starts ends : gmap string Z)
    (stack : list string) (file : string) :
  starts !! file = None -> ends !! file = None -> file ∉ stack ->
  (forall f t, starts !! f = Some t -> t <= clock tick) ->
  nesting_of clock tick starts ends stack ->
  nesting_of clock (S tick) (<[file := clock tick]> starts) ends (file :: stack).
Proof.
  intros Hnew Hopen Hoff Hstarts [Ha Hb Hc Hd]. split.
  - intros f t Hf n Hn. apply (Ha f t Hf). lia.
  - intros f g a0 a1 b0 b1 Hne Hf Hg Hf0 Hf1 Hg0 Hg1.
    assert (f <> file) by congruence. assert (g <> file) by congruence.
    rewrite lookup_insert_ne in Hf0, Hg0 by done. by apply (Hb f g).
  - intros f g a0 b0 b1 Hf Hg Hf0 Hf1 Hg0 Hg1.
    assert (g <> file) by congruence. rewrite lookup_insert_ne in Hg0 by done.
    apply lookup_insert_Some in Hf0 as [[<- <-]|[Hne Hf0]].
    + left. apply (Ha g b1 Hg1). lia.
    + by apply (Hc f g).
  - intros [|i] [|j] f g a0 b0 Hlt Hi Hj Hf Hg Hf0 Hf1 Hg0 Hg1; try lia;
      simpl in Hi, Hj.
    + injection Hi as <-. rewrite lookup_insert_eq in Hf0. injection Hf0 as <-.
      assert (g <> file).
      { intros ->. apply Hoff. by eapply list_elem_of_lookup_2. }
      rewrite lookup_insert_ne in Hg0 by done. by apply (Hstarts g).
    + assert (f <> file /\ g <> file) as [??].
      { split; intros ->; apply Hoff; by eapply list_elem_of_lookup_2. }
      rewrite lookup_insert_ne in Hf0, Hg0 by done.
      apply (Hd i j f g); try done. lia.
Qed.

(** Popping a frame that closes nothing. *)
Lemma nesting_of_pop_closed (tick : nat) (starts ends : gmap string Z)
    (top : string) (below : list string) :
  nesting_of clock tick starts ends (top :: below) ->
  nesting_of clock tick starts ends below.
Proof.
  intros [Ha Hb Hc Hd]. split; try done.
  intros i j f g a0 b0 Hlt Hi Hj. apply (Hd (S i) (S j)); [lia | done | done].
Qed.

(** Popping the frame of an open file, which closes it at the current
    reading. *)
Lemma nesting_of_pop_open (tick : nat) (starts ends : gmap string Z)
    (top : string) (below : list string) :
  top <> CIRCULAR_POISON_VALUE -> ends !! top = None ->
  (forall f, is_Some (starts !! f) -> ends !! f = None -> f ∈ top :: below) ->
  nesting_of clock tick starts ends (top :: below) ->
  nesting_of clock (S tick) starts (<[top := clock tick]> ends) below.
Proof.
  intros Htop Hopen Hon [Ha Hb Hc Hd].
  assert (Hclose : forall g a0 b0 b1,
            g <> top -> g <> CIRCULAR_POISON_VALUE ->
            starts !! top = Some a0 -> starts !! g = Some b0 -> ends !! g = Some b1 ->
            nested_or_apart (a0, clock tick) (b0, b1)).
  { intros g a0 b0 b1 Hne Hg Ht0 Hg0 Hg1. unfold nested_or_apart; simpl.
    pose proof (Ha g b1 Hg1 tick (Nat.le_refl _)).
    destruct (Hc top g a0 b0 b1 Htop Hg Ht0 Hopen Hg0 Hg1); [right; by left|].
    right; right; left. lia. }
  split.
  - intros f t Hf n Hn. apply lookup_insert_Some in Hf as [[<- <-]|[_ Hf]].
    + apply monotone_le; [done | lia].
    + apply (Ha f t Hf). lia.
  - intros f g a0 a1 b0 b1 Hne Hf Hg Hf0 Hf1 Hg0 Hg1.
    apply lookup_insert_Some in Hf1 as [[<- <-]|[Hft Hf1]];
      apply lookup_insert_Some in Hg1 as [[<- <-]|[Hgt Hg1]]; try done.
    + by apply (Hclose g).
    + apply nested_or_apart_sym. by apply (Hclose f).
    + by apply (Hb f g).
  - intros f g a0 b0 b1 Hf Hg Hf0 Hf1 Hg0 Hg1.
    apply lookup_insert_None in Hf1 as [Hf1 Hft].
    apply lookup_insert_Some in Hg1 as [[<- <-]|[Hgt Hg1]]; [|by apply (Hc f g)].
    right.
    assert (Hin : f ∈ top :: below) by (apply Hon; [by eexists | done]).
    apply elem_of_cons in Hin as [->|Hin]; [done|].
    apply list_elem_of_lookup_1 in Hin as [j Hj].
    apply (Hd 0%nat (S j) top f b0 a0); try done. lia.
  - intros i j f g a0 b0 Hlt Hi Hj Hf Hg Hf0 Hf1 Hg0 Hg1.
    apply lookup_insert_None in Hf1 as [Hf1 _].
    apply lookup_insert_None in Hg1 as [Hg1 _].
    apply (Hd (S i) (S j) f g); try done. lia.
Qed.

Lemma nesting_same (s s' : Tracker) :
  preprocessing s' = preprocessing s -> (ticks s <= ticks s')%nat ->
  nesting clock s -> nesting clock s'.
Proof.
  intros [= H1 H2 H3] Hle. unfold nesting. rewrite H1, H2, H3.
  by apply nesting_of_tick.
Qed.

Lemma start_preprocess_file_nesting (file_name : option string)
    (pfile : option cpp_reader) (s s' : Tracker) :
  start_preprocess_file clock file_name pfile s = Ok s' ->
  stack_inv s -> preprocess_timing clock s -> nesting clock s -> nesting clock s'.
Proof.
  intros Hstep Hinv Htime Hnest.
  assert (Hignored : forall x : Tracker,
            x = set_ticks (S (ticks s)) s -> nesting clock x).
  { intros x ->. apply (nesting_same s); [done | simpl; lia | done]. }
  destruct file_name as [file|].
  2:{ apply Hignored. unfold start_preprocess_file in Hstep; simpl in Hstep. congruence. }
  destruct (String.eqb file "<command-line>") eqn:Hcmd.
  { apply Hignored. unfold start_preprocess_file in Hstep; simpl in Hstep.
    rewrite Hcmd in Hstep. congruence. }
  destruct (start_preprocess_file_preprocessing clock file pfile s s' Hcmd Hstep)
    as (Hticks & Hstart & Hend & Hstack).
  unfold nesting. rewrite Hticks, Hstart, Hend, Hstack.
  unfold pushed_identity, count in *.
  destruct (preprocess_start s !! file) as [t0|] eqn:Hf0; simpl.
  - destruct (preprocess_end s !! file) as [t1|] eqn:Hf1; simpl.
    + rewrite Hf0. apply nesting_of_push_closed; [right; by eexists|].
      by apply (nesting_of_tick (ticks s)); [lia|].
    + destruct (preprocess_start s !! CIRCULAR_POISON_VALUE).
      * apply nesting_of_push_closed; [by left|].
        by apply (nesting_of_tick (ticks s)); [lia|].
      * apply nesting_of_push_closed; [by left|]. apply nesting_of_poison_start.
        by apply (nesting_of_tick (ticks s)); [lia|].
  - rewrite Hf0.
    assert (Hf1 : preprocess_end s !! file = None).
    { destruct (preprocess_end s !! file) as [t1|] eqn:Hf1; [|done].
      destruct (ended_started s Hinv file) as [t Ht]; [by eexists | congruence]. }
    apply nesting_of_push_new; try done.
    + intros Hin. destruct (stack_started s Hinv file Hin). congruence.
    + intros f t Hf. by apply (start_past clock s Htime f t Hf).
Qed.

Lemma end_preprocess_file_nesting (s s' : Tracker) :
  end_preprocess_file clock s = Ok s' ->
  stack_inv s -> nesting clock s -> nesting clock s'.
Proof.
  intros Hstep Hinv Hnest.
  destruct (end_preprocess_file_preprocessing clock s s' Hstep)
    as (top & below & Hst & Hticks & Hstart & Hend & Hstack & _).
  unfold nesting in *. rewrite Hticks, Hstart, Hend, Hstack. rewrite Hst in Hnest.
  unfold count. destruct (preprocess_end s !! top) as [t|] eqn:Htop.
  - apply (nesting_of_tick (ticks s)); [lia|]. by eapply nesting_of_pop_closed.
  - destruct (decide (top = CIRCULAR_POISON_VALUE)) as [->|Hne].
    + apply nesting_of_poison_end. by eapply nesting_of_pop_closed.
    + apply nesting_of_pop_open; try done.
      intros f Hf0 Hf1. rewrite <- Hst. by apply (open_on_stack s Hinv).
Qed.

Lemma finish_preprocessing_loop_nesting (fuel : nat) (s s' : Tracker) :
  finish_preprocessing_loop clock fuel s = Ok s' ->
  stack_inv s -> nesting clock s -> nesting clock s'.
Proof.
  revert s; induction fuel as [|fuel IH]; intros s; simpl;
    destruct (preprocessing_stack s) eqn:Hstack;
    try (by intros [= <-]); try discriminate.
  intros H Hinv Hnest. apply bind_ok in H as (s1 & H1 & H2).
  destruct (end_preprocess_file_stack_inv clock s s1 H1 Hinv) as [Hinv1 _].
  pose proof (end_preprocess_file_nesting s s1 H1 Hinv Hnest) as Hnest1.
  apply IH in H2; [done | by apply (stack_inv_same s1) |].
  apply (nesting_same s1); [done | simpl; lia | done].
Qed.

Lemma step_nesting (c : call) (s s' : Tracker) :
  step clock c s = Ok s' ->
  stack_inv s -> preprocess_timing clock s -> nesting clock s -> nesting clock s'.
Proof.
  destruct c as [file_name pfile| | |p|info]; simpl.
  - apply start_preprocess_file_nesting.
  - intros H Hinv _. by apply end_preprocess_file_nesting.
  - intros H Hinv _. by eapply finish_preprocessing_loop_nesting.
  - intros [= <-] _ _. apply nesting_same.
    + unfold start_opt_pass; simpl. by destruct (pass (last_pass s)).
    + destruct (start_opt_pass_spec clock p s) as (_ & _ & ->). lia.
  - intros [= <-] _ _. apply nesting_same.
    + unfold end_parse_function; simpl.
      destruct (ff_scope_name info); [|done]. by destruct (same_scope_as_back _ _).
    + destruct (end_parse_function_spec clock info s) as (-> & _). lia.
Qed.

Lemma run_nesting (cs : list call) (s s' : Tracker) :
  run clock cs s = Ok s' ->
  stack_inv s -> preprocess_timing clock s -> nesting clock s ->
  nesting clock s'.
Proof.
  revert s; induction cs as [|c cs IH]; intros s H; unfold run in H; simpl in H.
  { by injection H as <-. }
  apply bind_ok in H as (s1 & H1 & H2). intros Hinv Htime Hnest.
  destruct (step_stack_inv clock c s s1 H1 Hinv) as [Hinv1 _].
  apply (IH s1 H2 Hinv1).
  - by apply (step_preprocess_timing clock Hmono c s s1).
  - by apply (step_nesting c s s1).
Qed.

End Nesting.

(** X15. On a clock that never goes back, the records behind the
    PREPROCESS events never cross: in every tracker reached by calls,
    the intervals of two different files are one after the other or one
    within the other, whatever was re-entered, included circularly or
    drained. *)
Theorem preprocess_records_never_cross (clock : nat -> TimeStamp)
    (cs : list call) (s : Tracker) (r1 r2 : string * (Z * Z)) :
  monotone clock ->
  run clock cs initial = Ok s ->
  r1 ∈ preprocess_records s -> r2 ∈ preprocess_records s ->
  r1.1 <> r2.1 ->
  nested_or_apart r1.2 r2.2.
Proof.
  intros Hmono Hrun H1 H2 Hne.
  destruct r1 as [f [a0 a1]], r2 as [g [b0 b1]]; simpl in *.
  apply elem_of_preprocess_records in H1 as (Hf0 & Hf1 & Hf).
  apply elem_of_preprocess_records in H2 as (Hg0 & Hg1 & Hg).
  assert (Hnest : nesting clock s).
  { apply (run_nesting clock Hmono cs initial s Hrun).
    - apply stack_inv_initial.
    - apply preprocess_timing_initial.
    - split; simpl; intros *; by rewrite ?lookup_empty, ?lookup_nil. }
  by apply (closed_nested clock _ _ _ _ Hnest f g).
Qed.

(** * Properties of the callbacks *)

Lemma tracking_tracker (f : Tracker -> outcome Tracker) (p : Plugin) :
  tracker_of (tracking f p) = f (tracker p).
Proof. unfold tracker_of, tracking. by destruct (f (tracker p)). Qed.

Section Callbacks.
Variable clock : nat -> TimeStamp.

(** On the trackers, a callback other than the finalization is the run
    of the calls that its event stands for. *)
Lemma callback_calls (e : plugin_event) (p : Plugin) :
  is_finish e = false ->
  tracker_of (callback clock e p) = run clock (calls_of e) (tracker p).
Proof.
  destruct e as [decl| |pass|main| |pfile new_map]; try done; intros _;
    cbn [callback calls_of].
  - unfold cb_finish_parse_function, finished_function, run.
    destruct (DECL_CONTEXT decl) as [[[] n]|]; reflexivity.
  - unfold cb_start_compilation, run. rewrite tracking_tracker; simpl.
    by destruct (start_preprocess_file clock main None (tracker p)).
  - unfold cb_finish_decl, run. rewrite tracking_tracker; simpl.
    by destruct (finish_preprocessing_stage clock (tracker p)).
  - unfold cb_file_change, run.
    destruct new_map as [[[] [file_name|]]|]; try reflexivity; simpl.
    + unfold tracking.
      by destruct (start_preprocess_file clock (Some file_name) pfile (tracker p)).
    + unfold tracking. by destruct (end_preprocess_file clock (tracker p)).
Qed.

Lemma run_app (cs1 cs2 : list call) (s : Tracker) :
  run clock (cs1 ++ cs2) s = let* s1 := run clock cs1 s in run clock cs2 s1.
Proof.
  revert s; induction cs1 as [|c cs1 IH]; intros s; unfold run in *; simpl; [done|].
  destruct (step clock c s) as [s1|e]; simpl; [apply IH | done].
Qed.

Lemma callbacks_calls (es : list plugin_event) (p : Plugin) :
  forallb (fun e => negb (is_finish e)) es = true ->
  tracker_of (callbacks clock es p) = run clock (flat_map calls_of es) (tracker p).
Proof.
  revert p; induction es as [|e es IH]; intros p; simpl; [done|].
  intros [He Hes]%andb_prop. apply negb_true_iff in He.
  rewrite run_app, <- (callback_calls e p He).
  destruct (callback clock e p) as [p1|err]; simpl; [by apply IH | done].
Qed.

(** What a callback does to the two logs of the plugin. *)
Lemma callback_logs (e : plugin_event) (p p' : Plugin) :
  callback clock e p = Ok p' ->
  unknown_tree_codes p' =
    unknown_tree_codes p ++ match reported_tree_code e with Some c => [c] | None => [] end /\
  old_file_change_cb p' =
    old_file_change_cb p ++ match file_change e with Some c => [c] | None => [] end.
Proof.
  destruct e as [decl| |pass|main| |pfile new_map]; simpl.
  - unfold cb_finish_parse_function.
    destruct (DECL_CONTEXT decl) as [[[] n]|]; intros [= <-]; simpl;
      by rewrite ?app_nil_r.
  - unfold cb_plugin_finish, tracking. intros (t & _ & [= <-])%bind_ok; simpl.
    by rewrite !app_nil_r.
  - intros [= <-]; simpl. by rewrite !app_nil_r.
  - unfold cb_start_compilation, tracking. intros (t & _ & [= <-])%bind_ok; simpl.
    by rewrite !app_nil_r.
  - unfold cb_finish_decl, tracking. intros (t & _ & [= <-])%bind_ok; simpl.
    by rewrite !app_nil_r.
  - unfold cb_file_change. intros (p1 & Hp1 & [= <-])%bind_ok; simpl.
    assert (unknown_tree_codes p1 = unknown_tree_codes p /\
            old_file_change_cb p1 = old_file_change_cb p) as [-> ->].
    { destruct new_map as [[[] [file_name|]]|]; try (by injection Hp1 as <-);
        unfold tracking in Hp1; by apply bind_ok in Hp1 as (t & _ & [= <-]). }
    by rewrite app_nil_r.
Qed.

Lemma callbacks_logs (es : list plugin_event) (p p' : Plugin) :
  callbacks clock es p = Ok p' ->
  unknown_tree_codes p' = unknown_tree_codes p ++ omap reported_tree_code es /\
  old_file_change_cb p' = old_file_change_cb p ++ omap file_change es.
Proof.
  revert p; induction es as [|e es IH]; intros p; simpl.
  { intros [= <-]. by rewrite !app_nil_r. }
  intros (p1 & H1 & H2)%bind_ok.
  destruct (IH p1 H2) as [-> ->]. destruct (callback_logs e p p1 H1) as [-> ->].
  rewrite <- !app_assoc.
  by destruct (reported_tree_code e), (file_change e).
Qed.

End Callbacks.

Section CallbackFrames.
Variable clock : nat -> TimeStamp.

Lemma callback_tracker (e : plugin_event) (p : Plugin) :
  tracker_of (callback clock e p) = tracker_step clock e (tracker p).
Proof.
  unfold tracker_step. destruct (is_finish e) eqn:He; [|by apply callback_calls].
  destruct e; try discriminate. simpl. unfold cb_plugin_finish.
  apply tracking_tracker.
Qed.

Lemma callbacks_tracker (es : list plugin_event) (p1 p2 : Plugin) :
  tracker p1 = tracker p2 ->
  tracker_of (callbacks clock es p1) = tracker_of (callbacks clock es p2).
Proof.
  revert p1 p2; induction es as [|e es IH]; intros p1 p2 Heq; simpl.
  { by rewrite Heq. }
  pose proof (callback_tracker e p1) as H1. pose proof (callback_tracker e p2) as H2.
  rewrite Heq in H1. rewrite <- H2 in H1.
  destruct (callback clock e p1) as [q1|e1], (callback clock e p2) as [q2|e2];
    simpl in *; try done.
  injection H1 as H1. by apply IH.
Qed.

Lemma write_all_events_scopes (s s' : Tracker) :
  write_all_events clock s = Ok s' -> scopes s' = scopes s.
Proof.
  unfold write_all_events.
  intros (s1 & H1 & (s2 & H2 & (s3 & H3 & [= <-])%bind_ok)%bind_ok)%bind_ok.
  rewrite write_all_functions_spec, write_all_scopes_spec.
  apply (finish_preprocessing_loop_scopes clock) in H1.
  unfold write_preprocessing_events in H2.
  apply bind_ok in H2 as (s1' & H2 & H2').
  apply (finish_preprocessing_loop_scopes clock) in H2.
  apply (for_each_invariant (fun x => scopes x = scopes s)) in H2'.
  - apply (for_each_invariant (fun x => scopes x = scopes s)) in H3; [done| |done].
    intros e x x' Hx. unfold write_opt_pass_item.
    destruct (pass e); [by intros [= <-] | done].
  - intros [f t] x x' Hx. unfold write_preprocessing_item; simpl.
    destruct (String.eqb f CIRCULAR_POISON_VALUE); [by intros [= <-]|].
    destruct (at_ (preprocess_end x) f); simpl; [by intros [= <-] | done].
  - congruence.
Qed.

Lemma callbacks_invariant (P : Plugin -> Prop) :
  (forall e p p', P p -> callback clock e p = Ok p' -> P p') ->
  forall es p p', P p -> callbacks clock es p = Ok p' -> P p'.
Proof.
  intros Hstep es. induction es as [|e es IH]; intros p p' Hp; simpl.
  - by intros [= <-].
  - intros (p1 & H1 & H2)%bind_ok. eapply IH; [|exact H2]. by eapply Hstep.
Qed.

Lemma callback_scope_categories (e : plugin_event) (p p' : Plugin) :
  callback clock e p = Ok p' ->
  Forall (fun ev => scope_category (se_type ev) = true) (scope_events (tracker p)) ->
  Forall (fun ev => scope_category (se_type ev) = true) (scope_events (tracker p')).
Proof.
  intros Hcb Hall.
  pose proof (callback_tracker e p) as Htr. rewrite Hcb in Htr; simpl in Htr.
  unfold tracker_step in Htr. symmetry in Htr.
  destruct (is_finish e) eqn:He.
  { by apply write_all_events_scopes in Htr as [= -> _ _]. }
  destruct e as [decl| |pass|main| |pfile new_map]; try discriminate.
  - injection Htr as <-.
    destruct (end_parse_function_spec clock (finished_function decl) (tracker p))
      as (_ & _ & _ & -> & _).
    assert (Hcat : scope_category (ff_scope_type (finished_function decl)) = true).
    { unfold finished_function. by destruct (DECL_CONTEXT decl) as [[[] n]|]. }
    destruct (ff_scope_name (finished_function decl)) as [n|]; [|done].
    destruct (same_scope_as_back n (tracker p)).
    + unfold update_back. apply Forall_alter; [done|]. by intros ev _.
    + apply Forall_app. split; [done|]. by repeat constructor.
  - by apply (run_scopes clock [enter_pass pass] _ _ eq_refl) in Htr as [= -> _ _].
  - by apply (run_scopes clock [enter_file main None] _ _ eq_refl) in Htr
      as [= -> _ _].
  - by apply (run_scopes clock [drain_open_files] _ _ eq_refl) in Htr as [= -> _ _].
  - assert (Hnone : forallb (fun c => negb (is_finish_function c))
                      (calls_of (CPP_FILE_CHANGE pfile new_map)) = true).
    { by destruct new_map as [[[] [file_name|]]|]. }
    by apply (run_scopes clock _ _ _ Hnone) in Htr as [= -> _ _].
Qed.

Lemma callbacks_scope_categories (es : list plugin_event) (p : Plugin) :
  callbacks clock es initial_plugin = Ok p ->
  Forall (fun ev => scope_category (se_type ev) = true) (scope_events (tracker p)).
Proof.
  intros Hrun.
  apply (callbacks_invariant
           (fun p => Forall (fun ev => scope_category (se_type ev) = true)
                       (scope_events (tracker p))))
    with (es := es) (p := initial_plugin); [|constructor|done].
  intros e p1 p2 H1 H2. by apply (callback_scope_categories e p1 p2).
Qed.

End CallbackFrames.

(** X16. On the trackers, the callbacks of a sequence of events without
    the finalization are the run of the calls that the events stand for:
    what is proved of the trackers reached by calls holds in the plugin. *)
Theorem plugin_events_drive_the_trackers (clock : nat -> TimeStamp)
    (es : list plugin_event) (p : Plugin) :
  forallb (fun e => negb (is_finish e)) es = true ->
  tracker_of (callbacks clock es p) = run clock (flat_map calls_of es) (tracker p).
Proof. apply callbacks_calls. Qed.

(** X17. [cb_file_change] hands every file change on to the callback that
    was installed before, once and in the order of the events, whether it
    tracked the change or not; and a change that it does not track (a
    null map, a null file name, a reason other than entering and
    leaving) reads no clock: leaving such changes out of the events
    gives the same trackers. *)
Theorem file_changes_are_handed_on (clock : nat -> TimeStamp)
    (es : list plugin_event) (p : Plugin) :
  (forall p', callbacks clock es p = Ok p' ->
     old_file_change_cb p' = old_file_change_cb p ++ omap file_change es) /\
  tracker_of (callbacks clock (filter (fun e => ignored e = false) es) p) =
    tracker_of (callbacks clock es p).
Proof.
  split.
  - intros p' H. by destruct (callbacks_logs clock es p p' H) as [_ ->].
  - revert p; induction es as [|e es IH]; intros p; [done|].
    rewrite filter_cons. destruct (decide (ignored e = false)) as [He|He].
    + simpl. destruct (callback clock e p); simpl; [apply IH | done].
    + apply not_false_is_true in He. rewrite IH.
      destruct e as [| | | | |pfile new_map]; try discriminate.
      assert (Hsame : exists q, callback clock (CPP_FILE_CHANGE pfile new_map) p = Ok q /\
                                tracker q = tracker p).
      { simpl. unfold cb_file_change.
        destruct new_map as [[[] [file_name|]]|]; try discriminate; eauto. }
      destruct Hsame as (q & Hq & Heq). simpl in *. rewrite Hq; simpl.
      symmetry. by apply callbacks_tracker.
Qed.

(** X18. The scopes that the plugin records are namespaces, structs and
    unknown ones only, and [cb_finish_parse_function] reports on the
    error stream the tree code of every context that is none of
    translation unit, namespace, record and union, in the order of the
    events. *)
Theorem scope_events_have_scope_categories (clock : nat -> TimeStamp)
    (es : list plugin_event) (p : Plugin) :
  callbacks clock es initial_plugin = Ok p ->
  Forall (fun ev => scope_category (se_type ev) = true) (scope_events (tracker p)) /\
  unknown_tree_codes p = omap reported_tree_code es.
Proof.
  intros Hrun. split.
  - by apply (callbacks_scope_categories clock es).
  - by destruct (callbacks_logs clock es initial_plugin p Hrun) as [-> _].
Qed.

(** * Properties of [setup_output] *)

Lemma rfind_bounds (needle str : string) (idx : nat) :
  rfind needle str = Some idx ->
  (idx + String.length needle <= String.length str)%nat /\
  String.substring idx (String.length needle) str = needle.
Proof.
  assert (Hprefix : forall n s, String.prefix n s = true ->
            (String.length n <= String.length s)%nat /\
            String.substring 0 (String.length n) s = n).
  { induction n as [|a n IHn]; intros [|b s]; simpl; try done; try (split; [lia|done]).
    destruct (Ascii.ascii_dec a b) as [->|]; [|done].
    intros [Hlen Hsub]%IHn. split; [lia | by rewrite Hsub]. }
  revert idx; induction str as [|c str IH]; intros idx; cbn [rfind].
  - destruct (String.prefix needle EmptyString) eqn:Hp; [|done].
    intros [= <-]. by apply Hprefix in Hp.
  - destruct (rfind needle str) as [i|].
    + intros [= <-]. destruct (IH i eq_refl) as [Hlen Hsub]. split; [simpl; lia | done].
    + destruct (String.prefix needle (String c str)) eqn:Hp; [|done].
      intros [= <-]. by apply Hprefix in Hp.
Qed.

Lemma rfind_append (needle pre str : string) (idx : nat) :
  rfind needle str = Some idx ->
  rfind needle (pre +:+ str) = Some (String.length pre + idx)%nat.
Proof.
  intros H. induction pre as [|c pre IH]; simpl; [done | by rewrite IH].
Qed.

Lemma last_value_cons (flag : string) (arg : plugin_argument)
    (argv : list plugin_argument) :
  last_value flag (arg :: argv) =
    match last_value flag argv with Some v => Some v | None => value_of flag arg end.
Proof.
  unfold last_value.
  change (omap (value_of flag) (arg :: argv))
    with (match value_of flag arg with
          | Some y => y :: omap (value_of flag) argv
          | None => omap (value_of flag) argv
          end).
  set (l := omap (value_of flag) argv).
  destruct (value_of flag arg) as [w|]; [|by destruct (last l)].
  destruct l as [|x l]; [done|].
  rewrite last_cons_cons. destruct (last (x :: l)) eqn:Hl; [done|].
  by apply last_None in Hl.
Qed.

Lemma parse_arguments_app (pre post : list plugin_argument)
    (target_file target_dir : option string) :
  forallb accepted pre = true ->
  parse_arguments (pre ++ post) target_file target_dir =
    parse_arguments post
      (match last_value file_flag_name pre with Some v => Some v | None => target_file end)
      (match last_value dir_flag_name pre with Some v => Some v | None => target_dir end).
Proof.
  revert target_file target_dir; induction pre as [|arg pre IH];
    intros target_file target_dir; [done|].
  intros [Harg Hpre]%andb_prop. unfold accepted in Harg.
  apply andb_prop in Harg as [Hkey Hval].
  destruct (value arg) as [v|] eqn:Hv; [|done].
  rewrite !last_value_cons. unfold value_of. cbn [app parse_arguments].
  destruct (String.eqb_spec (key arg) file_flag_name) as [Hf|Hf].
  - rewrite Hv, IH by done. rewrite Hf; simpl.
    by destruct (last_value file_flag_name pre), (last_value dir_flag_name pre).
  - destruct (String.eqb_spec (key arg) dir_flag_name) as [Hd|Hd]; [|done].
    rewrite Hv, IH by done.
    by destruct (last_value file_flag_name pre), (last_value dir_flag_name pre).
Qed.

Lemma parse_arguments_accepted (argv : list plugin_argument)
    (target_file target_dir target_file' target_dir' : option string) :
  parse_arguments argv target_file target_dir = parsed target_file' target_dir' ->
  forallb accepted argv = true.
Proof.
  revert target_file target_dir; induction argv as [|arg argv IH];
    intros target_file target_dir; [done|].
  cbn [parse_arguments forallb].
  destruct (String.eqb (key arg) file_flag_name) eqn:Hf.
  - destruct (value arg) eqn:Hv; [|done]. intros H%IH.
    apply andb_true_intro. split; [|done]. unfold accepted. by rewrite Hf, Hv.
  - destruct (String.eqb (key arg) dir_flag_name) eqn:Hd; [|done].
    destruct (value arg) eqn:Hv; [|done]. intros H%IH.
    apply andb_true_intro. split; [|done]. unfold accepted. by rewrite Hf, Hd, Hv.
Qed.

Lemma accepted_last_value (arg : plugin_argument) (argv : list plugin_argument) :
  forallb accepted (arg :: argv) = true ->
  is_Some (last_value file_flag_name (arg :: argv)) \/
  is_Some (last_value dir_flag_name (arg :: argv)).
Proof.
  intros [Harg _]%andb_prop. unfold accepted in Harg.
  apply andb_prop in Harg as [Hkey Hval].
  rewrite !last_value_cons. unfold value_of.
  destruct (value arg) as [v|]; [|done].
  apply orb_prop in Hkey as [-> | ->].
  - left. destruct (last_value file_flag_name argv); by eexists.
  - right. destruct (last_value dir_flag_name argv); by eexists.
Qed.

Lemma open_trace_file_returns (fs : filesystem) (target_file : string)
    (cerr : list setup_message) :
  exists result cerr' output_file,
    open_trace_file fs target_file cerr = returns result cerr' output_file /\
    (result = true <-> is_Some output_file).
Proof.
  unfold open_trace_file.
  destruct (rfind "XXXXXX" target_file) as [idx|].
  - cbv zeta. destruct (Z.eqb _ _).
    + do 3 eexists. split; [reflexivity|]. split; [done | by intros [? ?]].
    + destruct (fdopen fs _); do 3 eexists; (split; [reflexivity|]);
        split; try done; by intros [? ?].
  - destruct (fopen fs target_file); do 3 eexists; (split; [reflexivity|]);
      split; try done; by intros [? ?].
Qed.

(** X19. An argument whose key is neither [trace] nor [trace-dir] makes
    [setup_output] return false, with one message that names the key,
    whatever flags with a value come before it and whatever comes after
    it; no file is opened. *)
Theorem unknown_argument_is_refused (fs : filesystem)
    (pre post : list plugin_argument) (arg : plugin_argument) :
  forallb accepted pre = true ->
  String.eqb (key arg) file_flag_name = false ->
  String.eqb (key arg) dir_flag_name = false ->
  setup_output fs (pre ++ arg :: post) =
    returns false [unknown_argument (key arg)] None.
Proof.
  intros Hpre Hf Hd. unfold setup_output.
  rewrite parse_arguments_app by done. cbn [parse_arguments].
  by rewrite Hf, Hd.
Qed.

(** X20. When both flags are given, [setup_output] returns false without
    opening a file, whether the directory is absolute or not; a
    directory that is not absolute is reported first. *)
Theorem file_and_dir_exclude_each_other (fs : filesystem)
    (argv : list plugin_argument) (file dir : string) :
  forallb accepted argv = true ->
  last_value file_flag_name argv = Some file ->
  last_value dir_flag_name argv = Some dir ->
  setup_output fs argv =
    returns false
      ((if is_absolute dir then [] else [dir_not_absolute]) ++ [dir_with_file]) None.
Proof.
  intros Hall Hf Hd. unfold setup_output.
  rewrite <- (app_nil_r argv), parse_arguments_app by done.
  by rewrite Hf, Hd.
Qed.

(** X21. With [trace-dir] only, the last directory given is the one used,
    absolute or not: a directory that is not absolute is reported and
    used all the same. The template handed to [mkstemps] is the
    directory, a separator unless the directory ends with one or is
    empty, and the default file name; the suffix after the six
    placeholder characters is always the five characters of [.json],
    whatever the directory is called. When [mkstemps] answers -1 the
    function returns false and its message names the buffer as
    [mkstemps] left it; otherwise it returns true exactly when [fdopen]
    opens a stream, which is then the output, on the file that the
    buffer names. *)
Theorem trace_dir_gives_the_template (fs : filesystem)
    (argv : list plugin_argument) (dir : string) :
  forallb accepted argv = true ->
  last_value file_flag_name argv = None ->
  last_value dir_flag_name argv = Some dir ->
  let template :=
    (if has_filename dir then dir +:+ preferred_separator else dir) +:+ default_filename in
  let cerr := if is_absolute dir then [] else [dir_not_absolute] in
  let created := mkstemps fs template 5 in
  setup_output fs argv =
    if Z.eqb created.1 (-1) then returns false (cerr ++ [mkstemps_failed created.2]) None
    else if fdopen fs created.1 then returns true cerr (Some created.2)
    else returns false cerr None.
Proof.
  intros Hall Hf Hd template cerr created. unfold setup_output.
  rewrite <- (app_nil_r argv), parse_arguments_app by done.
  rewrite Hf, Hd. cbn [parse_arguments].
  unfold open_trace_file, path_append.
  change (is_absolute default_filename) with false. cbv iota. fold template.
  assert (Hidx : rfind "XXXXXX" template =
                 Some (String.length
                         (if has_filename dir then dir +:+ preferred_separator else dir)
                       + 6)%nat).
  { unfold template. by apply rfind_append. }
  rewrite Hidx.
  replace (String.length template - _)%nat with 5%nat; [done|].
  unfold template. rewrite length_append. simpl. lia.
Qed.

(** X22. [setup_output] fails its assertion when there are no arguments,
    and only then; when it returns, it has given a stream to
    [set_output_file] exactly when it returns true. *)
Theorem setup_output_asserts_only_without_arguments (fs : filesystem)
    (argv : list plugin_argument) :
  ((exists cerr, setup_output fs argv = assertion_fails cerr) <-> argv = []) /\
  (forall result cerr output_file,
     setup_output fs argv = returns result cerr output_file ->
     (result = true <-> is_Some output_file)).
Proof.
  assert (Hnone : forall (x : option string), ~ (false = true <-> is_Some (Some x))).
  { intros x [_ H]. by discriminate H. }
  unfold setup_output.
  destruct (parse_arguments argv None None) as [tf td|k|] eqn:Hparse.
  - pose proof (parse_arguments_accepted _ _ _ _ _ Hparse) as Hall.
    rewrite <- (app_nil_r argv), parse_arguments_app in Hparse by done.
    cbn [parse_arguments] in Hparse. injection Hparse as <- <-.
    destruct argv as [|arg argv].
    { split; [split; [done | by eexists]|]. intros ? ? ?. by cbn. }
    pose proof (accepted_last_value arg argv Hall) as Hsome.
    destruct (last_value file_flag_name (arg :: argv)) as [f|],
             (last_value dir_flag_name (arg :: argv)) as [d|].
    + split; [split; [by intros [? ?] | done]|].
      intros ? ? ? [= <- _ <-]. split; [done | by intros [? ?]].
    + destruct (open_trace_file_returns fs f []) as (r & c & o & -> & Hiff).
      split; [split; [by intros [? ?] | done]|]. by intros ? ? ? [= <- _ <-].
    + destruct (open_trace_file_returns fs (path_append d default_filename)
                  (if is_absolute d then [] else [dir_not_absolute]))
        as (r & c & o & -> & Hiff).
      split; [split; [by intros [? ?] | done]|]. by intros ? ? ? [= <- _ <-].
    + by destruct Hsome as [[? ?]|[? ?]].
  - split.
    + split; [by intros [? ?]|]. intros ->. discriminate.
    + intros ? ? ? [= <- _ <-]. split; [done | by intros [? ?]].
  - split; [|done]. split; [by intros [? ?]|]. intros ->. discriminate.
Qed.

(** * From the events of GCC to the trace *)

Lemma filter_none {A : Type} (P : A -> Prop) `{forall x, Decision (P x)} (l : list A) :
  Forall (fun x => ~ P x) l -> filter P l = [].
Proof.
  induction 1 as [|x l Hx Hl IH]; [done|].
  by rewrite filter_cons, decide_False.
Qed.

Lemma filter_all {A : Type} (P : A -> Prop) `{forall x, Decision (P x)} (l : list A) :
  Forall P l -> filter P l = l.
Proof.
  induction 1 as [|x l Hx Hl IH]; [done|].
  by rewrite filter_cons, decide_True, IH.
Qed.

(** X23. From the events of GCC to the FUNCTION events of the trace: on
    the trackers that the callbacks reach before the finalization, every
    emission routine succeeds, [write_preprocessing_events],
    [write_opt_pass_events] and [write_all_scopes] emit no event of the
    FUNCTION category, and [write_all_functions] emits one for each
    function whose parsing was finished, by name and in the order of the
    events. *)
Theorem only_write_all_functions_emits_function_events (clock : nat -> TimeStamp)
    (es : list plugin_event) (p : Plugin) :
  forallb (fun e => negb (is_finish e)) es = true ->
  callbacks clock es initial_plugin = Ok p ->
  (exists t, write_preprocessing_events clock (tracker p) = Ok t /\
             function_trace_events t = []) /\
  (exists t, write_opt_pass_events (tracker p) = Ok t /\
             function_trace_events t = []) /\
  function_trace_events (write_all_scopes (tracker p)) = [] /\
  map te_name (function_trace_events (write_all_functions (tracker p))) =
    omap parsed_name es.
Proof.
  intros Hes Hrun.
  pose proof (callbacks_calls clock es initial_plugin Hes) as Hcalls.
  rewrite Hrun in Hcalls; simpl in Hcalls. symmetry in Hcalls.
  set (cs := flat_map calls_of es) in *. set (s := tracker p) in *.
  destruct (run_stack_inv clock cs initial s Hcalls stack_inv_initial) as [Hinv _].
  assert (Hpasses : closed_passes_named s).
  { apply (run_closed_passes_named clock cs initial s Hcalls). constructor. }
  pose proof (run_events clock cs initial s Hcalls) as Hev. simpl in Hev.
  unfold function_trace_events. split_and!.
  - destruct (write_preprocessing_events_spec clock s Hinv) as (s1 & _ & _ & _ & _ & ->).
    eexists; split; [reflexivity|]. simpl. rewrite Hev; simpl.
    apply filter_none, Forall_forall. by intros e (item & -> & _)%list_elem_of_fmap.
  - destruct (write_opt_pass_events_spec s Hpasses) as (emitted & -> & Hem).
    eexists; split; [reflexivity|]. simpl. rewrite Hev; simpl.
    apply filter_none. clear -Hem.
    induction Hem as [|e t l l' (q & _ & ->) _ IH]; constructor; [|done].
    simpl. by destruct (type q).
  - rewrite write_all_scopes_spec; simpl. rewrite Hev; simpl.
    pose proof (callbacks_scope_categories clock es p Hrun) as Hcat. fold s in Hcat.
    apply filter_none, Forall_forall.
    intros e (item & -> & Hin)%list_elem_of_fmap; simpl.
    rewrite Forall_forall in Hcat. specialize (Hcat item Hin).
    intros Heq. by rewrite Heq in Hcat.
  - rewrite write_all_functions_spec; simpl. rewrite Hev; simpl.
    rewrite filter_all by (apply Forall_forall;
                           by intros e (item & -> & _)%list_elem_of_fmap).
    rewrite map_map; simpl.
    pose proof (run_functions clock cs initial s Hcalls) as Hnames; simpl in Hnames.
    apply (f_equal (map fst)) in Hnames. rewrite !map_map in Hnames; simpl in Hnames.
    rewrite Hnames. unfold cs, functions_finished. clear.
    induction es as [|e es IH]; [done|]. simpl. rewrite omap_app, map_app, IH.
    f_equal. destruct e as [decl| | | | |pfile new_map]; try done.
    + simpl. f_equal. unfold finished_function.
      by destruct (DECL_CONTEXT decl) as [[[] n]|].
    + by destruct new_map as [[[] [file_name|]]|].
Qed.

(** * Spans within the 64-bit range *)

Lemma in_range_le (clock : nat -> TimeStamp) (n m : nat) :
  (n <= m)%nat -> in_range clock m -> in_range clock n.
Proof. intros Hle H k Hk. apply H. lia. Qed.

Lemma no_overflow_initial : no_overflow initial.
Proof.
  split; simpl; try done; try range; intros f t; by rewrite lookup_empty.
Qed.

Section NoOverflow.
Variable clock : nat -> TimeStamp.

Lemma run_ticks (cs : list call) (s s' : Tracker) :
  run clock cs s = Ok s' -> (ticks s <= ticks s')%nat.
Proof.
  revert s; induction cs as [|c cs IH]; intros s H; unfold run in H; simpl in H.
  { injection H as <-. lia. }
  apply bind_ok in H as (s1 & H1 & H2).
  apply step_ticks in H1. apply IH in H2. lia.
Qed.

Lemma start_preprocess_file_no_overflow (file_name : option string)
    (pfile : option cpp_reader) (s s' : Tracker) :
  in_range clock (ticks s') ->
  start_preprocess_file clock file_name pfile s = Ok s' ->
  no_overflow s -> no_overflow s'.
Proof.
  intros Hr Hstep [Hc Hf Hs Hl Hp H0 H1].
  assert (Hignored : forall x : Tracker, x = set_ticks (S (ticks s)) s -> no_overflow x).
  { intros x ->. by split. }
  destruct file_name as [file|].
  2:{ apply Hignored. unfold start_preprocess_file in Hstep; simpl in Hstep. congruence. }
  destruct (String.eqb file "<command-line>") eqn:Hcmd.
  { apply Hignored. unfold start_preprocess_file in Hstep; simpl in Hstep.
    rewrite Hcmd in Hstep. congruence. }
  destruct (start_preprocess_file_frame clock file pfile s s' Hcmd Hstep)
    as (a & b & c & d & e & ->).
  assert (Hnow : fits (clock (ticks s))).
  { destruct (Hr (ticks s)) as [? ?]; [|range].
    unfold entered; simpl. destruct (count _ _); simpl; lia. }
  unfold entered. destruct (count (preprocess_start s) (pushed_identity file s));
    split; simpl; try done.
  intros f t [[_ <-]|[_ Hf0]]%lookup_insert_Some; [done | by apply (H0 f)].
Qed.

Lemma end_preprocess_file_no_overflow (s s' : Tracker) :
  in_range clock (ticks s') ->
  end_preprocess_file clock s = Ok s' ->
  no_overflow s -> no_overflow s'.
Proof.
  intros Hr Hstep [Hc Hf Hs Hl Hp H0 H1].
  unfold end_preprocess_file in Hstep; simpl in Hstep.
  destruct (preprocessing_stack s) as [|top below]; [discriminate|].
  assert (Hnow : INT64_MIN <= clock (ticks s) /\ clock (ticks s) + 6 <= INT64_MAX).
  { apply Hr. injection Hstep as <-. destruct (count _ _); simpl; lia. }
  destruct (count (preprocess_end s) top); injection Hstep as <-;
    split; simpl; try done; try range.
  intros f t [[_ <-]|[_ Hf1]]%lookup_insert_Some; [range | by apply (H1 f)].
Qed.

Lemma finish_preprocessing_loop_ticks (fuel : nat) (s s' : Tracker) :
  finish_preprocessing_loop clock fuel s = Ok s' -> (ticks s <= ticks s')%nat.
Proof.
  revert s; induction fuel as [|fuel IH]; intros s; simpl;
    destruct (preprocessing_stack s) eqn:Hstack;
    try (intros [= <-]; lia); try discriminate.
  intros H. apply bind_ok in H as (s1 & H1 & H2).
  apply end_preprocess_file_preprocessing in H1 as (top & below & _ & Ht & _).
  apply IH in H2. simpl in H2. lia.
Qed.

Lemma finish_preprocessing_loop_no_overflow (fuel : nat) (s s' : Tracker) :
  in_range clock (ticks s') ->
  finish_preprocessing_loop clock fuel s = Ok s' ->
  no_overflow s -> no_overflow s'.
Proof.
  intros Hr. revert s; induction fuel as [|fuel IH]; intros s; simpl;
    destruct (preprocessing_stack s) eqn:Hstack;
    try (by intros [= <-]); try discriminate.
  intros H Hno. apply bind_ok in H as (s1 & H1 & H2).
  pose proof (finish_preprocessing_loop_ticks _ _ _ H2) as Hticks. simpl in Hticks.
  pose proof (end_preprocess_file_no_overflow s s1
                (in_range_le clock (ticks s1) (ticks s') ltac:(lia) Hr) H1 Hno) as [Hc Hf Hs Hl Hp H0 H1'].
  apply (IH _ H2).
  destruct (Hr (ticks s1)) as [? ?]; [lia|].
  split; simpl; try done; range.
Qed.

Lemma start_opt_pass_no_overflow (p : option opt_pass) (s : Tracker) :
  in_range clock (S (ticks s)) ->
  no_overflow s -> no_overflow (start_opt_pass clock p s).
Proof.
  intros Hr [Hc Hf Hs Hl Hp H0 H1].
  destruct (Hr (ticks s)) as [? ?]; [lia|].
  unfold start_opt_pass; simpl.
  destruct (pass (last_pass s)); split; simpl; try done; try range.
  apply Forall_app; split; [done|]. apply Forall_singleton. range.
Qed.

Lemma end_parse_function_no_overflow (info : FinishedFunction) (s : Tracker) :
  in_range clock (S (ticks s)) ->
  no_overflow s -> no_overflow (end_parse_function clock info s).
Proof.
  intros Hr [Hc Hf Hs Hl Hp H0 H1].
  destruct (Hr (ticks s)) as [? ?]; [lia|].
  assert (Hfun : span_fits (mkTimeSpan (last_function_parsed_ts s + 3) (clock (ticks s))))
    by range.
  unfold end_parse_function; simpl.
  destruct (ff_scope_name info) as [n|];
    [unfold same_scope_as_back; simpl;
     destruct (match last (scope_events s) with Some _ => _ | None => _ end)|];
    split; simpl; try done; try range;
    try (apply Forall_app; split; [done|]; apply Forall_singleton; range).
  unfold update_back. apply Forall_alter; [done|].
  intros e _ He. unfold extend_scope. range.
Qed.

Lemma step_no_overflow (c : call) (s s' : Tracker) :
  in_range clock (ticks s') ->
  step clock c s = Ok s' -> no_overflow s -> no_overflow s'.
Proof.
  intros Hr. destruct c as [file_name pfile| | |p|info]; simpl.
  - by apply start_preprocess_file_no_overflow.
  - by apply end_preprocess_file_no_overflow.
  - by apply finish_preprocessing_loop_no_overflow.
  - intros [= <-]. apply start_opt_pass_no_overflow.
    destruct (start_opt_pass_spec clock p s) as (_ & _ & Ht). by rewrite Ht in Hr.
  - intros [= <-]. apply end_parse_function_no_overflow.
    destruct (end_parse_function_spec clock info s) as (Ht & _). by rewrite Ht in Hr.
Qed.

(** While the readings taken are in range, no timestamp computed by the
    trackers leaves the 64-bit range: the sums of the model are those of
    the code. *)
Lemma run_no_overflow (cs : list call) (s s' : Tracker) :
  in_range clock (ticks s') ->
  run clock cs s = Ok s' -> no_overflow s -> no_overflow s'.
Proof.
  intros Hr. revert s; induction cs as [|c cs IH]; intros s H; unfold run in H; simpl in H.
  { by injection H as <-. }
  apply bind_ok in H as (s1 & H1 & H2). intros Hno.
  apply (IH s1 H2).
  apply (step_no_overflow c s s1); [|done|done].
  apply run_ticks in H2. by apply (in_range_le clock (ticks s1) (ticks s')).
Qed.

End NoOverflow.

(** ** Readings that are never taken *)

Lemma continued_agrees (gap : Z) (clock : nat -> TimeStamp) (n k : nat) :
  (k < n)%nat -> continued gap clock n k = clock k.
Proof. intros Hk. unfold continued. by rewrite (proj2 (Nat.ltb_lt k n) Hk). Qed.

Lemma continued_advances (gap : Z) (clock : nat -> TimeStamp) (n : nat) :
  0 <= gap -> advances_within gap clock n -> advances gap (continued gap clock n).
Proof.
  intros Hgap Hadv k. unfold continued.
  destruct (Nat.ltb_spec k n) as [Hk|Hk], (Nat.ltb_spec (S k) n) as [Hk'|Hk']; try lia.
  - by apply Hadv.
  - replace (pred n) with k by lia. replace (S (S k) - n)%nat with 1%nat by lia. lia.
Qed.

Lemma continued_first (gap : Z) (clock : nat -> TimeStamp) (n : nat) :
  0 <= gap -> 3 <= clock 0%nat -> 3 <= continued gap clock n 0%nat.
Proof. intros Hgap H. unfold continued. destruct n; simpl; lia. Qed.

(** A call reads the clock at the readings that it counts, and nowhere
    else. *)
Section Readings.
Variables clock clock' : nat -> TimeStamp.

Lemma start_preprocess_file_ext (file_name : option string) (pfile : option cpp_reader)
    (s : Tracker) :
  clock' (ticks s) = clock (ticks s) ->
  start_preprocess_file clock' file_name pfile s =
    start_preprocess_file clock file_name pfile s.
Proof. unfold start_preprocess_file, ns_from_start. by intros ->. Qed.

Lemma end_preprocess_file_ext (s : Tracker) :
  clock' (ticks s) = clock (ticks s) ->
  end_preprocess_file clock' s = end_preprocess_file clock s.
Proof. unfold end_preprocess_file, ns_from_start. by intros ->. Qed.

Lemma start_opt_pass_ext (p : option opt_pass) (s : Tracker) :
  clock' (ticks s) = clock (ticks s) ->
  start_opt_pass clock' p s = start_opt_pass clock p s.
Proof. unfold start_opt_pass, ns_from_start. by intros ->. Qed.

Lemma end_parse_function_ext (info : FinishedFunction) (s : Tracker) :
  clock' (ticks s) = clock (ticks s) ->
  end_parse_function clock' info s = end_parse_function clock info s.
Proof. unfold end_parse_function, ns_from_start. by intros ->. Qed.

Lemma finish_preprocessing_loop_ext (fuel : nat) (s s' : Tracker) :
  finish_preprocessing_loop clock fuel s = Ok s' ->
  (forall k, (ticks s <= k < ticks s')%nat -> clock' k = clock k) ->
  finish_preprocessing_loop clock' fuel s = Ok s'.
Proof.
  revert s; induction fuel as [|fuel IH]; intros s; simpl;
    destruct (preprocessing_stack s) eqn:Hstack; try done.
  intros H Hag. apply bind_ok in H as (s1 & H1 & H2).
  pose proof (finish_preprocessing_loop_ticks clock _ _ _ H2) as Hle. simpl in Hle.
  pose proof H1 as (top & below & _ & Ht & _)%end_preprocess_file_preprocessing.
  rewrite (end_preprocess_file_ext s), H1 by (apply Hag; lia). simpl.
  rewrite (Hag (ticks s1)) by lia.
  apply IH; [done|]. intros k Hk. simpl in Hk. apply Hag. lia.
Qed.

Lemma step_ext (c : call) (s s' : Tracker) :
  step clock c s = Ok s' ->
  (forall k, (ticks s <= k < ticks s')%nat -> clock' k = clock k) ->
  step clock' c s = Ok s'.
Proof.
  intros Hstep Hag.
  assert (Hone : c <> drain_open_files -> clock' (ticks s) = clock (ticks s)).
  { intros Hc. apply Hag. split; [lia|].
    destruct c as [file_name pfile| | |p|info]; simpl in Hstep; [| |done| |].
    - destruct file_name as [file|]; [|injection Hstep as <-; simpl; lia].
      destruct (String.eqb file "<command-line>") eqn:Hcmd.
      { unfold start_preprocess_file in Hstep; simpl in Hstep. rewrite Hcmd in Hstep.
        injection Hstep as <-; simpl; lia. }
      apply start_preprocess_file_frame in Hstep as (a & b & c & d & e & ->); [|done].
      unfold entered; simpl. destruct (count _ _); simpl; lia.
    - apply end_preprocess_file_preprocessing in Hstep as (top & below & _ & -> & _). lia.
    - injection Hstep as <-. destruct (start_opt_pass_spec clock p s) as (_ & _ & ->). lia.
    - injection Hstep as <-. destruct (end_parse_function_spec clock info s) as (-> & _). lia. }
  destruct c as [file_name pfile| | |p|info]; simpl in *.
  - by rewrite start_preprocess_file_ext by by apply Hone.
  - by rewrite end_preprocess_file_ext by by apply Hone.
  - by apply finish_preprocessing_loop_ext.
  - by rewrite start_opt_pass_ext by by apply Hone.
  - by rewrite end_parse_function_ext by by apply Hone.
Qed.

Lemma run_ext (cs : list call) (s s' : Tracker) :
  run clock cs s = Ok s' ->
  (forall k, (ticks s <= k < ticks s')%nat -> clock' k = clock k) ->
  run clock' cs s = Ok s'.
Proof.
  revert s; induction cs as [|c cs IH]; intros s H Hag; unfold run in *; simpl in *;
    [done|].
  apply bind_ok in H as (s1 & H1 & H2).
  pose proof (step_ticks clock c s s1 H1) as Hle1.
  pose proof (run_ticks clock cs s1 s' H2) as Hle2.
  rewrite (step_ext c s s1 H1) by (intros k Hk; apply Hag; lia). simpl.
  apply IH; [done|]. intros k Hk. apply Hag. lia.
Qed.


End Readings.

(** ** Pass tracker *)

(** The events of the pending passes, field by field. *)
Lemma emitted_for_fields (l : list OptPassEvent) (emitted : list TraceEvent) :
  Forall2 emitted_for l emitted ->
  exists closed : list (opt_pass * TimeSpan),
    l = map (fun c => mkOptPassEvent (Some c.1) c.2) closed /\
    emitted =
      map (fun c => mkTraceEvent (name c.1) (pass_type (type c.1)) c.2
                      (true, <["static_pass_number" := to_string (static_pass_number c.1)]> ∅))
        closed.
Proof.
  induction 1 as [|e t l l' (p & Hp & ->) _ (closed & -> & ->)].
  - by exists [].
  - exists ((p, ope_ts e) :: closed). destruct e as [q ts]; simpl in *. by subst q.
Qed.

(** C7. In every tracker reached by calls from the initial one, the
    readings taken being within the 64-bit range with six nanoseconds to
    spare, [start_opt_pass] closes the open pass, if there is one, at the
    current reading and appends it to the pending list, and opens a span
    for the new pass one nanosecond later; no pass span leaves the 64-bit
    range. [write_opt_pass_events] then succeeds and emits one event per
    pending pass, in order, with the name, the category, the span and the
    pass number of that pass, and none for the pass left open. In
    particular entering [P1], entering [P2] and finalizing emits one
    event, that of [P1], from one nanosecond after the first reading to
    the second reading. *)
Theorem enter_pass_closes_the_open_pass (clock : nat -> TimeStamp)
    (cs : list call) (s : Tracker) (p : option opt_pass) (P1 P2 : opt_pass) :
  run clock cs initial = Ok s ->
  in_range clock (S (ticks s)) ->
  let now := clock (ticks s) in
  let s' := start_opt_pass clock p s in
  pass_events s' =
    match pass (last_pass s) with
    | Some q => pass_events s ++
                  [mkOptPassEvent (Some q) (mkTimeSpan (start (ope_ts (last_pass s))) now)]
    | None => pass_events s
    end /\
  pass (last_pass s') = p /\
  start (ope_ts (last_pass s')) = now + 1 /\
  fits (now + 1) /\
  Forall (fun e => span_fits (ope_ts e)) (pass_events s') /\
  (exists closed : list (opt_pass * TimeSpan),
     pass_events s' = map (fun c => mkOptPassEvent (Some c.1) c.2) closed /\
     write_opt_pass_events s' =
       Ok (set_events
             (events s' ++
              map (fun c =>
                     mkTraceEvent (name c.1) (pass_type (type c.1)) c.2
                       (true, <["static_pass_number" :=
                                  to_string (static_pass_number c.1)]> ∅))
                closed) s')) /\
  (in_range clock 2 ->
   exists s3,
     write_all_events clock
       (start_opt_pass clock (Some P2) (start_opt_pass clock (Some P1) initial)) = Ok s3 /\
     events s3 =
       [mkTraceEvent (name P1) (pass_type (type P1))
          (mkTimeSpan (clock 0%nat + 1) (clock 1%nat))
          (true, <["static_pass_number" := to_string (static_pass_number P1)]> ∅)] /\
     span_fits (mkTimeSpan (clock 0%nat + 1) (clock 1%nat))).
Proof.
  intros Hrun Hr now s'.
  destruct (start_opt_pass_spec clock p s) as (Hpending & Hlast & _).
  fold s' now in Hpending, Hlast.
  pose proof (run_no_overflow clock cs initial s
                (in_range_le clock (ticks s) (S (ticks s)) ltac:(lia) Hr) Hrun
                no_overflow_initial) as Hno.
  pose proof (start_opt_pass_no_overflow clock p s Hr Hno) as [_ _ _ Hl Hp _ _].
  fold s' in Hl, Hp.
  split; [done|]. split; [by rewrite Hlast|]. split; [by rewrite Hlast|].
  split; [rewrite Hlast in Hl; apply Hl|]. split; [done|]. split.
  - destruct (write_opt_pass_events_spec s') as (emitted & Hwrite & Hem).
    { apply (step_closed_passes_named clock (enter_pass p) s); [done|].
      apply (run_closed_passes_named clock cs initial); [done | constructor]. }
    destruct (emitted_for_fields _ _ Hem) as (closed & Hclosed & ->).
    by exists closed.
  - intros Hr2. eexists. split; [vm_compute; reflexivity|]. split; [reflexivity|].
    destruct (Hr2 0%nat) as [? ?]; [lia|]. destruct (Hr2 1%nat) as [? ?]; [lia|].
    range.
Qed.

(** ** Function and scope tracker *)

(** C6. In a tracker reached by calls from the initial one, the readings
    taken being within the 64-bit range with six nanoseconds to spare:
    two [finish_function] calls in a row (calls of other kinds may come
    between them) with the same scope name [n] share one scope event: the
    second call adds none and moves the end of the last one to one
    nanosecond after the end of its function, so that, when the first
    call opened the accumulator, the event runs from one nanosecond before
    the start of the first function to one nanosecond after the end of the
    second. A following call with another scope name [m] leaves that
    event as it is and appends a new one around its own function.
    [write_all_scopes] emits one event per scope event, with its name,
    its category and its span; the last two are the event of [n] and the
    event of [m], and no scope span leaves the 64-bit range. *)
Theorem consecutive_functions_share_one_scope (clock : nat -> TimeStamp)
    (pre : list call) (s s1' s2' : Tracker) (info1 info2 info3 : FinishedFunction)
    (n m : string) (mid1 mid2 : list call) :
  run clock pre initial = Ok s ->
  ff_scope_name info1 = Some n ->
  ff_scope_name info2 = Some n ->
  ff_scope_name info3 = Some m ->
  m <> n ->
  forallb (fun c => negb (is_finish_function c)) mid1 = true ->
  forallb (fun c => negb (is_finish_function c)) mid2 = true ->
  run clock mid1 (end_parse_function clock info1 s) = Ok s1' ->
  run clock mid2 (end_parse_function clock info2 s1') = Ok s2' ->
  in_range clock (S (ticks s2')) ->
  let start1 := last_function_parsed_ts s + 3 in
  let end2 := clock (ticks s1') in
  let start3 := last_function_parsed_ts s2' + 3 in
  let end3 := clock (ticks s2') in
  let s1 := end_parse_function clock info1 s in
  let s2 := end_parse_function clock info2 s1' in
  let s3 := end_parse_function clock info3 s2' in
  scope_events s2 = update_back (extend_scope (end2 + 1)) (scope_events s1) /\
  (same_scope_as_back n s = false ->
   scope_events s2 =
     scope_events s ++
       [mkScopeEvent n (ff_scope_type info1) (mkTimeSpan (start1 - 1) (end2 + 1))]) /\
  scope_events s3 =
    scope_events s2 ++
      [mkScopeEvent m (ff_scope_type info3) (mkTimeSpan (start3 - 1) (end3 + 1))] /\
  events (write_all_scopes s3) =
    events s3 ++
      map (fun e => mkTraceEvent (se_name e) (se_type e) (se_ts e) (false, ∅))
        (scope_events s3) /\
  (same_scope_as_back n s = false ->
   exists before,
     events (write_all_scopes s3) =
       before ++
         [mkTraceEvent n (ff_scope_type info1)
            (mkTimeSpan (start1 - 1) (end2 + 1)) (false, ∅);
          mkTraceEvent m (ff_scope_type info3)
            (mkTimeSpan (start3 - 1) (end3 + 1)) (false, ∅)]) /\
  Forall (fun e => span_fits (se_ts e)) (scope_events s3).
Proof.
  intros Hpre Hn1 Hn2 Hm Hne Hmid1 Hmid2 Hrun1 Hrun2 Hr start1 end2 start3 end3 s1 s2 s3.
  destruct (end_parse_function_spec clock info1 s) as (Ht1 & _ & _ & Hsc1 & Hdid1).
  destruct (end_parse_function_spec clock info2 s1') as (Ht2 & _ & _ & Hsc2 & Hdid2).
  destruct (end_parse_function_spec clock info3 s2') as (_ & _ & _ & Hsc3 & _).
  unfold parsed_span, opened_scope in Hsc1, Hsc2, Hsc3; simpl in Hsc1, Hsc2, Hsc3.
  fold s1 in Hsc1, Hdid1, Ht1. fold s2 end2 in Hsc2, Hdid2, Ht2.
  fold s3 start3 end3 in Hsc3. fold start1 in Hsc1.
  rewrite Hn1 in Hsc1, Hdid1. rewrite Hn2 in Hsc2, Hdid2. rewrite Hm in Hsc3.
  injection (run_scopes clock mid1 s1 s1' Hmid1 Hrun1) as Hev1 _ Hflag1.
  injection (run_scopes clock mid2 s2 s2' Hmid2 Hrun2) as Hev2 _ Hflag2.
  (* the last scope event after the first call is named [n] *)
  assert (Hback1 : exists back, last (scope_events s1) = Some back /\ se_name back = n).
  { rewrite Hsc1. unfold same_scope_as_back.
    destruct (last (scope_events s)) as [back|] eqn:Hlast.
    - destruct (did_last_function_have_scope s && String.eqb (se_name back) n) eqn:Hsame.
      + apply andb_prop in Hsame as [_ Heq%String.eqb_eq].
        rewrite last_update_back, Hlast. by eexists.
      + rewrite last_snoc. by eexists.
    - rewrite last_snoc. by eexists. }
  destruct Hback1 as (back1 & Hlast1 & Hname1).
  assert (Hsame2 : same_scope_as_back n s1' = true).
  { unfold same_scope_as_back. rewrite Hev1, Hlast1, Hflag1, Hdid1, Hname1.
    by rewrite String.eqb_refl. }
  rewrite Hsame2, Hev1 in Hsc2.
  assert (Hsame3 : same_scope_as_back m s2' = false).
  { unfold same_scope_as_back. rewrite Hev2, Hsc2, last_update_back, Hlast1; simpl.
    rewrite Hname1. apply andb_false_intro2. by apply String.eqb_neq. }
  rewrite Hsame3, Hev2 in Hsc3.
  assert (Hfresh : same_scope_as_back n s = false ->
            scope_events s2 =
              scope_events s ++
                [mkScopeEvent n (ff_scope_type info1)
                   (mkTimeSpan (start1 - 1) (end2 + 1))]).
  { intros Hfresh. rewrite Hsc2, Hsc1, Hfresh. by rewrite update_back_snoc. }
  assert (Hwrite : events (write_all_scopes s3) =
            events s3 ++
              map (fun e => mkTraceEvent (se_name e) (se_type e) (se_ts e) (false, ∅))
                (scope_events s3)).
  { by rewrite write_all_scopes_spec. }
  split_and!; try done.
  - intros Hf.
    exists (events s3 ++
            map (fun e => mkTraceEvent (se_name e) (se_type e) (se_ts e) (false, ∅))
              (scope_events s)).
    rewrite Hwrite, Hsc3, (Hfresh Hf), !map_app. cbn [map].
    by rewrite <- !app_assoc.
  - (* the invariant of the range, along the three functions *)
    pose proof (run_ticks clock mid1 s1 s1' Hrun1) as Hle1.
    pose proof (run_ticks clock mid2 s2 s2' Hrun2) as Hle2.
    assert (Hno : no_overflow s).
    { apply (run_no_overflow clock pre initial s); [|done|exact no_overflow_initial].
      apply (in_range_le clock _ (S (ticks s2'))); [lia | done]. }
    assert (Hno1 : no_overflow s1').
    { apply (run_no_overflow clock mid1 s1 s1'); [|done|].
      - apply (in_range_le clock _ (S (ticks s2'))); [lia | done].
      - apply end_parse_function_no_overflow; [|done].
        apply (in_range_le clock _ (S (ticks s2'))); [lia | done]. }
    assert (Hno2 : no_overflow s2').
    { apply (run_no_overflow clock mid2 s2 s2'); [|done|].
      - apply (in_range_le clock _ (S (ticks s2'))); [lia | done].
      - apply end_parse_function_no_overflow; [|done].
        apply (in_range_le clock _ (S (ticks s2'))); [lia | done]. }
    apply (end_parse_function_no_overflow clock info3 s2' Hr Hno2).
Qed.

(** ** Function spans *)



(** ** Spans after the epsilon adjustments *)

(** C3, as amended. When the first reading of the clock is at least 3,
    every well-nested sequence of calls (no file being resolved to the
    path of its own include directory) and its finalization succeed; and
    when the clock moves by at least six nanoseconds from each reading
    taken to the next and the readings taken are within the 64-bit range
    with six nanoseconds to spare, every event of the trace has its start
    no later than its end, both within the 64-bit range. *)
Theorem every_span_is_ordered_on_an_advancing_clock (clock : nat -> TimeStamp)
    (cs : list call) :
  3 <= clock 0%nat ->
  well_nested cs = true ->
  forallb sane_call cs = true ->
  exists s s',
    run clock cs initial = Ok s /\
    write_all_events clock s = Ok s' /\
    (advances_within 6 clock (ticks s') ->
     in_range clock (ticks s') ->
     Forall (fun e => span_ordered e /\ span_fits (te_ts e)) (events s')).
Proof.
  intros Hfirst Hwn Hsane.
  destruct (run_total clock cs initial Hwn Hsane) as [s Hs].
  destruct (run_stack_inv clock cs initial s Hs stack_inv_initial) as [Hinv _].
  pose proof (run_closed_passes_named clock cs initial s Hs ltac:(constructor)) as Hpasses.
  destruct (write_all_events_spec clock s Hinv Hpasses) as (s1 & emitted & Hs1 & Hem & Hwrite).
  exists s. eexists. split; [done|]. split; [exact Hwrite|].
  cbn [events set_events ticks]. intros Hadv Hr.
  (* the readings after the last one taken do not matter *)
  set (clock' := continued 6 clock (ticks s1)).
  assert (Hag : forall k, (k < ticks s1)%nat -> clock' k = clock k).
  { intros k Hk. by apply continued_agrees. }
  pose proof (finish_preprocessing_loop_ticks clock _ _ _ Hs1) as Hle.
  assert (Hs' : run clock' cs initial = Ok s).
  { apply (run_ext clock clock' cs initial s Hs). intros k Hk. apply Hag. lia. }
  assert (Hs1' : finish_preprocessing_stage clock' s = Ok s1).
  { apply (step_ext clock clock' drain_open_files s s1 Hs1). intros k Hk. apply Hag. lia. }
  assert (Hadv' : advances 6 clock') by (apply continued_advances; [lia | done]).
  assert (Hfirst' : 3 <= clock' 0%nat) by (apply continued_first; [lia | done]).
  pose proof (clock_monotone clock' Hadv') as Hmono.
  destruct (run_preprocess_timing clock' Hmono cs initial s Hs' stack_inv_initial
              (preprocess_timing_initial clock')) as [_ Htime].
  pose proof (run_epsilon clock' Hadv' cs initial s Hs'
                (epsilon_timing_initial clock' Hfirst' Hadv')) as Heps.
  pose proof (finish_preprocessing_loop_timing clock' _ _ _ Hs1' Htime) as Htime1.
  pose proof (finish_preprocessing_loop_epsilon clock' Hadv' _ _ _ Hs1' Heps) as Heps1.
  assert (Hno1 : no_overflow s1).
  { apply (run_no_overflow clock (cs ++ [drain_open_files]) initial s1);
      [done | | exact no_overflow_initial].
    rewrite run_app, Hs. unfold run; simpl. by rewrite Hs1. }
  rewrite (run_events clock cs initial s Hs). cbn [events initial app].
  destruct Heps1 as [_ Hfun Hscope _ Hpass].
  destruct Hno1 as [_ Hffun Hfscope _ Hfpass Hfstart Hfend].
  rewrite !Forall_app. split; [|split; [|split]].
  - apply Forall_forall. intros e Hin.
    apply list_elem_of_fmap in Hin as ([f [t0 t1]] & -> & Hin).
    apply elem_of_preprocess_records in Hin as (H0 & H1 & _).
    unfold span_ordered; simpl. split; [by eapply start_le_end|].
    split; simpl; [by apply (Hfstart f) | by apply (Hfend f)].
  - clear Hwrite. induction Hem as [|e t l l' (p & Hp & ->) Hem IH]; [done|].
    apply Forall_cons in Hpass as [He Hpass].
    apply Forall_cons in Hfpass as [Hfe Hfpass].
    constructor; [by split | by apply IH].
  - apply Forall_fmap, Forall_forall. intros e He.
    rewrite Forall_forall in Hscope, Hfscope.
    destruct (Hscope e He) as [Hord _]. split; [exact Hord | by apply Hfscope].
  - apply Forall_fmap, Forall_forall. intros e He.
    rewrite Forall_forall in Hfun, Hffun.
    split; [by apply Hfun | by apply Hffun].
Qed.

(** ** Pass spans *)

(** X10. When every [enter_pass] call is given a real pass and the
    readings taken are within the 64-bit range with six nanoseconds to
    spare, the spans of the passes tile the run: every pending span
    starts one nanosecond after the end of the one before it, and the
    span of the open pass one nanosecond after the end of the last
    pending one; no pass span leaves the 64-bit range. *)
Theorem pass_spans_start_one_after_the_previous_end (clock : nat -> TimeStamp)
    (cs : list call) (s : Tracker) :
  run clock cs initial = Ok s ->
  Forall is_Some (passes_entered cs) ->
  in_range clock (ticks s) ->
  pass_chain one_later s /\
  Forall (fun e => span_fits (ope_ts e)) (pass_events s) /\
  span_fits (ope_ts (last_pass s)).
Proof.
  intros Hrun Hall Hr.
  destruct (run_no_overflow clock cs initial s Hr Hrun no_overflow_initial)
    as [_ _ _ Hl Hp _ _].
  split; [|done].
  apply (run_one_later clock cs initial s Hrun Hall); [done|].
  split; simpl; [intros i a b Ha; by rewrite lookup_nil in Ha | done].
Qed.

(** X11. On a clock that never goes back and whose readings taken are
    within the 64-bit range with six nanoseconds to spare, the spans of
    the passes never overlap, null passes or not: every pending span
    starts at least one nanosecond after the end of the one before it,
    and so does the span of the open pass after the last pending one; no
    pass span leaves the 64-bit range. *)
Theorem pass_spans_never_overlap (clock : nat -> TimeStamp)
    (cs : list call) (s : Tracker) :
  monotone clock ->
  run clock cs initial = Ok s ->
  in_range clock (ticks s) ->
  pass_chain later s /\
  Forall (fun e => span_fits (ope_ts e)) (pass_events s) /\
  span_fits (ope_ts (last_pass s)).
Proof.
  intros Hmono Hrun Hr.
  destruct (run_no_overflow clock cs initial s Hr Hrun no_overflow_initial)
    as [_ _ _ Hl Hp _ _].
  split; [|done].
  cut (pass_chain later s /\ last_pending_past clock s); [by intros [H _]|].
  apply (run_invariant clock
           (fun s => pass_chain later s /\ last_pending_past clock s))
    with (cs := cs) (s := initial); [|  |done].
  - intros c s1 s2 H1 H2. by apply (step_later clock c s1 s2).
  - split; [split|]; simpl; [intros i a b Ha; by rewrite lookup_nil in Ha | done | done].
Qed.

(** ** Function and scope spans *)

(** X13. On a clock that never goes back and whose readings taken are
    within the 64-bit range with six nanoseconds to spare, in every
    tracker reached by calls, whatever calls come between the functions:
    each function span starts at least three nanoseconds after the end of
    the one before it, and each scope span at least one nanosecond after
    the end of the one before it; no function or scope span leaves the
    64-bit range. *)
Theorem function_and_scope_spans_never_overlap (clock : nat -> TimeStamp)
    (cs : list call) (s : Tracker) :
  monotone clock ->
  run clock cs initial = Ok s ->
  in_range clock (ticks s) ->
  (forall i a b,
     function_events s !! i = Some a -> function_events s !! S i = Some b ->
     end_ (fe_ts a) + 3 <= start (fe_ts b)) /\
  (forall i a b,
     scope_events s !! i = Some a -> scope_events s !! S i = Some b ->
     end_ (se_ts a) + 1 <= start (se_ts b)) /\
  Forall (fun e => span_fits (fe_ts e)) (function_events s) /\
  Forall (fun e => span_fits (se_ts e)) (scope_events s).
Proof.
  intros Hmono Hrun Hr.
  destruct (run_no_overflow clock cs initial s Hr Hrun no_overflow_initial)
    as [_ Hf Hs _ _ _ _].
  assert (Hinv : spans_apart clock s).
  { apply (run_invariant clock (spans_apart clock)) with (cs := cs) (s := initial);
      [| |done].
    - intros c s1 s2 H1 H2. by apply (step_spans_apart clock c s1 s2).
    - split; simpl; try done; intros i a b Ha; by rewrite lookup_nil in Ha. }
  split_and!; [apply (functions_apart clock s Hinv) | apply (scopes_apart clock s Hinv)
               | done | done].
Qed.

(** * The theorems at concrete inputs *)

Lemma conflicting_display_names_fall_back_witness :
  normalized_file_name "/a/sub/x.h" x_s1 = "sub/x.h" /\
  normalized_file_name "/a/sub/x.h" x_s4 = "/a/sub/x.h" /\
  normalized_file_name "/b/sub/x.h" x_s4 = "/b/sub/x.h".
Proof.
  split; [vm_compute; reflexivity|].
  refine (proj2 (proj2 (conflicting_display_names_fall_back demo_clock
            initial x_s1 x_s2 x_s3 x_s4 "/a/sub/x.h" "/a" "/b/sub/x.h" "/b" "sub/x.h"
            [enter_pass None] [finish_function demo_f; enter_file (Some "c.h") None]
            _ _ _ _ _ _)));
    try (vm_compute; reflexivity);
    (split; [|split]); vm_compute; reflexivity.
Defined.

Lemma demo_clock_monotone : monotone demo_clock.
Proof. intros n. unfold demo_clock. lia. Defined.

Lemma demo_clock_in_range (n : nat) : (n <= 100)%nat -> in_range demo_clock n.
Proof. intros Hn k Hk. unfold demo_clock, INT64_MIN, INT64_MAX. lia. Defined.

Lemma preprocess_events_of_well_nested_calls_witness :
  exists s s',
    run demo_clock nested_calls initial = Ok s /\
    write_preprocessing_events demo_clock s = Ok s' /\
    length (preprocess_events s') =
      size (files_entered nested_calls ∖ {[CIRCULAR_POISON_VALUE; "<command-line>"]}) /\
    Forall span_ordered (preprocess_events s').
Proof.
  apply (preprocess_events_of_well_nested_calls demo_clock nested_calls).
  - exact demo_clock_monotone.
  - vm_compute; reflexivity.
  - vm_compute; reflexivity.
Defined.

Lemma circular_include_is_poisoned_witness :
  "a.c" ∈ preprocessing_stack circular_s /\
  exists s1 s2 s3 records,
    start_preprocess_file demo_clock (Some "a.c") (Some demo_reader) circular_s = Ok s1 /\
    preprocessing_stack s1 = CIRCULAR_POISON_VALUE :: preprocessing_stack circular_s /\
    normalizer s1 = normalizer circular_s /\
    preprocess_start s1 !! "a.c" = preprocess_start circular_s !! "a.c" /\
    preprocess_end s1 !! "a.c" = None /\
    run demo_clock [leave_file; leave_file] s1 = Ok s2 /\
    write_preprocessing_events demo_clock s2 = Ok s3 /\
    events s3 = map (record_event s3) records /\
    NoDup records.*1 /\
    CIRCULAR_POISON_VALUE ∉ records.*1.
Proof.
  apply (circular_include_is_poisoned demo_clock [enter_file (Some "a.c") None]
           [leave_file; leave_file] circular_s "a.c" (Some demo_reader)).
  - vm_compute; reflexivity.
  - exists 3. vm_compute; reflexivity.
  - vm_compute; reflexivity.
  - discriminate.
  - vm_compute; reflexivity.
  - vm_compute; reflexivity.
Defined.

Lemma first_inclusion_interval_is_kept_witness :
  events (result (write_preprocessing_events demo_clock included_twice)) =
    [mkTraceEvent "a.h" PREPROCESS (mkTimeSpan 3 9) (false, ∅)] /\
  preprocess_start included_twice !! "a.h" = Some 3 /\
  preprocess_end included_twice !! "a.h" = Some 9 /\
  exists s'' records,
    write_preprocessing_events demo_clock included_twice = Ok s'' /\
    events s'' =
      map (fun r => mkTraceEvent (normalized_file_name r.1 s'') PREPROCESS
                      (mkTimeSpan r.2.1 r.2.2) (false, ∅)) records /\
    NoDup records.*1 /\
    ("a.h", (3, 9)) ∈ records /\
    mkTraceEvent (normalized_file_name "a.h" s'') PREPROCESS (mkTimeSpan 3 9) (false, ∅)
      ∈ events s''.
Proof.
  split; [vm_compute; reflexivity|].
  apply (first_inclusion_interval_is_kept demo_clock
           [enter_file (Some "a.h") None; leave_file]
           [enter_file (Some "a.h") None; leave_file]
           included_once included_twice "a.h" 3 9).
  - vm_compute; reflexivity.
  - vm_compute; reflexivity.
  - vm_compute; reflexivity.
  - discriminate.
  - vm_compute; reflexivity.
Defined.

Lemma leave_file_on_empty_stack_is_undefined_witness :
  end_preprocess_file demo_clock initial = Fault undefined_behaviour.
Proof.
  apply (leave_file_on_empty_stack_is_undefined demo_clock initial). reflexivity.
Defined.

Lemma enter_pass_closes_the_open_pass_witness :
  let s' := start_opt_pass demo_clock (Some demo_P1) one_pass_open in
  write_opt_pass_events s' =
    Ok (set_events
          [mkTraceEvent "cfg" GIMPLE_PASS (mkTimeSpan 4 9)
             (true, <["static_pass_number" := "12"]> ∅)] s') /\
  pass_events s' = [mkOptPassEvent (Some demo_P0) (mkTimeSpan 4 9)] /\
  pass (last_pass s') = Some demo_P1 /\
  start (ope_ts (last_pass s')) = 10 /\
  fits 10 /\
  Forall (fun e => span_fits (ope_ts e)) (pass_events s') /\
  exists s3,
    write_all_events demo_clock
      (start_opt_pass demo_clock (Some demo_P2)
         (start_opt_pass demo_clock (Some demo_P1) initial)) = Ok s3 /\
    events s3 =
      [mkTraceEvent "ssa" GIMPLE_PASS (mkTimeSpan 4 9)
         (true, <["static_pass_number" := "20"]> ∅)] /\
    span_fits (mkTimeSpan 4 9).
Proof.
  intros s'.
  destruct (enter_pass_closes_the_open_pass demo_clock [enter_pass (Some demo_P0)]
              one_pass_open (Some demo_P1) demo_P1 demo_P2)
    as (Hpending & Hopen & Hstart & Hfits & Hall & _ & Hexample).
  - vm_compute; reflexivity.
  - apply demo_clock_in_range. vm_compute. lia.
  - split; [vm_compute; reflexivity|].
    split; [exact Hpending|]. split; [exact Hopen|]. split; [exact Hstart|].
    split; [exact Hfits|]. split; [exact Hall|].
    apply Hexample. apply demo_clock_in_range. lia.
Defined.

Lemma consecutive_functions_share_one_scope_witness :
  scope_events (end_parse_function demo_clock demo_g after_f) =
    [mkScopeEvent "Foo" STRUCT (mkTimeSpan 2 16)] /\
  scope_events (end_parse_function demo_clock demo_h after_g) =
    [mkScopeEvent "Foo" STRUCT (mkTimeSpan 2 16);
     mkScopeEvent "Bar" NAMESPACE (mkTimeSpan 17 22)] /\
  events (write_all_scopes (end_parse_function demo_clock demo_h after_g)) =
    [mkTraceEvent "Foo" STRUCT (mkTimeSpan 2 16) (false, ∅);
     mkTraceEvent "Bar" NAMESPACE (mkTimeSpan 17 22) (false, ∅)] /\
  Forall (fun e => span_fits (se_ts e))
    (scope_events (end_parse_function demo_clock demo_h after_g)).
Proof.
  destruct (consecutive_functions_share_one_scope demo_clock [] initial after_f after_g
              demo_f demo_g demo_h "Foo" "Bar" [enter_pass None] [])
    as (_ & Hfresh & Hnew & Hwrite & _ & Hfits);
    try reflexivity; try discriminate.
  - apply demo_clock_in_range. vm_compute. lia.
  - split; [|split; [|split]].
    + rewrite Hfresh by reflexivity. reflexivity.
    + rewrite Hnew, Hfresh by reflexivity. reflexivity.
    + rewrite Hwrite, Hnew, Hfresh by reflexivity. reflexivity.
    + exact Hfits.
Defined.


Lemma every_span_is_ordered_on_an_advancing_clock_witness :
  exists s s',
    run demo_clock nested_calls initial = Ok s /\
    write_all_events demo_clock s = Ok s' /\
    map te_ts (events s') =
      [mkTimeSpan 3 51; mkTimeSpan 9 21; mkTimeSpan 46 57; mkTimeSpan 38 40;
       mkTimeSpan 39 39] /\
    Forall (fun e => span_ordered e /\ span_fits (te_ts e)) (events s').
Proof.
  destruct (every_span_is_ordered_on_an_advancing_clock demo_clock nested_calls)
    as (s & s' & Hs & Hs' & Hall).
  - vm_compute. discriminate.
  - vm_compute; reflexivity.
  - vm_compute; reflexivity.
  - exists s, s'. split; [exact Hs|]. split; [exact Hs'|].
    assert (Hs2 := Hs). vm_compute in Hs2. injection Hs2 as <-.
    assert (Hs3 := Hs'). vm_compute in Hs3. injection Hs3 as <-.
    split; [vm_compute; reflexivity|].
    apply Hall; [intros k _; unfold demo_clock; lia|].
    apply demo_clock_in_range. vm_compute. lia.
Defined.

Lemma start_preprocess_file_ignores_null_and_command_line_witness :
  preprocess_start (result (run demo_clock nested_calls initial)) !! "<command-line>"
    = None /\
  "<command-line>" ∉ (preprocess_records (result (run demo_clock nested_calls initial))).*1.
Proof.
  apply (proj2 (proj2 (start_preprocess_file_ignores_null_and_command_line
                         demo_clock None initial)) nested_calls).
  vm_compute; reflexivity.
Defined.

(** * The further theorems at concrete inputs *)

Lemma files_sharing_a_display_name_fall_back_witness :
  normalized_file_name "/a/x.h" same_name_s = "/a/x.h" /\
  normalized_file_name "/b/x.h" same_name_s = "/b/x.h".
Proof.
  apply (files_sharing_a_display_name_fall_back demo_clock same_name_calls same_name_s
           "/a/x.h" "/b/x.h" "x.h").
  - vm_compute; reflexivity.
  - vm_compute; reflexivity.
  - vm_compute; reflexivity.
  - discriminate.
Defined.

Lemma unresolved_files_pass_through_witness :
  normalized_file_name "/c/y.h" same_name_s = "/c/y.h".
Proof.
  apply (unresolved_files_pass_through demo_clock same_name_calls same_name_s "/c/y.h").
  - vm_compute; reflexivity.
  - intros H. vm_compute in H. discriminate H.
Defined.

Lemma new_file_below_its_directory_is_answered_by_the_rest_witness :
  exists s', step demo_clock (enter_file (Some "b.h") (Some demo_reader)) initial = Ok s' /\
             normalized_files_map s' !! "/usr/include/b.h" = Some "b.h" /\
             normalized_file_name "/usr/include/b.h" s' = "b.h".
Proof.
  refine (new_file_below_its_directory_is_answered_by_the_rest demo_clock [] initial
            "b.h" "/usr/include" "b.h" (Ascii.ascii_of_nat 47) demo_reader
            _ _ _ _ _ _ _).
  - reflexivity.
  - reflexivity.
  - reflexivity.
  - reflexivity.
  - reflexivity.
  - vm_compute; reflexivity.
  - intros H. vm_compute in H. discriminate H.
Defined.

Lemma file_outside_its_directory_is_never_renamed_witness :
  exists s1,
    register_include_location "/opt/x.h" "/usr/include" initial = Ok s1 /\
    stderr s1 = stderr initial ++ [cant_normalize "/opt/x.h" "/usr/include"] /\
    forall post s2, run demo_clock post s1 = Ok s2 ->
                    normalized_file_name "/opt/x.h" s2 = "/opt/x.h".
Proof.
  apply (file_outside_its_directory_is_never_renamed demo_clock [] initial
           "/opt/x.h" "/usr/include").
  - reflexivity.
  - vm_compute; reflexivity.
  - reflexivity.
Defined.

Lemma first_registration_of_a_file_wins_witness :
  register_include_location "/a/sub/x.h" "/b" x_s2 = Ok x_s2.
Proof.
  apply (first_registration_of_a_file_wins demo_clock "/a/sub/x.h" "/a" "/b"
           initial x_s1 x_s2 [enter_pass None]).
  - vm_compute; reflexivity.
  - vm_compute; reflexivity.
Defined.

Lemma pending_and_open_passes_are_the_passes_entered_witness :
  passes_held nested_s = [demo_P0; demo_P1] /\
  pass (last_pass nested_s) = Some demo_P1 /\
  Forall (fun e => is_Some (pass e)) (pass_events nested_s).
Proof.
  apply (pending_and_open_passes_are_the_passes_entered demo_clock nested_calls nested_s).
  vm_compute; reflexivity.
Defined.

Lemma pass_spans_start_one_after_the_previous_end_witness :
  map ope_ts (pass_events three_functions_s) = [mkTimeSpan 10 39; mkTimeSpan 40 45] /\
  ope_ts (last_pass three_functions_s) = mkTimeSpan 46 45 /\
  pass_chain one_later three_functions_s /\
  Forall (fun e => span_fits (ope_ts e)) (pass_events three_functions_s) /\
  span_fits (ope_ts (last_pass three_functions_s)).
Proof.
  split; [vm_compute; reflexivity|]. split; [vm_compute; reflexivity|].
  apply (pass_spans_start_one_after_the_previous_end demo_clock three_functions
           three_functions_s).
  - vm_compute; reflexivity.
  - repeat constructor; by eexists.
  - apply demo_clock_in_range. vm_compute. lia.
Defined.

Lemma pass_spans_never_overlap_witness :
  map ope_ts (pass_events three_functions_s) = [mkTimeSpan 10 39; mkTimeSpan 40 45] /\
  ope_ts (last_pass three_functions_s) = mkTimeSpan 46 45 /\
  pass_chain later three_functions_s /\
  Forall (fun e => span_fits (ope_ts e)) (pass_events three_functions_s) /\
  span_fits (ope_ts (last_pass three_functions_s)).
Proof.
  split; [vm_compute; reflexivity|]. split; [vm_compute; reflexivity|].
  apply (pass_spans_never_overlap demo_clock three_functions three_functions_s).
  - exact demo_clock_monotone.
  - vm_compute; reflexivity.
  - apply demo_clock_in_range. vm_compute. lia.
Defined.

Lemma function_events_are_the_functions_finished_witness :
  map (fun e => (fe_name e, fe_file_name e)) (function_events nested_s) =
    [("Foo::f()", "a.c")] /\
  map te_name (drop (length (events nested_s)) (events (write_all_functions nested_s))) =
    ["Foo::f()"].
Proof.
  apply (function_events_are_the_functions_finished demo_clock nested_calls nested_s).
  vm_compute; reflexivity.
Defined.

Lemma function_and_scope_spans_never_overlap_witness :
  map fe_ts (function_events three_functions_s) =
    [mkTimeSpan 3 3; mkTimeSpan 6 15; mkTimeSpan 33 33] /\
  map se_ts (scope_events three_functions_s) = [mkTimeSpan 2 16; mkTimeSpan 32 34] /\
  (forall i a b,
     function_events three_functions_s !! i = Some a ->
     function_events three_functions_s !! S i = Some b ->
     end_ (fe_ts a) + 3 <= start (fe_ts b)) /\
  (forall i a b,
     scope_events three_functions_s !! i = Some a ->
     scope_events three_functions_s !! S i = Some b ->
     end_ (se_ts a) + 1 <= start (se_ts b)) /\
  Forall (fun e => span_fits (fe_ts e)) (function_events three_functions_s) /\
  Forall (fun e => span_fits (se_ts e)) (scope_events three_functions_s).
Proof.
  split; [vm_compute; reflexivity|]. split; [vm_compute; reflexivity|].
  apply (function_and_scope_spans_never_overlap demo_clock three_functions
           three_functions_s).
  - exact demo_clock_monotone.
  - vm_compute; reflexivity.
  - apply demo_clock_in_range. vm_compute. lia.
Defined.

Lemma unscoped_function_splits_the_scope_witness :
  scope_events (end_parse_function demo_clock demo_g after_u) =
    scope_events (end_parse_function demo_clock demo_f initial) ++
      [opened_scope "Foo" STRUCT (parsed_span demo_clock after_u)].
Proof.
  apply (unscoped_function_splits_the_scope demo_clock initial after_f after_u
           demo_f demo_u demo_g "Foo" [enter_pass None] []).
  - reflexivity.
  - reflexivity.
  - reflexivity.
  - reflexivity.
  - reflexivity.
  - vm_compute; reflexivity.
  - vm_compute; reflexivity.
Defined.

Lemma preprocess_records_never_cross_witness :
  nested_or_apart (3, 51) (9, 21).
Proof.
  apply (preprocess_records_never_cross demo_clock nested_calls nested_s
           ("a.c", (3, 51)) ("b.h", (9, 21))).
  - exact demo_clock_monotone.
  - vm_compute; reflexivity.
  - apply elem_of_preprocess_records.
    split_and!; [vm_compute; reflexivity | vm_compute; reflexivity | discriminate].
  - apply elem_of_preprocess_records.
    split_and!; [vm_compute; reflexivity | vm_compute; reflexivity | discriminate].
  - discriminate.
Defined.

Lemma plugin_events_drive_the_trackers_witness :
  tracker_of (callbacks demo_clock demo_events initial_plugin) =
    run demo_clock (flat_map calls_of demo_events) initial.
Proof.
  exact (plugin_events_drive_the_trackers demo_clock demo_events initial_plugin eq_refl).
Defined.

Lemma scope_events_have_scope_categories_witness :
  Forall (fun ev => scope_category (se_type ev) = true)
    (scope_events (tracker demo_plugin)) /\
  unknown_tree_codes demo_plugin = [32].
Proof.
  apply (scope_events_have_scope_categories demo_clock demo_events demo_plugin).
  vm_compute; reflexivity.
Defined.

Lemma only_write_all_functions_emits_function_events_witness :
  (exists t, write_preprocessing_events demo_clock (tracker demo_plugin) = Ok t /\
             function_trace_events t = []) /\
  (exists t, write_opt_pass_events (tracker demo_plugin) = Ok t /\
             function_trace_events t = []) /\
  function_trace_events (write_all_scopes (tracker demo_plugin)) = [] /\
  map te_name (function_trace_events (write_all_functions (tracker demo_plugin))) =
    ["Foo::f()"; "main()::<lambda()>"].
Proof.
  apply (only_write_all_functions_emits_function_events demo_clock demo_events demo_plugin).
  - reflexivity.
  - vm_compute; reflexivity.
Defined.

Lemma unknown_argument_is_refused_witness :
  setup_output demo_fs [trace_argument; verbose_argument; absolute_dir_argument] =
    returns false [unknown_argument "verbose"] None.
Proof.
  apply (unknown_argument_is_refused demo_fs [trace_argument] [absolute_dir_argument]
           verbose_argument); reflexivity.
Defined.

Lemma file_and_dir_exclude_each_other_witness :
  setup_output demo_fs [trace_argument; absolute_dir_argument] =
    returns false [dir_with_file] None.
Proof.
  apply (file_and_dir_exclude_each_other demo_fs [trace_argument; absolute_dir_argument]
           "out.json" "/tmp"); reflexivity.
Defined.

Lemma trace_dir_gives_the_template_witness :
  setup_output demo_fs [absolute_dir_argument; relative_dir_argument] =
    returns true [dir_not_absolute] (Some "build/trace_b3PIrl.json") /\
  setup_output failing_fs [absolute_dir_argument; relative_dir_argument] =
    returns false [dir_not_absolute; mkstemps_failed "build/trace_b3PIrl.json"] None.
Proof.
  split.
  - exact (trace_dir_gives_the_template demo_fs
             [absolute_dir_argument; relative_dir_argument] "build"
             eq_refl eq_refl eq_refl).
  - exact (trace_dir_gives_the_template failing_fs
             [absolute_dir_argument; relative_dir_argument] "build"
             eq_refl eq_refl eq_refl).
Defined.
